(** * The Transit+JSON decoder of penpot-mcp-server

    A shallow embedding of [src/penpot_mcp/services/transit.py]: the string
    cache ([_Cache]), the tagged scalar parser ([_parse_tagged]), the
    structural walk ([_decode], [_decode_str], [_decode_list],
    [_decode_tagged_verbose]) and the entry point ([decode_transit]);
    then of the functions that read what the decoder returns, in
    [tools/shapes.py] and [tools/advanced.py], with the builder of
    [services/changes.py] and the escaping of [transformers/svg.py] that
    work on the same data; followed by their properties.

    Python objects are modelled by one type of values, [pyval], used for
    the parsed JSON tree that goes in and for the decoded tree that comes
    out, as the source passes numbers, booleans and [None] through
    untouched. Exceptions are explicit: every function that can raise
    returns a [result]. The cache, a mutable object in the source, is
    threaded through the walk as a value. *)

From Stdlib Require Import ZArith NArith List String Ascii Bool Lia.
From Stdlib Require Import Floats.SpecFloat.
From Stdlib Require Strings.Byte.
From stdpp Require Import base option list gmap.

Set Default Proof Using "Type".

(** ** Strings

    A Python [str] is a sequence of Unicode code points: [chr] can produce
    any of them, so characters are numbers and not 8-bit [ascii]. *)

Definition pystr := list N.

Definition ch (a : ascii) : N := N_of_ascii a.
Arguments ch a%_char : simpl never.

(** A literal, character by character; used on ASCII literals only. *)
Definition py (s : string) : pystr := ch <$> list_ascii_of_string s.
Arguments py s%_string : simpl never.

Definition str_eqb (a b : pystr) : bool := bool_decide (a = b).

(** [s.startswith(p)] *)
Fixpoint startswith (s p : pystr) {struct p} : bool :=
  match p, s with
  | [], _ => true
  | _ :: _, [] => false
  | y :: p', x :: s' => N.eqb x y && startswith s' p'
  end.

Arguments startswith : simpl never.

(** [s[i] == c], for an index [i] that the source has guarded by [len]:
    out of range it is [false] here, where Python would raise. *)
Definition char_is (s : pystr) (i : nat) (c : N) : bool :=
  match s !! i with
  | Some x => N.eqb x c
  | None => false
  end.

(** ** Exceptions and results *)

Inductive exn :=
  | TypeError
  | ValueError
  | JSONDecodeError
  | OSError
  | OverflowError
  | RecursionError.

#[global] Instance exn_eq_dec : EqDecision exn.
Proof. solve_decision. Defined.

(** [issubclass(e, cls)] on the classes above: [json.JSONDecodeError]
    derives from [ValueError], [OverflowError] from [ArithmeticError]. *)
Definition issubclass (e cls : exn) : bool :=
  match e, cls with
  | JSONDecodeError, ValueError => true
  | _, _ => bool_decide (e = cls)
  end.

Inductive result (A : Type) :=
  | Ok (a : A)
  | Raise (e : exn).
Arguments Ok {A} a.
Arguments Raise {A} e.

#[global] Instance result_ret : MRet result := fun A a => Ok a.
#[global] Instance result_bind : MBind result := fun A B f r =>
  match r with
  | Ok a => f a
  | Raise e => Raise e
  end.
#[global] Instance result_fmap : FMap result := fun A B f r =>
  match r with
  | Ok a => Ok (f a)
  | Raise e => Raise e
  end.

(** [try: r  except classes: handler] *)
Definition try_except {A} (r : result A) (classes : list exn) (handler : result A)
  : result A :=
  match r with
  | Ok a => Ok a
  | Raise e => if existsb (issubclass e) classes then handler else Raise e
  end.

(** ** Constants of the module *)

Definition _CACHE_BASE : N := 44.
Definition _CACHE_BASE_CHAR : N := 48.
Definition _ALWAYS_CACHEABLE_TAGS : list N := [ch ":"; ch "$"; ch "#"].

(** [chr(i)]: [ValueError] outside [range(0x110000)]. *)
Definition chr (i : N) : result N :=
  if (i <? 0x110000)%N then Ok i else Raise ValueError.

(** ** The cache: class [_Cache] *)

Record _Cache := mk_Cache { _map : gmap pystr pystr; _idx : N }.

(** [_Cache()] *)
Definition new_Cache : _Cache := {| _map := ∅; _idx := 0 |}.

(** [cache._ref_for(idx)] *)
Definition _ref_for (idx : N) : result pystr :=
  if (idx <? _CACHE_BASE)%N then
    c ← chr (_CACHE_BASE_CHAR + idx)%N; Ok [ch "^"; c]
  else
    let hi := (idx / _CACHE_BASE)%N in
    let lo := (idx mod _CACHE_BASE)%N in
    h ← chr (_CACHE_BASE_CHAR + hi)%N;
    l ← chr (_CACHE_BASE_CHAR + lo)%N;
    Ok [ch "^"; h; l].

(** [cache.cache(s, as_key)]: the cache after the call. *)
Definition cache (self : _Cache) (s : pystr) (as_key : bool) : result _Cache :=
  if length s <? 4 then Ok self
  else if as_key
          || (char_is s 0 (ch "~") && (2 <=? length s)
              && match s !! 1 with
                 | Some t => bool_decide (t ∈ _ALWAYS_CACHEABLE_TAGS)
                 | None => false
                 end)
  then
    ref ← _ref_for (_idx self);
    Ok {| _map := <[ref := s]> (_map self); _idx := (_idx self + 1)%N |}
  else Ok self.

(** [cache.resolve(ref)] *)
Definition resolve (self : _Cache) (ref : pystr) : option pystr :=
  _map self !! ref.

(** [_Cache.is_cache_ref(s)] *)
Definition is_cache_ref (s : pystr) : bool :=
  (2 <=? length s) && char_is s 0 (ch "^").

(** ** Values

    [Any] in the source: what [json.loads] builds and what the decoder
    returns. A [dict] keeps its items in insertion order. *)

#[local] Unset Elimination Schemes.
Inductive pyval :=
  | PNone
  | PBool (b : bool)
  | PInt (n : Z)
  | PFloat (f : spec_float)
  | PStr (s : pystr)
  | PList (l : list pyval)
  | PDict (items : list (pyval * pyval)).
#[local] Set Elimination Schemes.

(** *** Binary64 numbers *)

Definition prec : Z := 53.
Definition emax : Z := 1024.

(** [float(n)] for an [int], rounded to nearest, ties to even. *)
Definition f64_of_Z (n : Z) : spec_float := binary_normalize prec emax n 0 false.

(** The double nearest to [m * 10^e10] (ties to even), signed. *)
Definition f64_of_decimal (neg : bool) (m : Z) (e10 : Z) : spec_float :=
  match m with
  | Z0 => S754_zero neg
  | Zpos p =>
      if (0 <=? e10)%Z then binary_round prec emax neg (p * Z.to_pos (10 ^ e10)) 0
      else
        let '(q, e, l) := SFdiv_core_binary prec emax (Zpos p) 0 (10 ^ (- e10)) 0 in
        binary_round_aux prec emax neg q e l
  | Zneg _ => S754_nan
  end.

(** [f == n] for a float and an int: Python compares the exact values. *)
Definition float_eq_int (f : spec_float) (n : Z) : bool :=
  match f with
  | S754_zero _ => (n =? 0)%Z
  | S754_finite s m e =>
      let sign := if s then (-1)%Z else 1%Z in
      if (0 <=? e)%Z then (n =? sign * (Zpos m * 2 ^ e))%Z
      else ((Zpos m mod 2 ^ (- e) =? 0) && (n =? sign * (Zpos m / 2 ^ (- e))))%Z
  | _ => false
  end.

(** *** Dictionaries

    [a == b] on the values that can be keys. A [bool] is an [int]
    ([True == 1]), an [int] equals the float of the same value, and a NaN
    equals nothing. (CPython's lookup also accepts a key that is the
    very same object. Two NaN keys are taken here as two objects, as
    [float(...)] makes them; [json.loads] gives one object for every
    [NaN] of a text, so that two keys written [NaN] in the array form of
    a map are one key in CPython and two here.) *)
Definition py_eq (a b : pyval) : bool :=
  match a, b with
  | PNone, PNone => true
  | PStr s, PStr t => str_eqb s t
  | PBool x, PBool y => Bool.eqb x y
  | PBool x, PInt n | PInt n, PBool x => (Z.b2z x =? n)%Z
  | PInt n, PInt m => (n =? m)%Z
  | PBool x, PFloat f | PFloat f, PBool x => float_eq_int f (Z.b2z x)
  | PInt n, PFloat f | PFloat f, PInt n => float_eq_int f n
  | PFloat f, PFloat g => SFeqb f g
  | _, _ => false
  end.

(** A [list] and a [dict] have no hash. *)
Definition hashable (v : pyval) : bool :=
  match v with
  | PList _ | PDict _ => false
  | _ => true
  end.

(** The items after [out[key] = val], for a hashable [key]: a key that is
    already there keeps its place and its first spelling. *)
Fixpoint dict_store (out : list (pyval * pyval)) (key val : pyval)
  : list (pyval * pyval) :=
  match out with
  | [] => [(key, val)]
  | (k, v) :: rest =>
      if py_eq k key then (k, val) :: rest else (k, v) :: dict_store rest key val
  end.

(** [out[key] = val]: [TypeError: unhashable type] for a list or a dict. *)
Definition dict_setitem (out : list (pyval * pyval)) (key val : pyval)
  : result (list (pyval * pyval)) :=
  if hashable key then Ok (dict_store out key val) else Raise TypeError.

(** ** The built-ins the parser calls

    [int(s)], [float(s)] and the conversion of an instant are CPython's,
    not this repository's; they are modelled from the language reference.
    Blanks are Python's white space; digits are the ASCII digits (the
    decimal digits of other scripts, which CPython also accepts, depend
    on the interpreter's Unicode tables and are not recognised here).
    [py_int] and [py_str] do not apply the interpreter's limit on the
    digits of an [int]; [int_checked] and [str_checked], further down,
    do. *)

Definition is_space (c : N) : bool :=
  ((9 <=? c) && (c <=? 13) || (28 <=? c) && (c <=? 32)
   || bool_decide (c ∈ [0x85; 0xA0; 0x1680; 0x2028; 0x2029; 0x202F; 0x205F; 0x3000])
   || (0x2000 <=? c) && (c <=? 0x200A))%N.

Definition is_digit (c : N) : bool := ((48 <=? c) && (c <=? 57))%N.

Fixpoint take_while (f : N → bool) (s : pystr) : pystr :=
  match s with
  | c :: s' => if f c then c :: take_while f s' else []
  | [] => []
  end.

Fixpoint drop_while (f : N → bool) (s : pystr) : pystr :=
  match s with
  | c :: s' => if f c then drop_while f s' else s
  | [] => []
  end.

(** [s.strip()] as the numeric parsers apply it *)
Definition lstrip (s : pystr) : pystr := drop_while is_space s.
Definition strip (s : pystr) : pystr := reverse (lstrip (reverse (lstrip s))).

(** An underscore may only stand between two digits. *)
Fixpoint underscores_ok (prev : option N) (s : pystr) : bool :=
  match s with
  | [] => true
  | c :: s' =>
      (if (c =? ch "_")%N
       then match prev, s' with
            | Some p, n :: _ => is_digit p && is_digit n
            | _, _ => false
            end
       else true)
      && underscores_ok (Some c) s'
  end.

Definition without_underscores (s : pystr) : pystr :=
  filter (λ c, c ≠ ch "_") s.

(** The number written by a run of ASCII digits. *)
Definition digits_value (s : pystr) : Z :=
  fold_left (λ acc c, acc * 10 + (Z.of_N c - 48))%Z s 0%Z.

(** An optional sign: whether it is a minus, and what follows it. *)
Definition split_sign (s : pystr) : bool * pystr :=
  match s with
  | c :: r =>
      if (c =? ch "-")%N then (true, r)
      else if (c =? ch "+")%N then (false, r)
      else (false, s)
  | [] => (false, s)
  end.

(** [int(s)]: [None] stands for [ValueError]. *)
Definition py_int (s : pystr) : option Z :=
  let '(neg, body) := split_sign (strip s) in
  let ds := without_underscores body in
  if underscores_ok None body && forallb is_digit ds && negb (bool_decide (ds = []))
  then Some (if neg then - digits_value ds else digits_value ds)%Z
  else None.

Definition lower (c : N) : N :=
  if ((65 <=? c) && (c <=? 90))%N then (c + 32)%N else c.

(** The decimal grammar of [float]: digits, an optional point and more
    digits (a digit on one side at least), an optional exponent. *)
Definition parse_decimal (neg : bool) (s : pystr) : option spec_float :=
  let ip := take_while is_digit s in
  let r1 := drop_while is_digit s in
  let '(fp, r2) :=
    match r1 with
    | c :: r => if (c =? ch ".")%N
                then (take_while is_digit r, drop_while is_digit r)
                else ([], r1)
    | [] => ([], r1)
    end in
  if bool_decide (ip ++ fp = []) then None
  else
    let mant := digits_value (ip ++ fp) in
    let shift := Z.of_nat (length fp) in
    match r2 with
    | [] => Some (f64_of_decimal neg mant (- shift))
    | c :: r =>
        if (lower c =? ch "e")%N then
          let '(eneg, ed) := split_sign r in
          if forallb is_digit ed && negb (bool_decide (ed = []))
          then
            let e := digits_value ed in
            Some (f64_of_decimal neg mant ((if eneg then - e else e) - shift))
          else None
        else None
    end.

(** [float(s)]: [None] stands for [ValueError]. *)
Definition py_float (s : pystr) : option spec_float :=
  if underscores_ok None s then
    let '(neg, body) := split_sign (strip (without_underscores s)) in
    let word := lower <$> body in
    if str_eqb word (py "inf") || str_eqb word (py "infinity")
    then Some (S754_infinity neg)
    else if str_eqb word (py "nan") then Some S754_nan
    else parse_decimal neg body
  else None.
(** *** Instants

    [datetime.fromtimestamp(n / 1000.0, tz=timezone.utc).isoformat()], as
    CPython computes it where [time_t] has 64 bits: the quotient is a
    double; its fraction is rounded to microseconds, ties to even; a
    number of seconds outside [time_t] is an [OverflowError], a year that
    [gmtime] cannot hold an [OSError], a year outside 1..9999 a
    [ValueError]. *)

Definition f64_div : spec_float → spec_float → spec_float := SFdiv prec emax.
Definition f64_mul : spec_float → spec_float → spec_float := SFmul prec emax.

(** [n / 1000.0] for an [int] [n] *)
Definition int_truediv_1000 (n : Z) : result spec_float :=
  match f64_of_Z n with
  | S754_infinity _ => Raise OverflowError
  | nf => Ok (f64_div nf (f64_of_Z 1000))
  end.

(** [modf]: the integer part, toward zero, and the fraction; both exact. *)
Definition f64_trunc (x : spec_float) : Z :=
  match x with
  | S754_finite s m e =>
      let a := if (0 <=? e)%Z then (Zpos m * 2 ^ e)%Z else (Zpos m / 2 ^ (- e))%Z in
      if s then (- a)%Z else a
  | _ => 0%Z
  end.

Definition f64_frac (x : spec_float) : spec_float :=
  match x with
  | S754_finite s m e =>
      if (0 <=? e)%Z then S754_zero s
      else
        let r := (Zpos m mod 2 ^ (- e))%Z in
        binary_normalize prec emax (if s then - r else r)%Z e s
  | _ => x
  end.

(** The nearest integer, ties to even. *)
Definition f64_round_half_even (x : spec_float) : Z :=
  match x with
  | S754_finite s m e =>
      let a :=
        if (0 <=? e)%Z then (Zpos m * 2 ^ e)%Z
        else
          let d := (2 ^ (- e))%Z in
          let q := (Zpos m / d)%Z in
          match (2 * (Zpos m mod d) ?= d)%Z with
          | Lt => q
          | Gt => (q + 1)%Z
          | Eq => if Z.even q then q else (q + 1)%Z
          end in
      if s then (- a)%Z else a
  | _ => 0%Z
  end.

Record datetime := mk_datetime {
  year : Z; month : Z; day : Z;
  hour : Z; minute : Z; second : Z; microsecond : Z }.

(** The proleptic Gregorian date of a day count from 1970-01-01. *)
Definition civil_from_days (days : Z) : Z * Z * Z :=
  (let z := days + 719468 in
   let era := z / 146097 in
   let doe := z - era * 146097 in
   let yoe := (doe - doe / 1460 + doe / 36524 - doe / 146096) / 365 in
   let doy := doe - (365 * yoe + yoe / 4 - yoe / 100) in
   let mp := (5 * doy + 2) / 153 in
   let d := doy - (153 * mp + 2) / 5 + 1 in
   let m := if mp <? 10 then mp + 3 else mp - 9 in
   let y := yoe + era * 400 + (if m <=? 2 then 1 else 0) in
   (y, m, d))%Z.

(** [datetime.fromtimestamp(x, tz=timezone.utc)] for a finite double *)
Definition fromtimestamp_utc (x : spec_float) : result datetime :=
  (let ip := f64_trunc x in
   let r := f64_round_half_even (f64_mul (f64_frac x) (f64_of_Z 1000000)) in
   let '(sec, us) :=
     if 1000000 <=? r then (ip + 1, r - 1000000)
     else if r <? 0 then (ip - 1, r + 1000000)
     else (ip, r) in
   if negb ((- 2 ^ 63 <=? sec) && (sec <? 2 ^ 63)) then Raise OverflowError
   else
     let '(y, m, d) := civil_from_days (sec / 86400) in
     let s := sec mod 86400 in
     if negb ((- 2 ^ 31 <=? y - 1900) && (y - 1900 <? 2 ^ 31)) then Raise OSError
     else if negb ((1 <=? y) && (y <=? 9999)) then Raise ValueError
     else Ok {| year := y; month := m; day := d;
                hour := s / 3600; minute := s mod 3600 / 60; second := s mod 60;
                microsecond := us |})%Z.

(** [n] in [width] decimal digits, zero-padded. *)
Fixpoint zpad (width : nat) (n : Z) : pystr :=
  match width with
  | O => []
  | S w => zpad w (n / 10) ++ [Z.to_N (48 + n mod 10)]
  end.

(** [dt.isoformat()] for a [datetime] in UTC *)
Definition isoformat (dt : datetime) : pystr :=
  zpad 4 (year dt) ++ py "-" ++ zpad 2 (month dt) ++ py "-" ++ zpad 2 (day dt)
  ++ py "T" ++ zpad 2 (hour dt) ++ py ":" ++ zpad 2 (minute dt)
  ++ py ":" ++ zpad 2 (second dt)
  ++ (if (microsecond dt =? 0)%Z then [] else py "." ++ zpad 6 (microsecond dt))
  ++ py "+00:00".

Definition instant_isoformat (n : Z) : result pystr :=
  x ← int_truediv_1000 n; dt ← fromtimestamp_utc x; Ok (isoformat dt).

(** *** [str(x)]

    What [str] makes of a value that is not a string: its [repr]. A float
    is written with the fewest digits that read back as the same double.
    Inside a list or a dict a string is quoted and its control characters
    escaped; code points above U+007E are left as they are (CPython
    escapes the unprintable ones among them, by its Unicode tables). *)

Fixpoint decimal_digits (fuel : nat) (n : Z) : pystr :=
  match fuel with
  | O => []
  | S f =>
      if (n <? 10)%Z then [Z.to_N (48 + n)]
      else decimal_digits f (n / 10) ++ [Z.to_N (48 + n mod 10)]
  end.

Definition str_int (n : Z) : pystr :=
  let a := Z.abs n in
  (if (n <? 0)%Z then py "-" else []) ++ decimal_digits (S (Z.to_nat (Z.log2 a))) a.

(** [x < 10^k], for [x = num / den] and any integer [k]. *)
Definition below_pow10 (num den k : Z) : bool :=
  if (0 <=? k)%Z then (num <? den * 10 ^ k)%Z else (num * 10 ^ (- k) <? den)%Z.

(** [floor (x / 10^k)] and whether the remainder is below, at or above
    the half, for [x = num / den]. *)
Definition scale_pow10 (num den k : Z) : Z * comparison :=
  let '(n, d) := if (0 <=? k)%Z then (num, den * 10 ^ k)%Z
                 else (num * 10 ^ (- k), den)%Z in
  ((n / d)%Z, (2 * (n mod d) ?= d)%Z).

Definition strip_zeros (s : pystr) : pystr :=
  reverse (drop_while (λ c, c =? 48)%N (reverse s)).

(** The shortest digits that read back as [x], and the position of the
    decimal point before them, trying 1 to 17 digits in turn. *)
Fixpoint shortest_digits (x : spec_float) (num den k : Z) (n : nat) (tries : nat)
  : pystr * Z :=
  let '(lo, half) := scale_pow10 num den (k - Z.of_nat n) in
  let ok D := SFeqb x (f64_of_decimal false D (k - Z.of_nat n)) in
  let out D :=
    let ds := str_int D in
    (strip_zeros ds, (k - Z.of_nat n + Z.of_nat (length ds))%Z) in
  let near := match half with Gt => (lo + 1)%Z | _ => lo end in
  let far := match half with Gt => lo | _ => (lo + 1)%Z end in
  match tries with
  | O => out near
  | S t =>
      if ok near then out near
      else if ok far then out far
      else shortest_digits x num den k (S n) t
  end.

Definition repr_float (x : spec_float) : pystr :=
  match x with
  | S754_nan => py "nan"
  | S754_infinity s => if s then py "-inf" else py "inf"
  | S754_zero s => if s then py "-0.0" else py "0.0"
  | S754_finite s m e =>
      let '(num, den) := if (0 <=? e)%Z then (Zpos m * 2 ^ e, 1)%Z
                         else (Zpos m, 2 ^ (- e))%Z in
      let t := ((Z.log2 (Zpos m) + e) * 30103 / 100000 - 1)%Z in
      let k := match filter (below_pow10 num den) [t; t + 1; t + 2; t + 3; t + 4]%Z with
               | k :: _ => k
               | [] => t
               end in
      let '(ds, dp) := shortest_digits (S754_finite false m e) num den k 1 16 in
      let body :=
        if ((dp <=? -4) || (16 <? dp))%Z then
          take 1 ds ++ (if length ds <=? 1 then [] else py "." ++ drop 1 ds)
          ++ py "e" ++ (if (dp - 1 <? 0)%Z then py "-" else py "+")
          ++ (if (Z.abs (dp - 1) <? 10)%Z then py "0" else [])
          ++ str_int (Z.abs (dp - 1))
        else if (dp <=? 0)%Z then
          py "0." ++ replicate (Z.to_nat (- dp)) 48%N ++ ds
        else if (Z.of_nat (length ds) <=? dp)%Z then
          ds ++ replicate (Z.to_nat dp - length ds) 48%N ++ py ".0"
        else take (Z.to_nat dp) ds ++ py "." ++ drop (Z.to_nat dp) ds in
      (if s then py "-" else []) ++ body
  end.

Definition hex_digit (n : N) : N := if (n <? 10)%N then (48 + n)%N else (87 + n)%N.

Definition repr_char (quote c : N) : pystr :=
  if ((c =? quote) || (c =? ch "\"))%N then [ch "\"; c]
  else if (c =? 9)%N then py "\t"
  else if (c =? 10)%N then py "\n"
  else if (c =? 13)%N then py "\r"
  else if ((c <? 32) || (c =? 127))%N
       then py "\x" ++ [hex_digit (c / 16); hex_digit (c mod 16)]
  else [c].

Definition repr_str (s : pystr) : pystr :=
  let quote :=
    if bool_decide (ch "'" ∈ s) && negb (bool_decide (34%N ∈ s)) then 34%N else ch "'" in
  [quote] ++ mjoin (repr_char quote <$> s) ++ [quote].

(** [", ".join(parts)] *)
Fixpoint join_comma (parts : list pystr) : pystr :=
  match parts with
  | [] => []
  | [p] => p
  | p :: rest => p ++ py ", " ++ join_comma rest
  end.

Fixpoint repr (v : pyval) : pystr :=
  match v with
  | PNone => py "None"
  | PBool b => if b then py "True" else py "False"
  | PInt n => str_int n
  | PFloat f => repr_float f
  | PStr s => repr_str s
  | PList l => py "[" ++ join_comma (map repr l) ++ py "]"
  | PDict items =>
      py "{" ++ join_comma (map (λ kv, repr kv.1 ++ py ": " ++ repr kv.2) items) ++ py "}"
  end.

(** [str(v)], the limit on the digits of an [int] left aside:
    [str_checked], below, applies it. *)
Definition py_str (v : pyval) : pystr :=
  match v with
  | PStr s => s
  | _ => repr v
  end.

(** [int(s)] and [float(s)] with their exception. *)
Definition int_str (s : pystr) : result Z :=
  match py_int s with
  | Some n => Ok n
  | None => Raise ValueError
  end.

Definition float_str (s : pystr) : result spec_float :=
  match py_float s with
  | Some f => Ok f
  | None => Raise ValueError
  end.

(** *** The limit on the digits of an [int]

    From CPython 3.11 on (and the security releases of 3.7 to 3.10),
    [int(s)] raises a [ValueError] when [s] has more decimal digits than
    [sys.get_int_max_str_digits()], and [str] and [repr] raise it on an
    [int] that has more, alone or inside a list or a dictionary. The
    limit is taken at its default.

    The limit matters where the exception leaves the decoder: in
    [json.loads], whose [ValueError] is not the [JSONDecodeError] that
    the entry point catches, and in [str(payload)] under the tag [uri].
    In [_parse_tagged] the handlers catch the [ValueError] of [int] and
    return the literal: there the model reads an integer of more digits
    than the limit where CPython returns the literal as it came, and
    raises in neither case. *)

Definition int_max_str_digits : Z := 4300.

(** [int(s)], the limit applied: the characters counted are the digits
    of [s]. *)
Definition int_checked (s : pystr) : result Z :=
  if (int_max_str_digits <? Z.of_nat (length (List.filter is_digit s)))%Z
  then Raise ValueError
  else int_str s.

(** No [int] of the value has more digits than the limit. *)
Fixpoint digits_within_limit (v : pyval) : bool :=
  match v with
  | PInt n => (Z.abs n <? 10 ^ int_max_str_digits)%Z
  | PList l => forallb digits_within_limit l
  | PDict items =>
      forallb (λ kv, digits_within_limit kv.1 && digits_within_limit kv.2) items
  | _ => true
  end.

(** [str(v)], the limit applied. *)
Definition str_checked (v : pyval) : result pystr :=
  if digits_within_limit v then Ok (py_str v) else Raise ValueError.

(** ** The tagged scalar parser *)

(** [_parse_tagged(s)] *)
Definition _parse_tagged (s : pystr) : result pyval :=
  match s with
  | c0 :: tag :: rest =>
      if negb (c0 =? ch "~")%N then Ok (PStr s)
      else if (tag =? ch ":")%N then Ok (PStr rest)
      else if (tag =? ch "u")%N then Ok (PStr rest)
      else if (tag =? ch "m")%N then
        try_except (n ← int_str rest; iso ← instant_isoformat n; Ok (PStr iso))
                   [ValueError; OSError] (Ok (PStr s))
      else if (tag =? ch "t")%N then Ok (PStr rest)
      else if (tag =? ch "?")%N then Ok (PBool (str_eqb rest (py "t")))
      else if (tag =? ch "i")%N then
        try_except (n ← int_str rest; Ok (PInt n)) [ValueError] (Ok (PStr s))
      else if (tag =? ch "d")%N then
        try_except (f ← float_str rest; Ok (PFloat f)) [ValueError] (Ok (PStr s))
      else if (tag =? ch "n")%N then
        try_except (n ← int_str rest; Ok (PInt n)) [ValueError] (Ok (PStr s))
      else if (tag =? ch "~")%N then Ok (PStr (py "~" ++ rest))
      else if (tag =? ch "^")%N then Ok (PStr (py "^" ++ rest))
      else Ok (PStr s)
  | _ => Ok (PStr s)
  end.

(** ** The structural walk

    Every function takes the cache and returns it with its value. The
    functions that call [_decode] back are written over the recursive
    call, [dec]; [_decode] closes the recursion. *)

(** [_decode_str(s, cache, as_key)] *)
Definition _decode_str (s : pystr) (c : _Cache) (as_key : bool)
  : result (pyval * _Cache) :=
  if is_cache_ref s then
    match resolve c s with
    | Some resolved => v ← _parse_tagged resolved; Ok (v, c)
    | None => Ok (PStr s, c)
    end
  else
    c1 ← cache c s as_key;
    if (2 <=? length s) && char_is s 0 (ch "~")
    then v ← _parse_tagged s; Ok (v, c1)
    else Ok (PStr s, c1).

(** [first == "^ "] and the like: a value against a string literal. *)
Definition is_str (v : pyval) (lit : pystr) : bool :=
  match v with
  | PStr s => str_eqb s lit
  | _ => false
  end.

Section Walk.
(** The recursive call [_decode(val, cache, as_key)]. *)
Variable dec : pyval → _Cache → bool → result (pyval * _Cache).

(** [[_decode(e, cache) for e in elems]] *)
Definition decode_each : list pyval → _Cache → result (list pyval * _Cache) :=
  fix go elems c :=
    match elems with
    | [] => Ok ([], c)
    | e :: elems' =>
        '(v, c1) ← dec e c false;
        '(vs, c2) ← go elems' c1;
        Ok (v :: vs, c2)
    end.

(** [elems = payload if isinstance(payload, list) else [payload]]
    followed by the comprehension over [elems]. *)
Definition decode_elems (payload : pyval) (c : _Cache)
  : result (pyval * _Cache) :=
  match payload with
  | PList elems => '(vs, c') ← decode_each elems c; Ok (PList vs, c')
  | _ => '(v, c') ← dec payload c false; Ok (PList [v], c')
  end.

(** The loop [while i < len(items) - 1: ...; i += 2] over [items[i:]],
    filling [out]. *)
Definition decode_pairs
  : list pyval → _Cache → list (pyval * pyval)
    → result (list (pyval * pyval) * _Cache) :=
  fix go items c out :=
    match items with
    | k :: v :: items' =>
        '(key, c1) ← dec k c true;
        '(val, c2) ← dec v c1 false;
        out' ← dict_setitem out key val;
        go items' c2 out'
    | _ => Ok (out, c)
    end.

(** The branches on [tag] shared, line for line, by [_decode_list] and
    [_decode_tagged_verbose]. *)
Definition decode_tagged (tag : pystr) (payload : pyval) (c : _Cache)
  : result (pyval * _Cache) :=
  let rest_of_branches :=
    if str_eqb tag (py "ordered-set") then decode_elems payload c
    else dec payload c false in
  if str_eqb tag (py "set") then decode_elems payload c
  else if str_eqb tag (py "list") then decode_elems payload c
  else if str_eqb tag (py "cmap") then
    match payload with
    | PList items => '(out, c') ← decode_pairs items c []; Ok (PDict out, c')
    | _ => rest_of_branches
    end
  else rest_of_branches.

(** [_decode_list(lst, cache)]: the sentinel map, then the tag header,
    literal or by reference, then the plain array. *)
Definition _decode_list (lst : list pyval) (c : _Cache)
  : result (pyval * _Cache) :=
  match lst with
  | [] => Ok (PList [], c)
  | first :: items =>
      if is_str first (py "^ ") then
        '(out, c') ← decode_pairs items c []; Ok (PDict out, c')
      else
        '(tag_str, c1) ←
          match first with
          | PStr s =>
              if startswith s (py "~#") then
                c1 ← cache c s false; Ok (Some s, c1)
              else if is_cache_ref s then
                match resolve c s with
                | Some resolved =>
                    if startswith resolved (py "~#") then Ok (Some resolved, c)
                    else Ok (None, c)
                | None => Ok (None, c)
                end
              else Ok (None, c)
          | _ => Ok (None, c)
          end;
        match tag_str, items with
        | Some t, payload :: _ => decode_tagged (drop 2 t) payload c1
        | _, _ => '(vs, c2) ← decode_each lst c1; Ok (PList vs, c2)
        end
  end.

(** [_decode_tagged_verbose(tag, payload, cache)] *)
Definition _decode_tagged_verbose (tag : pystr) (payload : pyval) (c : _Cache)
  : result (pyval * _Cache) :=
  if str_eqb tag (py "uri") then
    match payload with
    | PStr _ => Ok (payload, c)
    | _ => s ← str_checked payload; Ok (PStr s, c)
    end
  else decode_tagged tag payload c.

(** The loop [for k, v in val.items()], filling [out]. *)
Definition decode_items
  : list (pyval * pyval) → _Cache → list (pyval * pyval)
    → result (list (pyval * pyval) * _Cache) :=
  fix go items c out :=
    match items with
    | [] => Ok (out, c)
    | (k, v) :: items' =>
        '(dk, c1) ← match k with
                    | PStr s => _decode_str s c true
                    | _ => Ok (k, c)
                    end;
        '(dv, c2) ← dec v c1 false;
        out' ← dict_setitem out dk dv;
        go items' c2 out'
    end.

(** The [dict] branch of [_decode]: a single key that begins ["~#"] makes
    a verbose tagged value; any other dictionary is decoded item by
    item. *)
Definition decode_dict (items : list (pyval * pyval)) (c : _Cache)
  : result (pyval * _Cache) :=
  let general := '(out, c') ← decode_items items c []; Ok (PDict out, c') in
  match items with
  | [(PStr k, payload)] =>
      if startswith k (py "~#") then
        c1 ← cache c k false;
        _decode_tagged_verbose (drop 2 k) payload c1
      else general
  | _ => general
  end.
End Walk.

(** [_decode(val, cache, as_key)] *)
Fixpoint _decode (val : pyval) (c : _Cache) (as_key : bool) {struct val}
  : result (pyval * _Cache) :=
  match val with
  | PStr s => _decode_str s c as_key
  | PList lst => _decode_list _decode lst c
  | PDict items => decode_dict _decode items c
  | _ => Ok (val, c)
  end.

(** ** [json.loads]

    The parser of the standard library, with its defaults: the grammar of
    RFC 8259, the constants [NaN], [Infinity] and [-Infinity], strict
    strings, a later duplicate key overwriting an earlier one, and the
    [ValueError] of [int], which is no [JSONDecodeError], on an integer
    of more digits than the limit. A text is
    consumed from the front; each function returns what is left. The
    recursion is on a counter that starts above twice the length of the
    text, which no nesting can use up ([json_loads_counter] below). *)

Definition is_json_ws (c : N) : bool :=
  ((c =? 32) || (c =? 9) || (c =? 10) || (c =? 13))%N.

Definition skip_ws (s : pystr) : pystr := drop_while is_json_ws s.

Definition hex_value (c : N) : option N :=
  if is_digit c then Some (c - 48)%N
  else if ((97 <=? c) && (c <=? 102))%N then Some (c - 87)%N
  else if ((65 <=? c) && (c <=? 70))%N then Some (c - 55)%N
  else None.

(** The four hexadecimal digits of a [\uXXXX] escape and the rest. *)
Definition hex4 (s : pystr) : option (N * pystr) :=
  match s with
  | a :: b :: c :: d :: rest =>
      a ← hex_value a; b ← hex_value b; c ← hex_value c; d ← hex_value d;
      Some (((a * 16 + b) * 16 + c) * 16 + d, rest)%N
  | _ => None
  end.

Definition backslash (c : N) : option N :=
  if (c =? 34)%N then Some 34%N
  else if (c =? ch "\")%N then Some (ch "\")
  else if (c =? ch "/")%N then Some (ch "/")
  else if (c =? ch "b")%N then Some 8%N
  else if (c =? ch "f")%N then Some 12%N
  else if (c =? ch "n")%N then Some 10%N
  else if (c =? ch "r")%N then Some 13%N
  else if (c =? ch "t")%N then Some 9%N
  else None.

(** The string that starts after an opening quote; [acc] holds the
    characters read so far, last first. *)
Fixpoint scanstring (fuel : nat) (s : pystr) (acc : pystr)
  : result (pystr * pystr) :=
  match fuel, s with
  | S f, c :: r =>
      if (c =? 34)%N then Ok (reverse acc, r)
      else if (c =? ch "\")%N then
        match r with
        | e :: r' =>
            if (e =? ch "u")%N then
              match hex4 r' with
              | Some (u, r2) =>
                  let pair :=
                    if ((0xD800 <=? u) && (u <=? 0xDBFF))%N then
                      match r2 with
                      | b :: x :: r3 =>
                          if ((b =? ch "\") && (x =? ch "u"))%N then
                            match hex4 r3 with
                            | Some (u2, r4) =>
                                if ((0xDC00 <=? u2) && (u2 <=? 0xDFFF))%N
                                then Some ((0x10000 + (u - 0xD800) * 1024
                                            + (u2 - 0xDC00))%N, r4)
                                else None
                            | None => None
                            end
                          else None
                      | _ => None
                      end
                    else None in
                  match pair with
                  | Some (u', r4) => scanstring f r4 (u' :: acc)
                  | None => scanstring f r2 (u :: acc)
                  end
              | None => Raise JSONDecodeError
              end
            else
              match backslash e with
              | Some x => scanstring f r' (x :: acc)
              | None => Raise JSONDecodeError
              end
        | [] => Raise JSONDecodeError
        end
      else if (c <? 32)%N then Raise JSONDecodeError
      else scanstring f r (c :: acc)
  | _, _ => Raise JSONDecodeError
  end.

(** [NUMBER_RE]: an optional minus, then a zero or a run of digits that
    starts with no zero; a point and digits; an exponent, signed or not.
    The match is read by [int], or by [float] when it has a fraction or
    an exponent: the result is the number, or the exception of [int],
    with what follows the match. *)
Definition match_number (s : pystr) : option (result pyval * pystr) :=
  let '(neg, body) := match s with
                      | c :: r => if (c =? ch "-")%N then (true, r) else (false, s)
                      | [] => (false, s)
                      end in
  let ip := match body with
            | c :: r => if (c =? 48)%N then [c] else take_while is_digit body
            | [] => []
            end in
  if bool_decide (ip = []) then None
  else
    let r1 := drop (length ip) body in
    let fp := match r1 with
              | c :: r =>
                  if (c =? ch ".")%N && negb (bool_decide (take_while is_digit r = []))
                  then c :: take_while is_digit r else []
              | [] => []
              end in
    let r2 := drop (length fp) r1 in
    let ep := match r2 with
              | c :: r =>
                  if (lower c =? ch "e")%N then
                    let '(sg, r') :=
                      match r with
                      | x :: r' => if ((x =? ch "-") || (x =? ch "+"))%N
                                   then ([x], r') else ([], r)
                      | [] => ([], r)
                      end in
                    if bool_decide (take_while is_digit r' = []) then []
                    else c :: sg ++ take_while is_digit r'
                  else []
              | [] => []
              end in
    let rest := drop (length ep) r2 in
    let integer := (if neg then py "-" else []) ++ ip in
    if bool_decide (fp ++ ep = []) then
      Some (n ← int_checked integer; Ok (PInt n), rest)
    else
      f ← py_float (integer ++ fp ++ ep); Some (Ok (PFloat f), rest).

Fixpoint scan_once (fuel : nat) (s : pystr) {struct fuel} : result (pyval * pystr) :=
  match fuel with
  | O => Raise RecursionError
  | S f =>
      match s with
      | [] => Raise JSONDecodeError
      | c :: r =>
          if (c =? 34)%N then
            '(str, rest) ← scanstring (length r) r []; Ok (PStr str, rest)
          else if (c =? ch "{")%N then
            match skip_ws r with
            | x :: rest =>
                if (x =? ch "}")%N then Ok (PDict [], rest)
                else object_loop f (skip_ws r) []
            | [] => Raise JSONDecodeError
            end
          else if (c =? ch "[")%N then
            match skip_ws r with
            | x :: rest =>
                if (x =? ch "]")%N then Ok (PList [], rest)
                else array_loop f (skip_ws r) []
            | [] => Raise JSONDecodeError
            end
          else if startswith s (py "null") then Ok (PNone, drop 4 s)
          else if startswith s (py "true") then Ok (PBool true, drop 4 s)
          else if startswith s (py "false") then Ok (PBool false, drop 5 s)
          else
            match match_number s with
            | Some (number, rest) => v ← number; Ok (v, rest)
            | None =>
                if startswith s (py "NaN") then Ok (PFloat S754_nan, drop 3 s)
                else if startswith s (py "Infinity")
                     then Ok (PFloat (S754_infinity false), drop 8 s)
                else if startswith s (py "-Infinity")
                     then Ok (PFloat (S754_infinity true), drop 9 s)
                else Raise JSONDecodeError
            end
      end
  end
with array_loop (fuel : nat) (s : pystr) (acc : list pyval) {struct fuel}
  : result (pyval * pystr) :=
  match fuel with
  | O => Raise RecursionError
  | S f =>
      '(v, s1) ← scan_once f s;
      match skip_ws s1 with
      | x :: rest =>
          if (x =? ch "]")%N then Ok (PList (acc ++ [v]), rest)
          else if (x =? ch ",")%N then array_loop f (skip_ws rest) (acc ++ [v])
          else Raise JSONDecodeError
      | [] => Raise JSONDecodeError
      end
  end
with object_loop (fuel : nat) (s : pystr) (out : list (pyval * pyval)) {struct fuel}
  : result (pyval * pystr) :=
  match fuel with
  | O => Raise RecursionError
  | S f =>
      match s with
      | q :: r =>
          if negb (q =? 34)%N then Raise JSONDecodeError
          else
            '(key, s1) ← scanstring (length r) r [];
            match skip_ws s1 with
            | x :: r2 =>
                if negb (x =? ch ":")%N then Raise JSONDecodeError
                else
                  '(v, s3) ← scan_once f (skip_ws r2);
                  let out' := dict_store out (PStr key) v in
                  match skip_ws s3 with
                  | y :: rest =>
                      if (y =? ch "}")%N then Ok (PDict out', rest)
                      else if (y =? ch ",")%N then object_loop f (skip_ws rest) out'
                      else Raise JSONDecodeError
                  | [] => Raise JSONDecodeError
                  end
            | [] => Raise JSONDecodeError
            end
      | [] => Raise JSONDecodeError
      end
  end.

Definition json_loads (text : pystr) : result pyval :=
  if startswith text [0xFEFF%N] then Raise JSONDecodeError
  else
    '(v, rest) ← scan_once (2 * length text + 2) (skip_ws text);
    if bool_decide (skip_ws rest = []) then Ok v else Raise JSONDecodeError.

(** ** The entry point *)

(** [decode_transit(data)]: a [str] is parsed first, and comes back as it
    is when it is not JSON; every call works on a cache of its own. *)
Definition decode_transit (data : pyval) : result pyval :=
  match data with
  | PStr text =>
      match json_loads text with
      | Ok tree => '(v, _) ← _decode tree new_Cache false; Ok v
      | Raise e =>
          if issubclass e JSONDecodeError then Ok data else Raise e
      end
  | _ => '(v, _) ← _decode data new_Cache false; Ok v
  end.

(** * The readers of the decoded data

    [tools/shapes.py] and [tools/advanced.py] read what the decoder
    returns; [services/changes.py] builds the content of a text shape,
    which [tools/shapes.py] reads back and [transformers/svg.py]
    escapes. Values are trees, as [json.loads] and the decoder build
    them: no [list] or [dict] object occurs at two places of an
    argument. The recursion limit of the interpreter, which a nesting of
    about a thousand levels reaches, is not modelled, here or in the
    decoder. *)

(** ** Dictionaries, read *)

(** [d.get(key)] and [d[key]] for a [str] [key]: the value of the item
    with that key, if there is one. *)
Fixpoint dict_get (items : list (pyval * pyval)) (key : pystr) : option pyval :=
  match items with
  | [] => None
  | (k, v) :: rest => if is_str k key then Some v else dict_get rest key
  end.

(** ** [tools/shapes.py] *)

(** [_decode_shape_obj(obj)] *)
Definition _decode_shape_obj (obj : pyval) : result pyval :=
  match obj with
  | PStr _ =>
      decoded ← decode_transit obj;
      match decoded with
      | PDict _ => Ok decoded
      | PList [_; PDict items] => Ok (PDict items)
      | _ => Ok (PDict [])
      end
  | PDict _ => Ok obj
  | PList [_; PDict items] => Ok (PDict items)
  | _ => Ok (PDict [])
  end.

(** What a tool returns or raises: the exceptions of the decoder, and
    the [AttributeError] of [.get] or [.items] on an object that is no
    [dict]. *)
Inductive outcome (A : Type) :=
  | Returns (a : A)
  | Raises (e : exn)
  | RaisesAttributeError.
Arguments Returns {A} a.
Arguments Raises {A} e.
Arguments RaisesAttributeError {A}.

#[global] Instance outcome_ret : MRet outcome := fun A a => Returns a.
#[global] Instance outcome_bind : MBind outcome := fun A B f r =>
  match r with
  | Returns a => f a
  | Raises e => Raises e
  | RaisesAttributeError => RaisesAttributeError
  end.

Definition lift {A} (r : result A) : outcome A :=
  match r with
  | Ok a => Returns a
  | Raise e => Raises e
  end.

(** [obj.get(key, {})] for a [str] [key] *)
Definition get_or_empty (obj : pyval) (key : pystr) : outcome pyval :=
  match obj with
  | PDict items => Returns (default (PDict []) (dict_get items key))
  | _ => RaisesAttributeError
  end.

(** [shape.get("shapes", [])] *)
Definition get_shapes (shape : pyval) : outcome pyval :=
  match shape with
  | PDict items => Returns (default (PList []) (dict_get items (py "shapes")))
  | _ => RaisesAttributeError
  end.

(** [obj[key] = val] for a [str] [key]: the object after the
    assignment. A [list] takes no string for an index and the other
    values no item at all. *)
Definition setitem (obj : pyval) (key : pystr) (val : pyval) : result pyval :=
  match obj with
  | PDict items => Ok (PDict (dict_store items (PStr key) val))
  | _ => Raise TypeError
  end.

(** The loop [for obj_id, obj in raw_objects.items()], filling
    [decoded]. *)
Fixpoint page_objects_loop (raw decoded : list (pyval * pyval))
  : result (list (pyval * pyval)) :=
  match raw with
  | [] => Ok decoded
  | (obj_id, obj) :: rest =>
      shape ← _decode_shape_obj obj;
      shape' ← setitem shape (py "id") obj_id;
      decoded' ← dict_setitem decoded obj_id shape';
      page_objects_loop rest decoded'
  end.

(** [_get_page_objects(file_data, page_id)] *)
Definition _get_page_objects (file_data : pyval) (page_id : pystr) : outcome pyval :=
  data ← get_or_empty file_data (py "data");
  pages_index ← get_or_empty data (py "pages-index");
  page ← get_or_empty pages_index page_id;
  raw_objects ← get_or_empty page (py "objects");
  match raw_objects with
  | PDict raw => decoded ← lift (page_objects_loop raw []); Returns (PDict decoded)
  | _ => RaisesAttributeError
  end.

(** [sep.join(parts)] for a list of [str] *)
Fixpoint str_join (sep : pystr) (parts : list pystr) : pystr :=
  match parts with
  | [] => []
  | [p] => p
  | p :: rest => p ++ sep ++ str_join sep rest
  end.

(** [_extract_text_content(content)]. The loop [for child in
    content.get("children", [])] takes the elements of a list, the
    characters of a string and the keys of a dictionary, and raises
    [TypeError] on a value that cannot be iterated; [" ".join] raises
    [TypeError] on a ["text"] that is no string. *)
Fixpoint _extract_text_content (content : pyval) : result pystr :=
  match content with
  | PStr s => Ok s
  | PDict items =>
      text_parts ←
        (fix children (its : list (pyval * pyval)) : result (list pystr) :=
           match its with
           | [] => Ok []
           | (k, v) :: rest =>
               if is_str k (py "children") then
                 match v with
                 | PList l =>
                     (fix each (l : list pyval) : result (list pystr) :=
                        match l with
                        | [] => Ok []
                        | child :: l' =>
                            t ← _extract_text_content child;
                            ts ← each l'; Ok (t :: ts)
                        end) l
                 | PStr s => Ok ((λ c, [c]) <$> s)
                 | PDict kvs =>
                     (fix each (kvs : list (pyval * pyval)) : result (list pystr) :=
                        match kvs with
                        | [] => Ok []
                        | (child, _) :: kvs' =>
                            t ← _extract_text_content child;
                            ts ← each kvs'; Ok (t :: ts)
                        end) kvs
                 | _ => Raise TypeError
                 end
               else children rest
           end) items;
      match dict_get items (py "text") with
      | Some (PStr t) => Ok (str_join (py " ") (text_parts ++ [t]))
      | Some _ => Raise TypeError
      | None => Ok (str_join (py " ") text_parts)
      end
  | PList l =>
      parts ←
        (fix each (l : list pyval) : result (list pystr) :=
           match l with
           | [] => Ok []
           | c :: l' => t ← _extract_text_content c; ts ← each l'; Ok (t :: ts)
           end) l;
      Ok (str_join (py " ") parts)
  | _ => Ok []
  end.

(** [bool(v)]: what [if v] and [not v] test. *)
Definition truthy (v : pyval) : bool :=
  match v with
  | PNone => false
  | PBool b => b
  | PInt n => negb (n =? 0)%Z
  | PFloat (S754_zero _) => false
  | PFloat _ => true
  | PStr s => negb (bool_decide (s = []))
  | PList l => negb (bool_decide (l = []))
  | PDict items => negb (bool_decide (items = []))
  end.

(** [d.get(key)] for any [key]: [TypeError] for a key without a hash. *)
Definition dict_lookup (items : list (pyval * pyval)) (key : pyval)
  : result (option pyval) :=
  if hashable key
  then Ok (snd <$> List.find (λ kv, py_eq kv.1 key) items)
  else Raise TypeError.

(** What [for x in v] goes through: the elements of a list, the
    characters of a string, the keys of a dictionary; no other value can
    be iterated. *)
Definition iterate (v : pyval) : result (list pyval) :=
  match v with
  | PList l => Ok l
  | PStr s => Ok ((λ c, PStr [c]) <$> s)
  | PDict items => Ok (fst <$> items)
  | _ => Raise TypeError
  end.

(** [len(v)] *)
Definition py_len (v : pyval) : result Z :=
  match v with
  | PList l => Ok (Z.of_nat (length l))
  | PStr s => Ok (Z.of_nat (length s))
  | PDict items => Ok (Z.of_nat (length items))
  | _ => Raise TypeError
  end.

(** [_serialize_shape_brief(shape)] *)
Definition _serialize_shape_brief (shape : pyval) : outcome pyval :=
  match shape with
  | PDict items =>
      let get key := default PNone (dict_get items (py key)) in
      Returns (PDict [(PStr (py "id"), get "id"%string);
                      (PStr (py "name"), get "name"%string);
                      (PStr (py "type"), get "type"%string);
                      (PStr (py "x"), get "x"%string);
                      (PStr (py "y"), get "y"%string);
                      (PStr (py "width"), get "width"%string);
                      (PStr (py "height"), get "height"%string)])
  | _ => RaisesAttributeError
  end.

(** [[child for cid in ids if (child := build(cid)) is not None]] *)
Definition collect_children (build : pyval → outcome (option pyval))
  : list pyval → outcome (list pyval) :=
  fix each ids :=
    match ids with
    | [] => Returns []
    | cid :: ids' =>
        child ← build cid;
        rest ← each ids';
        Returns (match child with
                 | Some c => c :: rest
                 | None => rest
                 end)
    end.

(** The closure [build_tree(shape_id, current_depth)] of
    [get_shape_tree], over [objects] and [depth]. The recursion is on
    the levels left, [depth - current_depth]: a call goes down only
    while [current_depth < depth]. *)
Fixpoint build_tree (objects : list (pyval * pyval)) (levels : nat)
    (shape_id : pyval) {struct levels} : outcome (option pyval) :=
  found ← lift (dict_lookup objects shape_id);
  match found with
  | None => Returns None
  | Some shape =>
      if negb (truthy shape) then Returns None
      else
        node ← _serialize_shape_brief shape;
        children_ids ← get_shapes shape;
        if truthy children_ids then
          match levels with
          | S levels' =>
              ids ← lift (iterate children_ids);
              children ← collect_children (build_tree objects levels') ids;
              node' ← lift (setitem node (py "children") (PList children));
              Returns (Some node')
          | O =>
              count ← lift (py_len children_ids);
              node' ← lift (setitem node (py "children_count") (PInt count));
              Returns (Some node')
          end
        else Returns (Some node)
  end.

(** [get_shape_tree(file_id, page_id, root_id, depth)], from the file
    data that the API returned for [file_id]. The message of the error
    writes [root_id] by [py_str], the limit on digits left aside. *)
Definition get_shape_tree (file_data : pyval) (page_id : pystr) (root_id : pyval)
    (depth : Z) : outcome pyval :=
  objects ← _get_page_objects file_data page_id;
  let root_id :=
    if truthy root_id then root_id
    else PStr (py "00000000-0000-0000-0000-000000000000") in
  match objects with
  | PDict objs =>
      tree ← build_tree objs (Z.to_nat depth) root_id;
      match tree with
      | Some node =>
          if truthy node then Returns node
          else Returns (PDict [(PStr (py "error"),
                                PStr (py "Shape " ++ py_str root_id
                                      ++ py " not found on page " ++ page_id))])
      | None =>
          Returns (PDict [(PStr (py "error"),
                           PStr (py "Shape " ++ py_str root_id
                                 ++ py " not found on page " ++ page_id))])
      end
  | _ => RaisesAttributeError
  end.

(** ** [tools/advanced.py] *)

(** [_safe_get(obj, key)] *)
Definition _safe_get (obj : pyval) (key : pystr) : pyval :=
  match obj with
  | PDict items => default PNone (dict_get items key)
  | PList [_; PDict items] => default PNone (dict_get items key)
  | _ => PNone
  end.

(** A [bytes] object. *)
Definition bytes := list Byte.byte.

(** The [bytes] literal of ASCII characters. *)
Definition bytes_of (s : string) : bytes := list_byte_of_string s.

(** [_KNOWN_OPS], in its order. Each constant is ASCII: [bytes_of] reads
    it as the [bytes] literal, and [py] as what [op.decode("ascii")]
    gives. *)
Definition _KNOWN_OPS : list string :=
  ["add-obj"; "mod-obj"; "del-obj"; "mov-objects";
   "add-page"; "del-page"; "mod-page";
   "add-component"; "mod-component"; "del-component";
   "add-color"; "mod-color"; "del-color";
   "add-typography"; "mod-typography"; "del-typography";
   "add-media"; "mod-media"; "del-media";
   "reg-objects"; "set-option"]%string.

(** [data.startswith(sub)] *)
Fixpoint at_front (sub data : bytes) : bool :=
  match sub, data with
  | [], _ => true
  | _ :: _, [] => false
  | x :: sub', y :: data' => Byte.eqb x y && at_front sub' data'
  end.

(** The occurrences of a [sub] that is not empty, met from the left,
    none overlapping the one before it: [skip] bytes of [data] are still
    part of the last occurrence counted. *)
Fixpoint count_from (sub : bytes) (skip : nat) (data : bytes) : nat :=
  match data with
  | [] => 0
  | _ :: rest =>
      match skip with
      | S k => count_from sub k rest
      | O =>
          if at_front sub data then S (count_from sub (length sub - 1) rest)
          else count_from sub 0 rest
      end
  end.

(** [data.count(sub)] *)
Definition bytes_count (data sub : bytes) : nat :=
  match sub with
  | [] => S (length data)
  | _ => count_from sub 0 data
  end.

(** [_extract_op_types_from_fressian(data)] *)
Definition _extract_op_types_from_fressian (data : bytes) : list pystr :=
  fold_left
    (λ found op,
       let count := bytes_count data (bytes_of op) in
       if 0 <? count then found ++ replicate count (py op) else found)
    _KNOWN_OPS [].

(** ** [services/changes.py] *)

(** [build_text_content(text, font_family, ..., text_decoration)], every
    argument given. [str(letter_spacing)] is [py_str]: the limit on the
    digits of an [int], on which [str] raises, is left aside. *)
Definition build_text_content
    (text font_family font_size font_weight font_style fill_color fill_opacity
     text_align line_height letter_spacing text_decoration : pyval) : pyval :=
  PDict
    [(PStr (py "type"), PStr (py "root"));
     (PStr (py "children"),
      PList
        [PDict
           [(PStr (py "type"), PStr (py "paragraph-set"));
            (PStr (py "children"),
             PList
               [PDict
                  [(PStr (py "type"), PStr (py "paragraph"));
                   (PStr (py "children"),
                    PList
                      [PDict
                         [(PStr (py "text"), text);
                          (PStr (py "fills"),
                           PList
                             [PDict
                                [(PStr (py "fill-color"), fill_color);
                                 (PStr (py "fill-opacity"), fill_opacity)]]);
                          (PStr (py "font-size"), font_size);
                          (PStr (py "font-family"), font_family);
                          (PStr (py "font-weight"), font_weight);
                          (PStr (py "font-style"), font_style);
                          (PStr (py "text-decoration"), text_decoration);
                          (PStr (py "letter-spacing"), PStr (py_str letter_spacing));
                          (PStr (py "line-height"), line_height);
                          (PStr (py "text-align"), text_align)]])]])]])].

(** ** [transformers/svg.py] *)

(** [text.replace(old, new)] for an [old] of one character *)
Definition replace_char (text : pystr) (old : N) (new : pystr) : pystr :=
  flat_map (λ c, if (c =? old)%N then new else [c]) text.

(** [_escape_xml(text)] *)
Definition _escape_xml (text : pystr) : pystr :=
  replace_char
    (replace_char (replace_char text (ch "&") (py "&amp;")) (ch "<") (py "&lt;"))
    (ch ">") (py "&gt;").

(** * Notions used in the statements *)

(** ** Literals *)

(** A string node. *)
Definition str (s : string) : pyval := PStr (py s).
Arguments str s%_string.

(** The JSON text of a string without escapes: the string in double
    quotes. *)
Definition quoted (s : string) : pyval := PStr ([34%N] ++ py s ++ [34%N]).
Arguments quoted s%_string.

(** ** Parsing

    A step of the JSON parser consumes input: it leaves less than [n]
    characters, or fails otherwise than by the counter. *)

Definition consumes (n : nat) (r : result (pyval * pystr)) : Prop :=
  match r with
  | Ok (_, rest) => length rest < n
  | Raise e => e ≠ RecursionError
  end.

(** ** Reference codes, as the specification words them *)

(** ['^' + chr(48+index)] when [index < 44]; otherwise
    ['^' + chr(48 + index/44) + chr(48 + index%44)]. *)
Definition referenceCodeFor (index : N) : result pystr :=
  if (index <? 44)%N then
    a ← chr (48 + index)%N; Ok (py "^" ++ [a])
  else
    a ← chr (48 + index / 44)%N;
    b ← chr (48 + index mod 44)%N;
    Ok (py "^" ++ [a] ++ [b]).

(** Past this index [chr] has no character left for the high digit. *)
Definition ref_limit : N := 49018816.

(** ** Registrations and slots *)

(** The rule of the docstring: [len >= 4 and (as_key or s starts with
    "~:", "~$" or "~#")]. *)
Definition is_cacheable (s : pystr) (as_key : bool) : bool :=
  (4 <=? length s)
  && (as_key || startswith s (py "~:") || startswith s (py "~$")
      || startswith s (py "~#")).

(** The string [s] takes the next slot. *)
Definition register (c : _Cache) (s : pystr) : result _Cache :=
  ref ← _ref_for (_idx c);
  Ok {| _map := <[ref := s]> (_map c); _idx := (_idx c + 1)%N |}.

(** The strings of [log] take the next slots, one after the other. *)
Fixpoint register_all (c : _Cache) (log : list pystr) : result _Cache :=
  match log with
  | [] => Ok c
  | s :: log' => c1 ← register c s; register_all c1 log'
  end.

(** The content of slot [i], if any. *)
Definition slot (c : _Cache) (i : N) : option pystr :=
  match _ref_for i with
  | Ok ref => resolve c ref
  | Raise _ => None
  end.

(** Every key of the table is the code of an index already given out. *)
Definition cache_ok (c : _Cache) : Prop :=
  ∀ ref, is_Some (_map c !! ref) → ∃ i, (i < _idx c)%N ∧ _ref_for i = Ok ref.

(** [c'] is [c] after some registrations. *)
Definition grows (c c' : _Cache) : Prop := ∃ log, register_all c log = Ok c'.

(** The walk from [v] only registers, whatever the cache and the role. *)
Definition grows_at (dec : pyval → _Cache → bool → result (pyval * _Cache))
    (v : pyval) : Prop :=
  ∀ c k r c', dec v c k = Ok (r, c') → grows c c'.

(** The elements that the walk reaches through a payload. *)
Definition elems_of (v : pyval) : list pyval :=
  match v with
  | PList l => l
  | _ => []
  end.

(** ** The order of encounter

    The specification's order, written over the value alone, without a
    cache: the cacheable strings that a depth-first walk of the value
    comes to, each as often as it is written out, in the order in which
    the walk comes to them. [seen] lists the strings met before the walk
    enters the value, the earliest first; a walk needs them where the head
    of an array is a reference, which stands for the string met at the
    index that it is the code of. *)

(** The string of [seen] at the index of which [ref] is the code, [seen]
    starting at index [i]. *)
Fixpoint nth_met (seen : list pystr) (i : N) (ref : pystr) : option pystr :=
  match seen with
  | [] => None
  | s :: seen' =>
      match _ref_for i with
      | Ok code => if str_eqb code ref then Some s else nth_met seen' (i + 1) ref
      | Raise _ => None
      end
  end.

(** A string node in the role [as_key]: a reference is not met, any other
    string is met when it is cacheable. *)
Definition met_str (s : pystr) (as_key : bool) : list pystr :=
  if is_cache_ref s then []
  else if is_cacheable s as_key then [s] else [].

Section Encounters.
(** The strings met in a value, in the role [as_key], after [seen]. *)
Variable met : pyval → bool → list pystr → list pystr.

(** The elements of an array, from the first to the last. *)
Definition met_each : list pyval → list pystr → list pystr :=
  fix go elems seen :=
    match elems with
    | [] => []
    | e :: elems' =>
        let first := met e false seen in
        first ++ go elems' (seen ++ first)
    end.

(** Keys and values in turn, a key before its value; an element left
    without its pair is not visited. *)
Definition met_pairs : list pyval → list pystr → list pystr :=
  fix go items seen :=
    match items with
    | k :: v :: items' =>
        let of_key := met k true seen in
        let of_val := met v false (seen ++ of_key) in
        of_key ++ of_val ++ go items' (seen ++ of_key ++ of_val)
    | _ => []
    end.

(** The payload of a tagged container: the elements of a [set], a [list]
    or an [ordered-set], the pairs of a [cmap], the payload itself under
    any other tag. *)
Definition met_payload (tag : pystr) (payload : pyval) (seen : list pystr)
  : list pystr :=
  match payload with
  | PList items =>
      if bool_decide (tag ∈ [py "set"; py "list"; py "ordered-set"])
      then met_each items seen
      else if str_eqb tag (py "cmap") then met_pairs items seen
      else met payload false seen
  | _ => met payload false seen
  end.

(** The tag header that the head of an array makes, with what the head
    adds to the strings met: a literal that begins ["~#"] is a header and
    is itself met, a reference is a header when the string it stands for
    begins ["~#"]. *)
Definition met_header (first : pyval) (seen : list pystr)
  : option pystr * list pystr :=
  match first with
  | PStr s =>
      if startswith s (py "~#") then (Some s, met_str s false)
      else if is_cache_ref s then
        match nth_met seen 0 s with
        | Some t => (if startswith t (py "~#") then Some t else None, [])
        | None => (None, [])
        end
      else (None, [])
  | _ => (None, [])
  end.

(** An array: the pairs after the sentinel; or, after a tag header, the
    payload and nothing of what follows it; or every element. An array
    that is a tag header and nothing else is walked as a plain array
    after its header was met, so that a literal header is met twice. *)
Definition met_list (lst : list pyval) (seen : list pystr) : list pystr :=
  match lst with
  | [] => []
  | first :: items =>
      if is_str first (py "^ ") then met_pairs items seen
      else
        let '(tag_str, of_head) := met_header first seen in
        match tag_str, items with
        | Some t, payload :: _ =>
            of_head ++ met_payload (drop 2 t) payload (seen ++ of_head)
        | _, _ => of_head ++ met_each lst (seen ++ of_head)
        end
  end.

(** The items of an object, a key, which is a string in the role of a
    key, before its value. *)
Definition met_items : list (pyval * pyval) → list pystr → list pystr :=
  fix go items seen :=
    match items with
    | [] => []
    | (k, v) :: items' =>
        let of_key := match k with
                      | PStr s => met_str s true
                      | _ => []
                      end in
        let of_val := met v false (seen ++ of_key) in
        of_key ++ of_val ++ go items' (seen ++ of_key ++ of_val)
    end.

(** An object: when its one key begins ["~#"], the key, not in the role
    of a key, then the payload, which under the tag [uri] is not walked;
    the items of any other object. *)
Definition met_dict (items : list (pyval * pyval)) (seen : list pystr)
  : list pystr :=
  let general := met_items items seen in
  match items with
  | [(PStr k, payload)] =>
      if startswith k (py "~#") then
        let of_key := met_str k false in
        of_key ++ (if str_eqb (drop 2 k) (py "uri") then []
                   else met_payload (drop 2 k) payload (seen ++ of_key))
      else general
  | _ => general
  end.
End Encounters.

(** The strings met by the depth-first walk of [v], in order. *)
Fixpoint encounters (v : pyval) (as_key : bool) (seen : list pystr) {struct v}
  : list pystr :=
  match v with
  | PStr s => met_str s as_key
  | PList lst => met_list encounters lst seen
  | PDict items => met_dict encounters items seen
  | _ => []
  end.

(** The cache of a decode that has met the strings of [seen] so far: every
    cache of a walk is of this form, a fresh one for [seen = []]. *)
Definition cache_of (seen : list pystr) : result _Cache :=
  register_all new_Cache seen.

(** The walk from [v] registers the strings met in [v], and no other. *)
Definition meets_at (dec : pyval → _Cache → bool → result (pyval * _Cache))
    (met : pyval → bool → list pystr → list pystr) (v : pyval) : Prop :=
  ∀ seen c k r c',
    cache_of seen = Ok c → dec v c k = Ok (r, c') →
    register_all c (met v k seen) = Ok c'.

(** ** Inputs without references *)

(** No string has the shape of a reference, the sentinel apart. *)
Fixpoint ref_free (v : pyval) : bool :=
  match v with
  | PStr s => negb (is_cache_ref s) || str_eqb s (py "^ ")
  | PList l => forallb ref_free l
  | PDict items => forallb (λ kv, ref_free kv.1 && ref_free kv.2) items
  | _ => true
  end.

(** A bound on the registrations of a walk: one for a string, one more
    for a container, whose header may be registered. *)
Fixpoint room (v : pyval) : N :=
  match v with
  | PStr _ => 1
  | PList l => 1 + foldr (λ x n, room x + n) 0 l
  | PDict items => 1 + foldr (λ kv n, room kv.1 + room kv.2 + n) 0 items
  | _ => 0
  end%N.

Definition rooms (l : list pyval) : N := foldr (λ x n, room x + n)%N 0%N l.

Definition rooms_items (items : list (pyval * pyval)) : N :=
  foldr (λ kv n, room kv.1 + room kv.2 + n)%N 0%N items.

(** A computation on the cache that does the same from any two caches
    with [n] codes left: the same value, the same number of
    registrations, or the same exception. *)
Definition uniform {A} (n : N) (m : _Cache → result (A * _Cache)) : Prop :=
  ∀ c1 c2,
    cache_ok c1 → cache_ok c2 →
    (_idx c1 + n <= ref_limit)%N → (_idx c2 + n <= ref_limit)%N →
    match m c1, m c2 with
    | Ok (a1, c1'), Ok (a2, c2') =>
        a1 = a2 ∧ cache_ok c1' ∧ cache_ok c2'
        ∧ ∃ d, (d <= n)%N ∧ _idx c1' = (_idx c1 + d)%N ∧ _idx c2' = (_idx c2 + d)%N
    | Raise e1, Raise e2 => e1 = e2
    | _, _ => False
    end.

(** The walk from a [v] without references is [uniform]. *)
Definition uniform_at (dec : pyval → _Cache → bool → result (pyval * _Cache))
    (v : pyval) : Prop :=
  ref_free v = true → ∀ k, uniform (room v) (λ c, dec v c k).

(** ** What a walk raises *)

(** The exceptions that leave the walk while the cache has codes left:
    the [TypeError] of a key without a hash and the [OverflowError] of
    an instant. *)
Definition escapes (e : exn) : Prop := e = TypeError ∨ e = OverflowError.

(** An [int] of the value has more digits than the limit. *)
Definition over_limit (v : pyval) : Prop := digits_within_limit v = false.

(** A computation on the cache that registers [n] strings at most, and
    raises a [ValueError] only where the codes run out within those
    [n], or where [big] holds: [big] stands for an [int] beyond the limit
    in the document walked, on which [str] raises. *)
Definition bounded {A} (big : Prop) (n : N) (m : _Cache → result (A * _Cache))
  : Prop :=
  ∀ c,
    match m c with
    | Ok (_, c') => ∃ d, (d <= n)%N ∧ _idx c' = (_idx c + d)%N
    | Raise e =>
        escapes e ∨ (e = ValueError ∧ ((ref_limit < _idx c + n)%N ∨ big))
    end.

(** The walk from [v] is [bounded], [v] being a part of the document. *)
Definition bounded_at (big : Prop)
    (dec : pyval → _Cache → bool → result (pyval * _Cache)) (v : pyval) : Prop :=
  (over_limit v → big) → ∀ k, bounded big (room v) (λ c, dec v c k).

(** ** Documents that decode without an exception *)









(** ** Plain JSON *)

(** A string that is neither tagged nor of the shape of a reference. *)
Definition plain_str (s : pystr) : bool :=
  (length s <? 2) || negb (char_is s 0 (ch "~") || char_is s 0 (ch "^")).

(** No key of [items] equals an earlier one. *)
Fixpoint fresh_keys (items : list (pyval * pyval)) : bool :=
  match items with
  | [] => true
  | (k, _) :: rest => forallb (λ kv, negb (py_eq k kv.1)) rest && fresh_keys rest
  end.

(** A tree with no Transit in it: every string is plain, and the keys
    of a dictionary are hashable and differ from one another, as they do
    in a [dict]. *)
Fixpoint plain (v : pyval) : bool :=
  match v with
  | PStr s => plain_str s
  | PList l => forallb plain l
  | PDict items =>
      forallb (λ kv, hashable kv.1 && plain kv.1 && plain kv.2) items
      && fresh_keys items
  | _ => true
  end.

(** No string of the tree, key or value, is tagged or of the shape of a
    reference. *)
Fixpoint marker_free (v : pyval) : bool :=
  match v with
  | PStr s => plain_str s
  | PList l => forallb marker_free l
  | PDict items => forallb (λ kv, marker_free kv.1 && marker_free kv.2) items
  | _ => true
  end.

(** The keys of every dictionary of the tree are strings, no two of a
    dictionary the same. *)
Fixpoint json_keys (v : pyval) : bool :=
  match v with
  | PList l => forallb json_keys l
  | PDict items =>
      forallb (λ kv, match kv.1 with PStr _ => true | _ => false end
                     && json_keys kv.2) items
      && fresh_keys items
  | _ => true
  end.

(** A computation that yields [a] and registers [n] strings at most,
    unless the codes run out within those [n]. *)
Definition passes {A} (a : A) (n : N) (m : _Cache → result (A * _Cache)) : Prop :=
  ∀ c,
    match m c with
    | Ok (r, c') => r = a ∧ ∃ d, (d <= n)%N ∧ _idx c' = (_idx c + d)%N
    | Raise e => e = ValueError ∧ (ref_limit < _idx c + n)%N
    end.

(** ** The two writings of a map *)

(** The array form of the items of an object: the sentinel, then every
    key followed by its value. *)
Definition sentinel_form (items : list (pyval * pyval)) : pyval :=
  PList (PStr (py "^ ") :: flat_map (λ kv, [kv.1; kv.2]) items).

(** The object is a verbose tagged value: one item, whose key begins
    ["~#"]. *)
Definition verbose_tagged (items : list (pyval * pyval)) : bool :=
  match items with
  | [(PStr k, _)] => startswith k (py "~#")
  | _ => false
  end.

(** ** The size of a parsed text *)

(** A step of the JSON parser on [n] characters, [budget] being the room
    of what a loop has gathered so far: it leaves less than [n]
    characters, the tree it yields has room for no more registrations
    than the characters read, and when it fails, it fails by
    [JSONDecodeError], or by the [ValueError] of [int] on more digits
    than the limit, which takes as many characters. *)
Definition parses (budget : N) (n : nat) (r : result (pyval * pystr)) : Prop :=
  match r with
  | Ok (v, rest) =>
      length rest < n ∧ (room v + N.of_nat (length rest) <= budget + N.of_nat n)%N
  | Raise e =>
      e = JSONDecodeError
      ∨ (e = ValueError ∧ (int_max_str_digits < Z.of_nat n)%Z)
  end.

(** ** Occurrences and entities *)

(** [sub] occurs in [data]. *)
Definition occurs (sub data : bytes) : Prop :=
  ∃ before after, data = before ++ sub ++ after.

(** What [_escape_xml] writes for one character. *)
Definition xml_entity (c : N) : pystr :=
  if (c =? ch "&")%N then py "&amp;"
  else if (c =? ch "<")%N then py "&lt;"
  else if (c =? ch ">")%N then py "&gt;"
  else [c].

(** ** The levels of a shape tree *)

(** The levels of ["children"] below a node. *)
Fixpoint tree_height (node : pyval) : nat :=
  match node with
  | PDict items =>
      (fix go (its : list (pyval * pyval)) : nat :=
         match its with
         | [] => 0
         | (k, v) :: rest =>
             if is_str k (py "children") then
               match v with
               | PList kids => S (foldr (λ kid n, tree_height kid `max` n) 0 kids)
               | _ => 0
               end
             else go rest
         end) items
  | _ => 0
  end.

(** * Properties *)

(** ** The models of the built-ins, on examples *)

Example py_int_ex : py_int (py " -1_000 ") = Some (-1000)%Z ∧ py_int (py "4 2") = None.
Proof. vm_compute. done. Qed.
Example py_float_ex :
  py_float (py "3.14") = Some (S754_finite false 7070651414971679 (-51))
  ∧ py_float (py "-1e400") = Some (S754_infinity true)
  ∧ py_float (py "1e") = None ∧ py_float (py ".") = None
  ∧ py_float (py "5e-324") = Some (S754_finite false 1 (-1074))
  ∧ py_float (py "1e23") = py_float (py "9.999999999999999e22")
  ∧ py_float (py "9007199254740993") = Some (f64_of_Z 9007199254740992).
Proof. vm_compute. done. Qed.

Example instant_ex :
  instant_isoformat 0 = Ok (py "1970-01-01T00:00:00+00:00")
  ∧ instant_isoformat 1500 = Ok (py "1970-01-01T00:00:01.500000+00:00")
  ∧ instant_isoformat 1700000000000 = Ok (py "2023-11-14T22:13:20+00:00")
  ∧ instant_isoformat (-1) = Ok (py "1969-12-31T23:59:59.999000+00:00")
  ∧ instant_isoformat 951782400000 = Ok (py "2000-02-29T00:00:00+00:00")
  ∧ instant_isoformat 253402300799999 = Ok (py "9999-12-31T23:59:59.998993+00:00")
  ∧ instant_isoformat (10 ^ 18) = Raise ValueError
  ∧ instant_isoformat (10 ^ 23) = Raise OverflowError.
Proof. vm_compute. done. Qed.

Example py_str_ex :
  py_str (PFloat (f64_of_decimal false 314 (-2))) = py "3.14"
  ∧ py_str (PFloat (f64_of_Z (10 ^ 16))) = py "1e+16"
  ∧ py_str (PFloat (f64_of_Z (10 ^ 15))) = py "1000000000000000.0"
  ∧ py_str (PFloat (f64_of_decimal true 1 (-5))) = py "-1e-05"
  ∧ py_str (PFloat (f64_of_decimal false 1 (-4))) = py "0.0001"
  ∧ py_str (PFloat (f64_of_decimal false 1 23)) = py "1e+23"
  ∧ py_str (PFloat (f64_of_decimal false 5 (-324))) = py "5e-324"
  ∧ py_str (PFloat (f64_div (f64_of_Z 1) (f64_of_Z 3))) = py "0.3333333333333333"
  ∧ py_str (PFloat (f64_of_decimal false 17976931348623157 292)) = py "1.7976931348623157e+308"
  ∧ py_str (PFloat (f64_of_Z 123456789)) = py "123456789.0"
  ∧ py_str (PList [PInt (-12); PStr (py "a'b"); PNone; PDict [(PStr (py "k"), PBool true)]])
    = 91%N :: 45%N :: 49%N :: 50%N :: 44%N :: 32%N :: 34%N :: py "a'b" ++ 34%N
      :: py ", None, {'k': True}]".
Proof. vm_compute. done. Qed.

(** ** The counter of [json.loads] *)

Lemma drop_while_length (f : N → bool) (s : pystr) :
  length (drop_while f s) ≤ length s.
Proof. induction s as [| c s IH]; simpl; [done |]. destruct (f c); simpl; lia. Qed.

Lemma take_while_length (f : N → bool) (s : pystr) :
  length (take_while f s) ≤ length s.
Proof. induction s as [| c s IH]; simpl; [done |]. destruct (f c); simpl; lia. Qed.

Lemma skip_ws_length (s : pystr) : length (skip_ws s) ≤ length s.
Proof. apply drop_while_length. Qed.

Lemma skip_ws_cons (s rest : pystr) (x : N) :
  skip_ws s = x :: rest → length rest < length s.
Proof. intros H. pose proof (skip_ws_length s) as Hl. rewrite H in Hl. simpl in Hl. lia. Qed.

Lemma hex4_length (s r : pystr) (u : N) :
  hex4 s = Some (u, r) → length s = 4 + length r.
Proof.
  unfold hex4. destruct s as [| a [| b [| c [| d rest]]]]; try done.
  destruct (hex_value a), (hex_value b), (hex_value c), (hex_value d); simpl; try done.
  by intros [= _ <-].
Qed.

Lemma scanstring_consumes (fuel : nat) (s acc : pystr) :
  match scanstring fuel s acc with
  | Ok (_, rest) => length rest < length s
  | Raise e => e = JSONDecodeError
  end.
Proof.
  revert s acc. induction fuel as [| f IH]; intros s acc; simpl; [done |].
  destruct s as [| c r]; [done |].
  repeat case_match; simplify_eq; simpl; try done; try lia;
    repeat match goal with
           | H : hex4 _ = Some _ |- _ => apply hex4_length in H; simpl in H
           | H : scanstring f ?s ?a = _ |- _ =>
               let H' := fresh in pose proof (IH s a) as H'; rewrite H in H'; clear H
           end; simpl in *; try done; try lia.
Qed.

Lemma match_number_consumes (s rest : pystr) (number : result pyval) :
  match_number s = Some (number, rest) →
  length rest < length s ∧ ∀ e, number = Raise e → e = ValueError.
Proof.
  unfold match_number.
  set (nb := match s with
             | c :: r => if (c =? ch "-")%N then (true, r) else (false, s)
             | [] => (false, s)
             end).
  assert (Hbody : length nb.2 ≤ length s).
  { subst nb. destruct s as [| c r]; simpl; [done |].
    destruct (c =? ch "-")%N; simpl; lia. }
  destruct nb as [neg body]. simpl in Hbody.
  set (ip := match body with
             | c :: r => if (c =? 48)%N then [c] else take_while is_digit body
             | [] => []
             end).
  assert (Hip : length ip ≤ length body).
  { subst ip. destruct body as [| c r]; [done |].
    destruct (c =? 48)%N; [simpl; lia | apply take_while_length]. }
  case_bool_decide as Hne; [done |].
  assert (0 < length ip) by (destruct ip; [done | simpl; lia]).
  cbv zeta. intros Hm.
  case_bool_decide; [| destruct (py_float _); simpl in Hm; [| done]];
    injection Hm as <- <-;
    (split; [rewrite !length_drop; lia |]); intros e; [| done].
  unfold int_checked, int_str.
  destruct (_ <? _)%Z; [| destruct (py_int _)]; simpl; congruence.
Qed.

Lemma scan_once_consumes (fuel : nat) :
  (∀ s, 2 * length s + 1 ≤ fuel → consumes (length s) (scan_once fuel s))
  ∧ (∀ s acc, 2 * length s + 2 ≤ fuel → consumes (length s) (array_loop fuel s acc))
  ∧ (∀ s out, 2 * length s + 2 ≤ fuel → consumes (length s) (object_loop fuel s out)).
Proof.
  induction fuel as [| f (IHs & IHa & IHo)].
  { repeat split; intros; simpl in *; lia. }
  repeat split.
  - intros s Hf. simpl. destruct s as [| c r]; [done |]. simpl in Hf.
    destruct (c =? 34)%N.
    { pose proof (scanstring_consumes (length r) r []) as Hs.
      destruct (scanstring (length r) r []) as [[str rest] |]; simpl in *; [lia | by subst]. }
    destruct (c =? ch "{")%N.
    { destruct (skip_ws r) as [| x rest] eqn:Hsk; [done |].
      apply skip_ws_cons in Hsk as Hlen.
      destruct (x =? ch "}")%N; [simpl; lia |].
      specialize (IHo (x :: rest) [] ltac:(simpl; lia)).
      destruct (object_loop f (x :: rest) []) as [[? ?] |]; simpl in *; [lia | done]. }
    destruct (c =? ch "[")%N.
    { destruct (skip_ws r) as [| x rest] eqn:Hsk; [done |].
      apply skip_ws_cons in Hsk as Hlen.
      destruct (x =? ch "]")%N; [simpl; lia |].
      specialize (IHa (x :: rest) [] ltac:(simpl; lia)).
      destruct (array_loop f (x :: rest) []) as [[? ?] |]; simpl in *; [lia | done]. }
    repeat case_match; simplify_eq; simpl; try done;
      try (rewrite length_drop; simpl; lia).
    match goal with
    | H : match_number _ = Some (?number, _) |- _ =>
        apply match_number_consumes in H as [Hlen Hexn]; simpl in Hlen;
        destruct number as [v | e]; simpl; [lia | by rewrite (Hexn e eq_refl)]
    end.
  - intros s acc Hf. simpl.
    specialize (IHs s ltac:(lia)).
    destruct (scan_once f s) as [[v s1] |]; simpl in *; [| done].
    destruct (skip_ws s1) as [| x rest] eqn:Hsk; [done |].
    apply skip_ws_cons in Hsk as Hlen.
    destruct (x =? ch "]")%N; [simpl; lia |].
    destruct (x =? ch ",")%N; [| done].
    pose proof (skip_ws_length rest) as Hl.
    specialize (IHa (skip_ws rest) (acc ++ [v]) ltac:(lia)).
    destruct (array_loop f (skip_ws rest) (acc ++ [v])) as [[? ?] |]; simpl in *; [lia | done].
  - intros s out Hf. simpl. destruct s as [| q r]; [done |]. simpl in Hf.
    destruct (q =? 34)%N; simpl; [| done].
    pose proof (scanstring_consumes (length r) r []) as Hs.
    destruct (scanstring (length r) r []) as [[key s1] |]; simpl in *; [| by subst].
    destruct (skip_ws s1) as [| x r2] eqn:Hsk; [done |].
    apply skip_ws_cons in Hsk as Hlen.
    destruct (x =? ch ":")%N; simpl; [| done].
    pose proof (skip_ws_length r2) as Hl2.
    specialize (IHs (skip_ws r2) ltac:(lia)).
    destruct (scan_once f (skip_ws r2)) as [[v s3] |]; simpl in *; [| done].
    destruct (skip_ws s3) as [| y rest] eqn:Hsk3; [done |].
    apply skip_ws_cons in Hsk3 as Hlen3.
    destruct (y =? ch "}")%N; [simpl; lia |].
    destruct (y =? ch ",")%N; [| done].
    pose proof (skip_ws_length rest) as Hl.
    specialize (IHo (skip_ws rest) (dict_store out (PStr key) v) ltac:(lia)).
    destruct (object_loop f (skip_ws rest) _) as [[? ?] |]; simpl in *; [lia | done].
Qed.

(** [json_loads] never uses its counter up. *)
Lemma json_loads_counter (text : pystr) : json_loads text ≠ Raise RecursionError.
Proof.
  unfold json_loads. destruct (startswith text [0xFEFF%N]); [done |].
  pose proof (skip_ws_length text) as Hl.
  destruct (scan_once_consumes (2 * length text + 2)) as (Hs & _ & _).
  specialize (Hs (skip_ws text) ltac:(lia)).
  destruct (scan_once _ _) as [[v rest] |]; simpl in *; [| congruence].
  by case_bool_decide.
Qed.

(** ** Induction on values *)

(** The induction principle that reaches through the lists. *)
Lemma pyval_nested_ind (P : pyval → Prop) :
  P PNone →
  (∀ b, P (PBool b)) →
  (∀ n, P (PInt n)) →
  (∀ f, P (PFloat f)) →
  (∀ s, P (PStr s)) →
  (∀ l, Forall P l → P (PList l)) →
  (∀ items, Forall (λ kv, P kv.1 ∧ P kv.2) items → P (PDict items)) →
  ∀ v, P v.
Proof.
  intros HN HB HI HF HS HL HD.
  fix IH 1. intros [| b | n | f | s | l | items].
  - exact HN.
  - apply HB.
  - apply HI.
  - apply HF.
  - apply HS.
  - apply HL. induction l as [| x l IHl]; constructor; [apply IH | exact IHl].
  - apply HD. induction items as [| [k v] items IHl]; constructor;
      [split; apply IH | exact IHl].
Qed.

(** ** The result monad *)

Lemma bind_Ok {A B} (r : result A) (f : A → result B) (b : B) :
  r ≫= f = Ok b → ∃ a, r = Ok a ∧ f a = Ok b.
Proof. destruct r as [a | e]; [eauto | discriminate]. Qed.

Lemma bind_ret_l {A B} (a : A) (f : A → result B) : Ok a ≫= f = f a.
Proof. reflexivity. Qed.

Lemma fmap_Ok {A B} (f : A → B) (r : result A) (b : B) :
  f <$> r = Ok b → ∃ a, r = Ok a ∧ b = f a.
Proof. destruct r as [a | e]; simpl; [| discriminate]. intros [= <-]. eauto. Qed.

(** Replaces the character and string literals by their code points. *)
Ltac norm_lit :=
  repeat match goal with
         | |- context [ch ?a] =>
             let v := eval vm_compute in (ch a) in change (ch a) with v
         | |- context [py ?a] =>
             let v := eval vm_compute in (py a) in change (py a) with v
         | H : context [ch ?a] |- _ =>
             let v := eval vm_compute in (ch a) in change (ch a) with v in H
         | H : context [py ?a] |- _ =>
             let v := eval vm_compute in (py a) in change (py a) with v in H
         end.

(** Splits an equation [... = Ok _] along the binds of its left side. *)
Ltac inv_bind H :=
  let a := fresh "a" in
  let H1 := fresh H in
  apply bind_Ok in H as (a & H1 & H);
  lazymatch type of a with
  | prod _ _ => destruct a
  | _ => idtac
  end.

(** ** Reference codes *)

Lemma _ref_for_value (idx : N) :
  _ref_for idx =
    if (idx <? 44)%N then Ok [ch "^"; (48 + idx)%N]
    else if (idx <? ref_limit)%N
         then Ok [ch "^"; (48 + idx / 44)%N; (48 + idx mod 44)%N]
         else Raise ValueError.
Proof.
  unfold _ref_for, chr, _CACHE_BASE, _CACHE_BASE_CHAR, ref_limit.
  destruct (N.ltb_spec idx 44) as [Hlt | Hge].
  - destruct (N.ltb_spec (48 + idx) 0x110000); [done | lia].
  - assert (idx mod 44 < 44)%N by (apply N.mod_upper_bound; lia).
    destruct (N.ltb_spec idx 49018816) as [Hin | Hout].
    + assert (idx / 44 < 1114064)%N by (apply N.Div0.div_lt_upper_bound; lia).
      destruct (N.ltb_spec (48 + idx / 44) 0x110000); [| lia].
      destruct (N.ltb_spec (48 + idx mod 44) 0x110000); [done | lia].
    + assert (1114064 <= idx / 44)%N by (apply N.div_le_lower_bound; lia).
      destruct (N.ltb_spec (48 + idx / 44) 0x110000); [lia | done].
Qed.

Lemma _ref_for_Ok (idx : N) :
  (idx < ref_limit)%N → ∃ ref, _ref_for idx = Ok ref.
Proof.
  intros Hlt. rewrite _ref_for_value.
  destruct (N.ltb_spec idx 44); [eauto |].
  destruct (N.ltb_spec idx ref_limit); [eauto | lia].
Qed.

Lemma _ref_for_Ok_inv (idx : N) (ref : pystr) :
  _ref_for idx = Ok ref → (idx < ref_limit)%N.
Proof.
  rewrite _ref_for_value.
  destruct (N.ltb_spec idx 44); [intros _; unfold ref_limit; lia |].
  destruct (N.ltb_spec idx ref_limit); [done | discriminate].
Qed.

(** Two indices never share a code. *)
Lemma _ref_for_inj (i j : N) (ref : pystr) :
  _ref_for i = Ok ref → _ref_for j = Ok ref → i = j.
Proof.
  rewrite !_ref_for_value.
  destruct (N.ltb_spec i 44), (N.ltb_spec j 44);
    repeat match goal with
           | |- context [(?x <? ref_limit)%N] => destruct (N.ltb_spec x ref_limit)
           end; try discriminate.
  - intros [= <-] [= E]. lia.
  - intros [= <-] [=].
  - intros [= <-] [=].
  - intros [= <-] [= E1 E2].
    rewrite (N.div_mod i 44), (N.div_mod j 44) by lia. lia.
Qed.

(** A code is a caret and one or two characters from ['0'] on. *)
Lemma _ref_for_shape (i : N) (ref : pystr) :
  _ref_for i = Ok ref →
  ∃ c rest, ref = ch "^" :: c :: rest ∧ (48 <= c)%N.
Proof.
  rewrite _ref_for_value.
  destruct (N.ltb_spec i 44); [intros [= <-]; eexists _, _; split; [done | lia] |].
  destruct (N.ltb_spec i ref_limit); [| discriminate].
  intros [= <-]. eexists _, _; split; [done | apply N.le_add_r].
Qed.

(** C6: for every index the code computed by [_ref_for] is the one the
    specification gives, a caret and [chr(48+index)] below 44, a caret and
    the two base-44 digits from 44 on (the call raises where [chr] has no
    character for the high digit, from index 49018816); index 0 gives
    ["^0"], index 43 the 44th one-character code ["^["], index 44 the
    first two-character code ["^10"]. *)
Theorem ref_for_matches_spec :
  (∀ idx, _ref_for idx = referenceCodeFor idx)
  ∧ (∀ idx, _ref_for idx =
            if (idx <? 44)%N then Ok [ch "^"; (48 + idx)%N]
            else if (idx <? 49018816)%N
                 then Ok [ch "^"; (48 + idx / 44)%N; (48 + idx mod 44)%N]
                 else Raise ValueError)
  ∧ _ref_for 0 = Ok (py "^0")
  ∧ _ref_for 43 = Ok (py "^[")
  ∧ _ref_for 44 = Ok (py "^10").
Proof.
  split; [| split; [exact _ref_for_value | by vm_compute]].
  intros idx. unfold _ref_for, referenceCodeFor, _CACHE_BASE, _CACHE_BASE_CHAR.
  destruct (idx <? 44)%N; [by destruct (chr _) |].
  destruct (chr (48 + idx / 44)); [| done]. by destruct (chr _).
Qed.

(** ** Registration

    [cache.cache] either leaves the cache alone or gives the string the
    slot of the current index. *)

Lemma cache_rule (c : _Cache) (s : pystr) (as_key : bool) :
  cache c s as_key = if is_cacheable s as_key then register c s else Ok c.
Proof.
  unfold cache, is_cacheable, register.
  destruct (Nat.ltb_spec (length s) 4) as [Hlt | Hge].
  { destruct (Nat.leb_spec 4 (length s)); [lia | done]. }
  destruct (Nat.leb_spec 4 (length s)); [| lia].
  destruct s as [| c0 [| c1 s]]; simpl in *; [lia | lia |].
  destruct as_key; simpl; [done |].
  unfold char_is, _ALWAYS_CACHEABLE_TAGS, startswith. norm_lit. simpl.
  destruct (N.eqb_spec c0 126) as [-> | Hne]; simpl; [| done].
  destruct (N.eqb_spec c1 58) as [-> | H1]; [done |].
  destruct (N.eqb_spec c1 36) as [-> | H2]; [done |].
  destruct (N.eqb_spec c1 35) as [-> | H3]; [done |].
  rewrite bool_decide_eq_false_2; [done |].
  rewrite !elem_of_cons, elem_of_nil. tauto.
Qed.

Lemma cache_short (c : _Cache) (s : pystr) (as_key : bool) :
  length s < 4 → cache c s as_key = Ok c.
Proof.
  intros Hlt. unfold cache. destruct (Nat.ltb_spec (length s) 4); [done | lia].
Qed.

Lemma register_all_app (c : _Cache) (l1 l2 : list pystr) :
  register_all c (l1 ++ l2) = register_all c l1 ≫= λ c1, register_all c1 l2.
Proof.
  revert c. induction l1 as [| s l1 IH]; intros c; simpl; [done |].
  destruct (register c s) as [c1 | e]; simpl; [apply IH | done].
Qed.

Lemma grows_refl (c : _Cache) : grows c c.
Proof. by exists []. Qed.

Lemma grows_trans (c1 c2 c3 : _Cache) : grows c1 c2 → grows c2 c3 → grows c1 c3.
Proof.
  intros [l1 H1] [l2 H2]. exists (l1 ++ l2).
  rewrite register_all_app, H1. exact H2.
Qed.

Lemma register_grows (c c' : _Cache) (s : pystr) : register c s = Ok c' → grows c c'.
Proof. intros H. exists [s]. simpl. by rewrite H. Qed.

Lemma cache_grows (c c' : _Cache) (s : pystr) (as_key : bool) :
  cache c s as_key = Ok c' → grows c c'.
Proof.
  rewrite cache_rule. destruct (is_cacheable s as_key).
  - apply register_grows.
  - intros [= <-]. apply grows_refl.
Qed.

Create HintDb walk.
#[local] Hint Resolve grows_refl cache_grows register_grows : walk.

(** What one registration does to the slots. *)
Lemma register_slots (c c' : _Cache) (s : pystr) :
  register c s = Ok c' →
  _idx c' = (_idx c + 1)%N
  ∧ slot c' (_idx c) = Some s
  ∧ (∀ i, i ≠ _idx c → slot c' i = slot c i)
  ∧ (cache_ok c → cache_ok c').
Proof.
  unfold register. intros H. inv_bind H. injection H as <-. simpl.
  split; [done |]. split; [| split].
  - unfold slot, resolve. rewrite H0. simpl. apply lookup_insert_eq.
  - intros i Hi. unfold slot, resolve. simpl.
    destruct (_ref_for i) as [ref |] eqn:Hr; [| done].
    apply lookup_insert_ne. intros ->. apply Hi. eapply _ref_for_inj; eauto.
  - intros Hok ref. simpl. rewrite lookup_insert_is_Some.
    intros [<- | [_ Hs]].
    + exists (_idx c). split; [lia | done].
    + destruct (Hok ref Hs) as (i & Hi & Hr). exists i. split; [lia | done].
Qed.

(** What a run of registrations does: the strings take the next indices
    in order, and the slots given out before keep their content. *)
Lemma register_all_slots (log : list pystr) (c c' : _Cache) :
  register_all c log = Ok c' →
  _idx c' = (_idx c + N.of_nat (length log))%N
  ∧ (∀ j s, log !! j = Some s → slot c' (_idx c + N.of_nat j) = Some s)
  ∧ (∀ i, (i < _idx c)%N → slot c' i = slot c i)
  ∧ (cache_ok c → cache_ok c').
Proof.
  revert c. induction log as [| s log IH]; intros c; simpl.
  - intros [= <-]. split; [lia |]. split; [| done]. intros j s Hj. done.
  - intros H. inv_bind H.
    destruct (register_slots _ _ _ H0) as (Hi & Hs & Hother & Hok).
    destruct (IH _ H) as (Hi' & Hs' & Hother' & Hok').
    split; [lia |]. split; [| split].
    + intros [| j] t Hj; simpl in Hj.
      * injection Hj as <-. rewrite N.add_0_r, Hother' by lia. exact Hs.
      * replace (_idx c + N.of_nat (S j))%N with (_idx a + N.of_nat j)%N by lia.
        by apply Hs'.
    + intros i Hlt. rewrite Hother' by lia. apply Hother. lia.
    + auto.
Qed.

Lemma cache_ok_new : cache_ok new_Cache.
Proof. intros ref [s Hs]. simpl in Hs. by rewrite lookup_empty in Hs. Qed.

(** No code is the sentinel ["^ "]: a table that is [cache_ok] cannot
    resolve it. *)
Lemma resolve_sentinel (c : _Cache) : cache_ok c → resolve c (py "^ ") = None.
Proof.
  intros Hok. unfold resolve.
  destruct (_map c !! py "^ ") as [s |] eqn:E; [| done].
  destruct (Hok (py "^ ")) as (i & _ & Hr); [by rewrite E |].
  apply _ref_for_shape in Hr as (x & rest & [= <- _] & Hx).
  vm_compute in Hx. by destruct Hx.
Qed.

(** ** Induction along the walk

    The walk reaches the elements of a list and, for a tagged container,
    the elements of its payload: the induction hypothesis is given for
    both. *)

Lemma pyval_walk_ind (P : pyval → Prop) :
  P PNone →
  (∀ b, P (PBool b)) →
  (∀ n, P (PInt n)) →
  (∀ f, P (PFloat f)) →
  (∀ s, P (PStr s)) →
  (∀ l, Forall (λ v, P v ∧ Forall P (elems_of v)) l → P (PList l)) →
  (∀ items, Forall (λ kv, P kv.2 ∧ Forall P (elems_of kv.2)) items →
            P (PDict items)) →
  ∀ v, P v.
Proof.
  intros HN HB HI HF HS HL HD v.
  cut (P v ∧ Forall P (elems_of v)); [tauto |].
  induction v as [| | | | | l IH | items IH] using pyval_nested_ind;
    try (split; [by auto | by constructor]).
  - split; [by apply HL |]. simpl. eapply Forall_impl; [exact IH |].
    by intros ? [? ?].
  - split; [| by constructor]. apply HD.
    eapply Forall_impl; [exact IH |]. by intros ? [_ ?].
Qed.

(** ** The walk only registers *)

Lemma _decode_str_grows (s : pystr) (c c' : _Cache) (k : bool) (r : pyval) :
  _decode_str s c k = Ok (r, c') → grows c c'.
Proof.
  unfold _decode_str. destruct (is_cache_ref s).
  - destruct (resolve c s); intros H.
    + inv_bind H. injection H as _ <-. apply grows_refl.
    + injection H as _ <-. apply grows_refl.
  - intros H. inv_bind H.
    destruct (_ && _); [inv_bind H |]; injection H as _ <-; eauto with walk.
Qed.

Section WalkGrows.
Variable dec : pyval → _Cache → bool → result (pyval * _Cache).

Lemma decode_each_grows (elems : list pyval) :
  Forall (grows_at dec) elems →
  ∀ c vs c', decode_each dec elems c = Ok (vs, c') → grows c c'.
Proof.
  induction 1 as [| e elems He _ IH]; intros c vs c' H; simpl in H.
  - injection H as _ <-. apply grows_refl.
  - inv_bind H. inv_bind H. injection H as _ <-.
    eapply grows_trans; [eapply He | eapply IH]; eauto.
Qed.

Lemma decode_elems_grows (payload : pyval) :
  grows_at dec payload → Forall (grows_at dec) (elems_of payload) →
  ∀ c r c', decode_elems dec payload c = Ok (r, c') → grows c c'.
Proof.
  intros Hp He c r c' H. unfold decode_elems in H.
  destruct payload; inv_bind H; injection H as _ <-;
    try (by eapply Hp); by eapply decode_each_grows.
Qed.

Lemma decode_pairs_grows (items : list pyval) :
  Forall (grows_at dec) items →
  ∀ c out out' c', decode_pairs dec items c out = Ok (out', c') → grows c c'.
Proof.
  induction items as [items IH] using (induction_ltof1 _ length).
  intros Hall c out out' c' H.
  destruct items as [| k [| v items]]; simpl in H;
    try (injection H as _ <-; apply grows_refl).
  inversion Hall as [| ? ? Hk Hall']; subst.
  inversion Hall' as [| ? ? Hv Hall'']; subst.
  inv_bind H. inv_bind H. inv_bind H.
  eapply grows_trans; [by eapply Hk |].
  eapply grows_trans; [by eapply Hv |].
  eapply IH; [| done | done]. unfold ltof. simpl. lia.
Qed.

Lemma decode_tagged_grows (tag : pystr) (payload : pyval) :
  grows_at dec payload → Forall (grows_at dec) (elems_of payload) →
  ∀ c r c', decode_tagged dec tag payload c = Ok (r, c') → grows c c'.
Proof.
  intros Hp He c r c' H. unfold decode_tagged in H.
  assert (Hrest : (if str_eqb tag (py "ordered-set")
                   then decode_elems dec payload c else dec payload c false)
                  = Ok (r, c') → grows c c').
  { destruct (str_eqb tag (py "ordered-set")); intros Hr;
      [by eapply decode_elems_grows | by eapply Hp]. }
  cbv zeta in H.
  destruct (str_eqb tag (py "set")); [by eapply decode_elems_grows |].
  destruct (str_eqb tag (py "list")); [by eapply decode_elems_grows |].
  destruct (str_eqb tag (py "cmap")); [| by apply Hrest].
  destruct payload; try (by apply Hrest).
  inv_bind H. injection H as _ <-. by eapply decode_pairs_grows.
Qed.

Lemma _decode_list_grows (lst : list pyval) :
  Forall (λ v, grows_at dec v ∧ Forall (grows_at dec) (elems_of v)) lst →
  ∀ c r c', _decode_list dec lst c = Ok (r, c') → grows c c'.
Proof.
  intros Hall c r c' H.
  assert (Hflat : Forall (grows_at dec) lst) by (eapply Forall_impl; [done | by intros ? [? ?]]).
  destruct lst as [| first items]; simpl in H.
  { injection H as _ <-. apply grows_refl. }
  destruct (is_str first (py "^ ")).
  { inv_bind H. injection H as _ <-.
    eapply decode_pairs_grows; [| done]. by inversion Hflat. }
  inv_bind H.
  assert (Hc : grows c _c).
  { destruct first; try (injection H0 as _ <-; apply grows_refl).
    destruct (startswith s (py "~#")).
    - inv_bind H0. injection H0 as _ <-. eauto with walk.
    - destruct (is_cache_ref s); [| injection H0 as _ <-; apply grows_refl].
      destruct (resolve c s) as [resolved |];
        [destruct (startswith resolved (py "~#")) |];
        injection H0 as _ <-; apply grows_refl. }
  eapply grows_trans; [exact Hc |].
  assert (Hplain : ∀ vs c2, decode_each dec (first :: items) _c = Ok (vs, c2) →
                            grows _c c2) by (intros; by eapply decode_each_grows).
  destruct o as [t |]; [destruct items as [| payload items] |].
  - inv_bind H. injection H as _ <-. eauto.
  - inversion Hall as [| ? ? _ Hall']; subst.
    inversion Hall' as [| ? ? [Hp He] _]; subst.
    by eapply decode_tagged_grows.
  - inv_bind H. injection H as _ <-. eauto.
Qed.

Lemma _decode_tagged_verbose_grows (tag : pystr) (payload : pyval) :
  grows_at dec payload → Forall (grows_at dec) (elems_of payload) →
  ∀ c r c', _decode_tagged_verbose dec tag payload c = Ok (r, c') → grows c c'.
Proof.
  intros Hp He c r c' H. unfold _decode_tagged_verbose in H.
  destruct (str_eqb tag (py "uri")); [| by eapply decode_tagged_grows].
  destruct payload; try inv_bind H; injection H as _ <-; apply grows_refl.
Qed.

Lemma decode_items_grows (items : list (pyval * pyval)) :
  Forall (λ kv, grows_at dec kv.2) items →
  ∀ c out out' c', decode_items dec items c out = Ok (out', c') → grows c c'.
Proof.
  induction 1 as [| [k v] items Hv _ IH]; intros c out out' c' H; simpl in H.
  - injection H as _ <-. apply grows_refl.
  - inv_bind H. inv_bind H. inv_bind H.
    eapply grows_trans; [| eapply grows_trans; [by eapply Hv | by eapply IH]].
    destruct k; try (injection H0 as _ <-; apply grows_refl).
    by eapply _decode_str_grows.
Qed.

Lemma decode_dict_grows (items : list (pyval * pyval)) :
  Forall (λ kv, grows_at dec kv.2 ∧ Forall (grows_at dec) (elems_of kv.2)) items →
  ∀ c r c', decode_dict dec items c = Ok (r, c') → grows c c'.
Proof.
  intros Hall c r c' H. unfold decode_dict in H.
  assert (Hgen : (decode_items dec items c [] ≫= λ '(out, c'), Ok (PDict out, c'))
                 = Ok (r, c') → grows c c').
  { intros Hg. inv_bind Hg. injection Hg as _ <-.
    eapply decode_items_grows; [| done].
    eapply Forall_impl; [done | by intros ? [? ?]]. }
  destruct items as [| [k payload] [| ? ?]]; try (by apply Hgen);
    destruct k; try (by apply Hgen).
  destruct (startswith s (py "~#")); [| by apply Hgen].
  inv_bind H. inversion Hall as [| ? ? [Hp He] _]; subst.
  eapply grows_trans; [by eapply cache_grows |].
  by eapply _decode_tagged_verbose_grows.
Qed.
End WalkGrows.

Lemma _decode_grows (v : pyval) : grows_at _decode v.
Proof.
  induction v as [| | | | s | l IH | items IH] using pyval_walk_ind;
    intros c k r c' H; simpl in H;
    try (injection H as _ <-; apply grows_refl).
  - by eapply _decode_str_grows.
  - by eapply _decode_list_grows.
  - by eapply decode_dict_grows.
Qed.

(** ** Concrete decodings *)

(** C1 does not hold of the code: the entry point raises on a map whose
    key is an array or an object, given as a tree or as text, and on an
    instant too large for [time_t]. The [TypeError] of [out[key] = val]
    is caught nowhere, and the handler of the instant names
    [ValueError] and [OSError] but not the [OverflowError] of
    [fromtimestamp]. *)
Theorem decode_transit_raises :
  decode_transit (PList [str "^ "; PList [PInt 1]; PInt 2]) = Raise TypeError
  ∧ decode_transit (PList [str "~#cmap"; PList [PList [PInt 1]; PInt 2]])
    = Raise TypeError
  ∧ decode_transit (PDict [(str "~#cmap", PList [PDict []; PInt 2])]) = Raise TypeError
  ∧ json_loads (py "[[1], 2]") = Ok (PList [PList [PInt 1]; PInt 2])
  ∧ decode_transit (PStr (py "[" ++ [34; 94; 32; 34]%N ++ py ", [1], 2]"))
    = Raise TypeError
  ∧ decode_transit (quoted "~m100000000000000000000000") = Raise OverflowError
  ∧ decode_transit (PList [str "~m100000000000000000000000"]) = Raise OverflowError.
Proof. by vm_compute. Qed.

(** C2, as the code has it: decoding [["~#set", ["~:aaaa", "~:aaaa"]]]
    yields [["aaaa", "aaaa"]]; in that decode the tag ["~#set"] is the
    first cacheable string and takes ["^0"], the two keywords take ["^1"]
    and ["^2"]; so [["~#set", ["~:aaaa", "^1"]]] yields
    [["aaaa", "aaaa"]], and ["^0"] in that place yields the tag. *)
Theorem set_of_keywords_cache :
  decode_transit (PList [str "~#set"; PList [str "~:aaaa"; str "~:aaaa"]])
  = Ok (PList [str "aaaa"; str "aaaa"])
  ∧ (∃ c, _decode (PList [str "~#set"; PList [str "~:aaaa"; str "~:aaaa"]]) new_Cache false
          = Ok (PList [str "aaaa"; str "aaaa"], c)
          ∧ _idx c = 3%N
          ∧ resolve c (py "^0") = Some (py "~#set")
          ∧ resolve c (py "^1") = Some (py "~:aaaa")
          ∧ resolve c (py "^2") = Some (py "~:aaaa"))
  ∧ decode_transit (PList [str "~#set"; PList [str "~:aaaa"; str "^1"]])
    = Ok (PList [str "aaaa"; str "aaaa"])
  ∧ decode_transit (PList [str "~#set"; PList [str "~:aaaa"; str "^0"]])
    = Ok (PList [str "aaaa"; str "~#set"]).
Proof.
  split; [by vm_compute |]. split; [| by vm_compute].
  eexists. split; [by vm_compute |]. by vm_compute.
Qed.

(** C2, as stated, fails: with ["^0"] in place of the second keyword the
    decode does not yield [["aaaa", "aaaa"]]. *)
Lemma set_of_keywords_ref0 :
  decode_transit (PList [str "~#set"; PList [str "~:aaaa"; str "^0"]])
  ≠ Ok (PList [str "aaaa"; str "aaaa"]).
Proof. by vm_compute. Qed.

(** C7, as the code has it: a [str] argument is JSON text, so the tagged
    scalars are given in their double quotes; then the keyword gives its
    name, ["~?t"] and ["~?f"] the booleans, ["~i42"] the integer 42 and
    ["~d3.14"] the double that the JSON number [3.14] is. *)
Theorem scalar_round_trips :
  decode_transit (quoted "~:foo") = Ok (str "foo")
  ∧ decode_transit (quoted "~?t") = Ok (PBool true)
  ∧ decode_transit (quoted "~?f") = Ok (PBool false)
  ∧ decode_transit (quoted "~i42") = Ok (PInt 42)
  ∧ decode_transit (quoted "~d3.14") = json_loads (py "3.14")
  ∧ json_loads (py "3.14") = Ok (PFloat (S754_finite false 7070651414971679 (-51))).
Proof. by vm_compute. Qed.

(** C7, as stated, fails: the entry point takes the string [~:foo] for
    JSON text, which it is not, and returns it as it came. *)
Lemma bare_scalar_unchanged :
  decode_transit (str "~:foo") = Ok (str "~:foo")
  ∧ decode_transit (str "~:foo") ≠ Ok (str "foo")
  ∧ decode_transit (str "~?t") ≠ Ok (PBool true)
  ∧ decode_transit (str "~i42") ≠ Ok (PInt 42).
Proof. by vm_compute. Qed.

(** ** The order of the slots *)

Lemma slot_beyond (c : _Cache) (i : N) :
  cache_ok c → (_idx c <= i)%N → slot c i = None.
Proof.
  intros Hok Hle. unfold slot, resolve.
  destruct (_ref_for i) as [ref |] eqn:Hr; [| done].
  destruct (_map c !! ref) as [s |] eqn:E; [| done].
  destruct (Hok ref) as (j & Hj & Hr'); [by rewrite E |].
  assert (j = i) by (eapply _ref_for_inj; eauto). lia.
Qed.

(** A cache made of [seen] and then of [log] is made of the two. *)
Lemma cache_of_app (seen log : list pystr) (c c' : _Cache) :
  cache_of seen = Ok c → register_all c log = Ok c' → cache_of (seen ++ log) = Ok c'.
Proof.
  unfold cache_of. intros Hc Hlog. by rewrite register_all_app, Hc.
Qed.

(** The slots of a cache are the strings it is made of, by position. *)
Lemma cache_of_slots (seen : list pystr) (c : _Cache) :
  cache_of seen = Ok c →
  cache_ok c
  ∧ _idx c = N.of_nat (length seen)
  ∧ ∀ j s, seen !! j = Some s ↔ slot c (N.of_nat j) = Some s.
Proof.
  intros Hc. destruct (register_all_slots seen new_Cache c Hc) as (Hi & Hs & _ & Hok).
  simpl in Hi, Hs. rewrite N.add_0_l in Hi. specialize (Hok cache_ok_new).
  assert (Hs' : ∀ j s, seen !! j = Some s → slot c (N.of_nat j) = Some s).
  { intros j s Hj. rewrite <- (N.add_0_l (N.of_nat j)). by apply Hs. }
  clear Hs. rename Hs' into Hs.
  split; [done |]. split; [done |].
  intros j s. split; [apply Hs |].
  intros Hslot. destruct (seen !! j) as [t |] eqn:Hj.
  - apply Hs in Hj. congruence.
  - apply lookup_ge_None in Hj. rewrite slot_beyond in Hslot; [done | done | lia].
Qed.

(** A reference resolves to the string met at the index it is the code
    of. *)
Lemma nth_met_from (c : _Cache) (ref : pystr) (seen : list pystr) (i : N) :
  cache_ok c →
  _idx c = (i + N.of_nat (length seen))%N →
  (∀ j s, seen !! j = Some s → slot c (i + N.of_nat j) = Some s) →
  (∀ j, (j < i)%N → _ref_for j ≠ Ok ref) →
  nth_met seen i ref = resolve c ref.
Proof.
  intros Hok. revert i. induction seen as [| s seen IH]; intros i Hi Hs Hbelow; simpl.
  - unfold resolve. destruct (_map c !! ref) as [t |] eqn:E; [| done].
    destruct (Hok ref) as (j & Hj & Hr); [by rewrite E |].
    destruct (Hbelow j); [simpl in Hi; lia | done].
  - pose proof (Hs 0 s eq_refl) as H0. unfold slot in H0.
    rewrite N.add_0_r in H0.
    destruct (_ref_for i) as [code |] eqn:Hcode; [| done].
    unfold str_eqb. case_bool_decide as Heq; [by subst |].
    apply IH.
    + simpl in Hi. lia.
    + intros j t Hj. replace (i + 1 + N.of_nat j)%N with (i + N.of_nat (S j))%N by lia.
      by apply Hs.
    + intros j Hj. destruct (decide (j = i)) as [-> | Hne]; [congruence |].
      apply Hbelow. lia.
Qed.

Lemma nth_met_resolve (seen : list pystr) (c : _Cache) (ref : pystr) :
  cache_of seen = Ok c → nth_met seen 0 ref = resolve c ref.
Proof.
  intros Hc. destruct (register_all_slots seen new_Cache c Hc) as (Hi & Hs & _ & Hok).
  apply nth_met_from; auto using cache_ok_new.
  intros j Hj. lia.
Qed.

(** A literal that begins with a tilde is no reference. *)
Lemma header_literal_not_ref (s : pystr) :
  startswith s (py "~#") = true → is_cache_ref s = false.
Proof.
  intros Hs. destruct s as [| x [| y s]]; try done.
  unfold startswith in Hs. norm_lit. simpl in Hs.
  unfold is_cache_ref, char_is. norm_lit. simpl.
  by destruct (N.eqb_spec x 126) as [-> | ?].
Qed.

Lemma _decode_str_meets (s : pystr) (c c' : _Cache) (k : bool) (r : pyval) :
  _decode_str s c k = Ok (r, c') → register_all c (met_str s k) = Ok c'.
Proof.
  unfold _decode_str, met_str. destruct (is_cache_ref s).
  - destruct (resolve c s); intros H.
    + inv_bind H. by injection H as _ <-.
    + by injection H as _ <-.
  - intros H. inv_bind H. rewrite cache_rule in H0.
    assert (c' = a) as ->.
    { destruct (_ && _); [inv_bind H |]; by injection H as _ <-. }
    destruct (is_cacheable s k); simpl; [by rewrite H0 | done].
Qed.

(** A literal tag header is met when the rule lets it in. *)
Lemma header_meets (s : pystr) (c c' : _Cache) :
  startswith s (py "~#") = true → cache c s false = Ok c' →
  register_all c (met_str s false) = Ok c'.
Proof.
  intros Hs H. unfold met_str. rewrite cache_rule in H.
  rewrite (header_literal_not_ref s Hs).
  destruct (is_cacheable s false); simpl; [by rewrite H | done].
Qed.

Section WalkMeets.
Variable dec : pyval → _Cache → bool → result (pyval * _Cache).
Variable met : pyval → bool → list pystr → list pystr.

Lemma decode_each_meets (elems : list pyval) :
  Forall (meets_at dec met) elems →
  ∀ seen c vs c',
    cache_of seen = Ok c → decode_each dec elems c = Ok (vs, c') →
    register_all c (met_each met elems seen) = Ok c'.
Proof.
  induction 1 as [| e elems He _ IH]; intros seen c vs c' Hc H; simpl in H.
  - by injection H as _ <-.
  - inv_bind H. inv_bind H. injection H as _ <-. simpl.
    pose proof (He _ _ _ _ _ Hc H0) as Hfirst.
    rewrite register_all_app, Hfirst. simpl.
    eapply IH; [| done]. by eapply cache_of_app.
Qed.

Lemma decode_pairs_meets (items : list pyval) :
  Forall (meets_at dec met) items →
  ∀ seen c out out' c',
    cache_of seen = Ok c → decode_pairs dec items c out = Ok (out', c') →
    register_all c (met_pairs met items seen) = Ok c'.
Proof.
  induction items as [items IH] using (induction_ltof1 _ length).
  intros Hall seen c out out' c' Hc H.
  destruct items as [| k [| v items]]; simpl in H;
    try (by injection H as _ <-).
  inversion Hall as [| ? ? Hk Hall']; subst.
  inversion Hall' as [| ? ? Hv Hall'']; subst.
  inv_bind H. inv_bind H. inv_bind H. simpl.
  pose proof (Hk _ _ _ _ _ Hc H0) as Hkey.
  pose proof (cache_of_app _ _ _ _ Hc Hkey) as Hc1.
  pose proof (Hv _ _ _ _ _ Hc1 H1) as Hval.
  rewrite register_all_app, Hkey. simpl.
  rewrite register_all_app, Hval. simpl.
  eapply IH; [| done | | done].
  - unfold ltof. simpl. lia.
  - rewrite app_assoc. by eapply cache_of_app.
Qed.

Lemma decode_elems_meets (payload : pyval) :
  meets_at dec met payload → Forall (meets_at dec met) (elems_of payload) →
  ∀ seen c r c',
    cache_of seen = Ok c → decode_elems dec payload c = Ok (r, c') →
    register_all c (match payload with
                    | PList items => met_each met items seen
                    | _ => met payload false seen
                    end) = Ok c'.
Proof.
  intros Hp He seen c r c' Hc H. unfold decode_elems in H.
  destruct payload; inv_bind H; injection H as _ <-;
    try (by eapply Hp); by eapply decode_each_meets.
Qed.

Lemma decode_tagged_meets (tag : pystr) (payload : pyval) :
  meets_at dec met payload → Forall (meets_at dec met) (elems_of payload) →
  ∀ seen c r c',
    cache_of seen = Ok c → decode_tagged dec tag payload c = Ok (r, c') →
    register_all c (met_payload met tag payload seen) = Ok c'.
Proof.
  intros Hp He seen c r c' Hc H. unfold decode_tagged in H. cbv zeta in H.
  pose proof (decode_elems_meets payload Hp He seen c r c' Hc) as Helems.
  unfold met_payload, str_eqb in *.
  destruct (decide (tag = py "set")) as [-> | Hset].
  { rewrite bool_decide_eq_true_2 in H by done.
    destruct payload; by apply Helems. }
  rewrite (bool_decide_eq_false_2 (tag = py "set")) in H by done.
  destruct (decide (tag = py "list")) as [-> | Hlist].
  { rewrite bool_decide_eq_true_2 in H by done.
    destruct payload; by apply Helems. }
  rewrite (bool_decide_eq_false_2 (tag = py "list")) in H by done.
  destruct (decide (tag = py "ordered-set")) as [-> | Hoset].
  { rewrite (bool_decide_eq_false_2 (py "ordered-set" = py "cmap")) in H by done.
    rewrite bool_decide_eq_true_2 in H by done.
    destruct payload; by apply Helems. }
  rewrite (bool_decide_eq_false_2 (tag = py "ordered-set")) in H by done.
  destruct payload; try (destruct (bool_decide (tag = py "cmap")); by eapply Hp).
  rewrite (bool_decide_eq_false_2 (tag ∈ _))
    by (rewrite !elem_of_cons, elem_of_nil; tauto).
  destruct (bool_decide (tag = py "cmap")); [| by eapply Hp].
  inv_bind H. injection H as _ <-. by eapply decode_pairs_meets.
Qed.

Lemma _decode_list_meets (lst : list pyval) :
  Forall (λ v, meets_at dec met v ∧ Forall (meets_at dec met) (elems_of v)) lst →
  ∀ seen c r c',
    cache_of seen = Ok c → _decode_list dec lst c = Ok (r, c') →
    register_all c (met_list met lst seen) = Ok c'.
Proof.
  intros Hall seen c r c' Hc H.
  assert (Hflat : Forall (meets_at dec met) lst)
    by (eapply Forall_impl; [done | by intros ? [? ?]]).
  destruct lst as [| first items]; simpl in H.
  { by injection H as _ <-. }
  unfold met_list. destruct (is_str first (py "^ ")).
  { inv_bind H. injection H as _ <-.
    eapply decode_pairs_meets; [| done | done]. by inversion Hflat. }
  inv_bind H.
  assert (Hhead : ∃ of_head, met_header first seen = (o, of_head)
                             ∧ register_all c of_head = Ok _c).
  { unfold met_header. destruct first; try (injection H0 as <- <-; by eexists).
    destruct (startswith s (py "~#")) eqn:Hs.
    - inv_bind H0. injection H0 as <- <-. eexists. split; [done |].
      by apply header_meets.
    - destruct (is_cache_ref s); [| injection H0 as <- <-; by eexists].
      rewrite (nth_met_resolve seen c s Hc).
      destruct (resolve c s) as [resolved |];
        [destruct (startswith resolved (py "~#")) |];
        injection H0 as <- <-; by eexists. }
  destruct Hhead as (of_head & -> & Hreg).
  pose proof (cache_of_app _ _ _ _ Hc Hreg) as Hc1.
  destruct o as [t |]; [destruct items as [| payload items] |].
  - inv_bind H. injection H as _ <-.
    rewrite register_all_app, Hreg, bind_ret_l. by eapply decode_each_meets.
  - inversion Hall as [| ? ? _ Hall']; subst.
    inversion Hall' as [| ? ? [Hp He] _]; subst.
    rewrite register_all_app, Hreg, bind_ret_l. by eapply decode_tagged_meets.
  - inv_bind H. injection H as _ <-.
    rewrite register_all_app, Hreg, bind_ret_l. by eapply decode_each_meets.
Qed.

Lemma _decode_tagged_verbose_meets (tag : pystr) (payload : pyval) :
  meets_at dec met payload → Forall (meets_at dec met) (elems_of payload) →
  ∀ seen c r c',
    cache_of seen = Ok c → _decode_tagged_verbose dec tag payload c = Ok (r, c') →
    register_all c (if str_eqb tag (py "uri") then []
                    else met_payload met tag payload seen) = Ok c'.
Proof.
  intros Hp He seen c r c' Hc H. unfold _decode_tagged_verbose in H.
  destruct (str_eqb tag (py "uri")); [| by eapply decode_tagged_meets].
  destruct payload; try inv_bind H; by injection H as _ <-.
Qed.

Lemma decode_items_meets (items : list (pyval * pyval)) :
  Forall (λ kv, meets_at dec met kv.2) items →
  ∀ seen c out out' c',
    cache_of seen = Ok c → decode_items dec items c out = Ok (out', c') →
    register_all c (met_items met items seen) = Ok c'.
Proof.
  induction 1 as [| [k v] items Hv _ IH]; intros seen c out out' c' Hc H; simpl in H.
  - by injection H as _ <-.
  - inv_bind H. inv_bind H. inv_bind H. simpl in *.
    assert (Hkey : register_all c (match k with
                                   | PStr s => met_str s true
                                   | _ => []
                                   end) = Ok _c).
    { destruct k; try (by injection H0 as _ <-). by eapply _decode_str_meets. }
    pose proof (cache_of_app _ _ _ _ Hc Hkey) as Hc1.
    pose proof (Hv _ _ _ _ _ Hc1 H1) as Hval.
    rewrite register_all_app, Hkey. simpl.
    rewrite register_all_app, Hval. simpl.
    eapply IH; [| done]. rewrite app_assoc. by eapply cache_of_app.
Qed.

Lemma decode_dict_meets (items : list (pyval * pyval)) :
  Forall (λ kv, meets_at dec met kv.2 ∧ Forall (meets_at dec met) (elems_of kv.2))
         items →
  ∀ seen c r c',
    cache_of seen = Ok c → decode_dict dec items c = Ok (r, c') →
    register_all c (met_dict met items seen) = Ok c'.
Proof.
  intros Hall seen c r c' Hc H. unfold decode_dict in H. unfold met_dict.
  assert (Hgen : (decode_items dec items c [] ≫= λ '(out, c'), Ok (PDict out, c'))
                 = Ok (r, c') → register_all c (met_items met items seen) = Ok c').
  { intros Hg. inv_bind Hg. injection Hg as _ <-.
    eapply decode_items_meets; [| done | done].
    eapply Forall_impl; [done | by intros ? [? ?]]. }
  cbv zeta.
  destruct items as [| [k payload] [| ? ?]]; try (by apply Hgen);
    destruct k; try (by apply Hgen).
  destruct (startswith s (py "~#")) eqn:Hs; [| by apply Hgen].
  inv_bind H. inversion Hall as [| ? ? [Hp He] _]; subst. simpl in Hp, He.
  pose proof (header_meets _ _ _ Hs H0) as Hkey.
  pose proof (cache_of_app _ _ _ _ Hc Hkey) as Hc1.
  rewrite register_all_app, Hkey. simpl.
  by eapply _decode_tagged_verbose_meets.
Qed.
End WalkMeets.

(** The walk registers the strings that the value meets, in order. *)
Lemma _decode_meets (v : pyval) : meets_at _decode encounters v.
Proof.
  induction v as [| | | | s | l IH | items IH] using pyval_walk_ind;
    intros seen c k r c' Hc H; simpl in H;
    try (by injection H as _ <-).
  - by eapply _decode_str_meets.
  - by eapply _decode_list_meets.
  - by eapply decode_dict_meets.
Qed.

(** C3: a string offered to the cache is registered exactly when the
    rule holds, and a registration takes the index that the counter
    shows and moves the counter by one, leaving every other slot as it
    was. So a decode only registers, one string after the other: the
    slots given out before keep their content, and no slot exists at or
    past the counter. The strings it registers are those that the
    depth-first walk of the value meets, [encounters], in that order,
    every cacheable string as often as it is written out: in a decode
    that has met [seen] so far and walks [v], slot [i] holds the [i]-th
    string of [seen] followed by the strings met in [v], and there is no
    other slot. For a decode invocation, which starts from a fresh cache,
    the indices are exactly 0, 1, 2, ... down the list of the strings met
    in the document. *)
Theorem slots_follow_walk_order :
  (∀ c s k, cache c s k = if is_cacheable s k then register c s else Ok c)
  ∧ (∀ c s c1, register c s = Ok c1 →
               _idx c1 = (_idx c + 1)%N
               ∧ slot c1 (_idx c) = Some s
               ∧ ∀ i, i ≠ _idx c → slot c1 i = slot c i)
  ∧ (∀ v c k r c',
       cache_ok c →
       _decode v c k = Ok (r, c') →
       ∃ log,
         register_all c log = Ok c'
         ∧ _idx c' = (_idx c + N.of_nat (length log))%N
         ∧ (∀ j s, log !! j = Some s → slot c' (_idx c + N.of_nat j) = Some s)
         ∧ (∀ i, (i < _idx c)%N → slot c' i = slot c i)
         ∧ (∀ i, (_idx c' <= i)%N → slot c' i = None)
         ∧ cache_ok c')
  ∧ (∀ v k seen c r c',
       cache_of seen = Ok c →
       _decode v c k = Ok (r, c') →
       register_all c (encounters v k seen) = Ok c'
       ∧ _idx c' = N.of_nat (length (seen ++ encounters v k seen))
       ∧ (∀ i, slot c i = seen !! N.to_nat i)
       ∧ (∀ i, slot c' i = (seen ++ encounters v k seen) !! N.to_nat i))
  ∧ (∀ v r c',
       _decode v new_Cache false = Ok (r, c') →
       _idx c' = N.of_nat (length (encounters v false []))
       ∧ ∀ i, slot c' i = encounters v false [] !! N.to_nat i).
Proof.
  assert (Hslots : ∀ seen c, cache_of seen = Ok c →
                             ∀ i, slot c i = seen !! N.to_nat i).
  { intros seen c Hc i. destruct (cache_of_slots seen c Hc) as (_ & _ & Hs).
    destruct (seen !! N.to_nat i) as [s |] eqn:Hi.
    - apply Hs in Hi. by rewrite N2Nat.id in Hi.
    - destruct (slot c i) as [s |] eqn:Hslot; [| done].
      rewrite <- (N2Nat.id i) in Hslot. apply Hs in Hslot. congruence. }
  assert (Hwalk : ∀ v k seen c r c',
            cache_of seen = Ok c → _decode v c k = Ok (r, c') →
            register_all c (encounters v k seen) = Ok c'
            ∧ cache_of (seen ++ encounters v k seen) = Ok c').
  { intros v k seen c r c' Hc H.
    pose proof (_decode_meets v seen c k r c' Hc H) as Hlog.
    split; [done | by eapply cache_of_app]. }
  split; [exact cache_rule |]. split.
  { intros c s c1 H. destruct (register_slots c c1 s H) as (? & ? & ? & _). auto. }
  split.
  { intros v c k r c' Hok H. destruct (_decode_grows v c k r c' H) as [log Hlog].
    exists log. destruct (register_all_slots log c c' Hlog) as (Hi & Hs & Ho & Hok').
    repeat split; auto. intros i Hle. apply slot_beyond; auto. }
  split.
  - intros v k seen c r c' Hc H. destruct (Hwalk v k seen c r c' Hc H) as [Hlog Hc'].
    split; [done |]. split; [by destruct (cache_of_slots _ _ Hc') as (_ & ? & _) |].
    split; [by apply Hslots | by apply Hslots].
  - intros v r c' H. destruct (Hwalk v false [] new_Cache r c' eq_refl H) as [_ Hc'].
    split; [by destruct (cache_of_slots _ _ Hc') as (_ & ? & _) | by apply Hslots].
Qed.

Lemma slots_follow_walk_order_witness :
  encounters (PList [PList [str "~#set"; PList [str "~:aaaa"; str "~:aaaa"]];
                     PList [str "^0"; PList [str "~:bbbb"; str "^1"; str "ab"]]])
             false []
  = [py "~#set"; py "~:aaaa"; py "~:aaaa"; py "~:bbbb"]
  ∧ match _decode (PList [PList [str "~#set"; PList [str "~:aaaa"; str "~:aaaa"]];
                          PList [str "^0"; PList [str "~:bbbb"; str "^1"; str "ab"]]])
                  new_Cache false with
    | Ok (r, c') =>
        r = PList [PList [str "aaaa"; str "aaaa"]; PList [str "bbbb"; str "aaaa"; str "ab"]]
        ∧ _idx c' = 4%N
        ∧ ∀ i, slot c' i
               = [py "~#set"; py "~:aaaa"; py "~:aaaa"; py "~:bbbb"] !! N.to_nat i
    | Raise _ => False
    end.
Proof.
  split; [vm_compute; reflexivity |].
  destruct (_decode _ new_Cache false) as [[r c'] | e] eqn:E.
  - split; [vm_compute in E; by injection E as <- _ |].
    exact (proj2 (proj2 (proj2 (proj2 slots_follow_walk_order))) _ r c' E).
  - vm_compute in E. discriminate E.
Defined.

(** ** Tag headers *)

Lemma _decode_PStr (s : pystr) (c : _Cache) (k : bool) :
  _decode (PStr s) c k = _decode_str s c k.
Proof. reflexivity. Qed.

Lemma _decode_PList (l : list pyval) (c : _Cache) (k : bool) :
  _decode (PList l) c k = _decode_list _decode l c.
Proof. reflexivity. Qed.

Lemma _decode_PDict (items : list (pyval * pyval)) (c : _Cache) (k : bool) :
  _decode (PDict items) c k = decode_dict _decode items c.
Proof. reflexivity. Qed.

Lemma _parse_tagged_header (t : pystr) :
  startswith t (py "~#") = true → _parse_tagged t = Ok (PStr t).
Proof.
  unfold startswith, _parse_tagged. norm_lit.
  destruct t as [| c0 [| c1 rest]]; simpl; try done.
  destruct (N.eqb_spec c0 126) as [-> | ?]; [| done].
  destruct (N.eqb_spec c1 35) as [-> | ?]; [| done]. done.
Qed.

Lemma header_not_ref (t : pystr) :
  startswith t (py "~#") = true →
  is_cache_ref t = false ∧ is_str (PStr t) (py "^ ") = false
  ∧ (2 <=? length t) && char_is t 0 (ch "~") = true.
Proof.
  unfold startswith, is_cache_ref, is_str, str_eqb, char_is. norm_lit.
  destruct t as [| c0 [| c1 rest]]; simpl; try done.
  - by rewrite andb_false_r.
  - destruct (N.eqb_spec c0 126) as [-> | ?]; [| done]. intros _.
    split; [done |]. split; [| done]. by apply bool_decide_eq_false_2.
Qed.

(** C10, as the code has it: a one-element array whose element is a tag
    header [t] decodes to the array of [t] itself, the tagged branch not
    being taken; when [t] has four characters or more it is registered
    twice, at the next two indices, and when it is shorter it is not
    registered at all. *)
Theorem lone_tag_header (t : pystr) (c : _Cache) (k : bool) :
  startswith t (py "~#") = true →
  _decode (PList [PStr t]) c k =
    (if 4 <=? length t
     then c1 ← register c t; c2 ← register c1 t; Ok (PList [PStr t], c2)
     else Ok (PList [PStr t], c))
  ∧ (4 ≤ length t → (_idx c + 1 < ref_limit)%N →
     ∃ c2, _decode (PList [PStr t]) c k = Ok (PList [PStr t], c2)
           ∧ _idx c2 = (_idx c + 2)%N
           ∧ slot c2 (_idx c) = Some t
           ∧ slot c2 (_idx c + 1) = Some t).
Proof.
  intros Ht.
  destruct (header_not_ref t Ht) as (Hr & Hs & Hp).
  assert (Heq : _decode (PList [PStr t]) c k =
    (if 4 <=? length t
     then c1 ← register c t; c2 ← register c1 t; Ok (PList [PStr t], c2)
     else Ok (PList [PStr t], c))).
  { assert (Hstr : ∀ c1, _decode_str t c1 false
                         = c2 ← cache c1 t false; Ok (PStr t, c2)).
    { intros c1. unfold _decode_str. rewrite Hr, Hp.
      rewrite (_parse_tagged_header t Ht). by destruct (cache c1 t false). }
    assert (Hrule : ∀ c1, cache c1 t false
                          = if 4 <=? length t then register c1 t else Ok c1).
    { intros c1. rewrite cache_rule. unfold is_cacheable.
      by rewrite Ht, !orb_true_r, !andb_true_r. }
    rewrite _decode_PList. unfold _decode_list. rewrite Hs, Ht, Hrule.
    destruct (4 <=? length t) eqn:Hlen; simpl.
    - destruct (register c t) as [c1 |]; simpl; [| done].
      rewrite Hstr, Hrule. by destruct (register c1 t).
    - by rewrite Hstr, Hrule. }
  split; [exact Heq |]. intros Hlen Hidx. rewrite Heq.
  destruct (Nat.leb_spec 4 (length t)); [| lia].
  destruct (_ref_for_Ok (_idx c)) as [r1 Hr1]; [lia |].
  destruct (_ref_for_Ok (_idx c + 1)) as [r2 Hr2]; [lia |].
  assert (H1 : register c t
               = Ok {| _map := <[r1 := t]> (_map c); _idx := (_idx c + 1)%N |})
    by (unfold register; by rewrite Hr1).
  rewrite H1. simpl.
  assert (H2 : register {| _map := <[r1 := t]> (_map c); _idx := (_idx c + 1)%N |} t
               = Ok {| _map := <[r2 := t]> (<[r1 := t]> (_map c));
                       _idx := (_idx c + 1 + 1)%N |})
    by (unfold register; simpl; by rewrite Hr2).
  rewrite H2. simpl. eexists. split; [done |].
  destruct (register_slots _ _ _ H1) as (_ & Hs1 & _ & _).
  destruct (register_slots _ _ _ H2) as (_ & Hs2 & Ho2 & _). simpl in *.
  split; [lia |]. split; [| exact Hs2].
  rewrite Ho2 by lia. exact Hs1.
Qed.

Lemma lone_tag_header_witness :
  _decode (PList [str "~#set"]) new_Cache false =
    (c1 ← register new_Cache (py "~#set");
     c2 ← register c1 (py "~#set"); Ok (PList [str "~#set"], c2))
  ∧ (4 ≤ 5 → (0 + 1 < ref_limit)%N →
     ∃ c2, _decode (PList [str "~#set"]) new_Cache false
           = Ok (PList [str "~#set"], c2)
           ∧ _idx c2 = 2%N
           ∧ slot c2 0 = Some (py "~#set")
           ∧ slot c2 1 = Some (py "~#set")).
Proof.
  exact (lone_tag_header (py "~#set") new_Cache false ltac:(vm_compute; reflexivity)).
Defined.

(** C10, as stated, fails for a short header: decoding [["~#a"]] gives
    out no index at all. *)
Lemma lone_short_header_not_registered :
  ¬ ∃ c2, _decode (PList [str "~#a"]) new_Cache false = Ok (PList [str "~#a"], c2)
          ∧ _idx c2 = 2%N.
Proof. intros (c2 & H & Hidx). vm_compute in H. injection H as <-. done. Qed.

Lemma _decode_all_grow (l : list pyval) : Forall (grows_at _decode) l.
Proof. apply Forall_forall. intros v _. apply _decode_grows. Qed.

Lemma ref_not_header (ref : pystr) :
  is_cache_ref ref = true → startswith ref (py "~#") = false.
Proof.
  unfold is_cache_ref, char_is, startswith. norm_lit.
  destruct ref as [| c0 [| c1 ref]]; try done. simpl.
  by destruct (N.eqb_spec c0 94) as [-> | ?].
Qed.

(** An array with a literal tag header: the head is offered to the cache
    first, then the payload is decoded, or the array itself when it has
    no second element. *)
Lemma _decode_list_header (t : pystr) (rest : list pyval) (c : _Cache) (k : bool) :
  startswith t (py "~#") = true →
  _decode (PList (PStr t :: rest)) c k =
    c1 ← cache c t false;
    match rest with
    | payload :: _ => decode_tagged _decode (drop 2 t) payload c1
    | [] => '(vs, c2) ← decode_each _decode (PStr t :: rest) c1; Ok (PList vs, c2)
    end.
Proof.
  intros Ht. destruct (header_not_ref t Ht) as (_ & Hs & _).
  rewrite _decode_PList. unfold _decode_list. rewrite Hs, Ht.
  destruct (cache c t false) as [c1 |]; [| done]. simpl. by destruct rest.
Qed.

(** C4, as the code has it: for an array whose head is a literal [t]
    beginning ["~#"], decoding registers the head, at the index the
    cache had, when [t] has four characters or more; a shorter head,
    such as ["~#a"], is not registered, and the payload is decoded with
    the cache as it was. *)
Theorem tag_header_registration (t : pystr) (rest : list pyval) (c : _Cache)
    (k : bool) :
  startswith t (py "~#") = true →
  (4 ≤ length t →
   ∀ r c', _decode (PList (PStr t :: rest)) c k = Ok (r, c') →
           slot c' (_idx c) = Some t ∧ (_idx c < _idx c')%N)
  ∧ (length t < 4 →
     cache c t false = Ok c
     ∧ ∀ payload more, rest = payload :: more →
         _decode (PList (PStr t :: rest)) c k
         = decode_tagged _decode (drop 2 t) payload c).
Proof.
  intros Ht. split.
  - intros Hlen r c' H. rewrite (_decode_list_header t rest c k Ht) in H.
    inv_bind H. rename a into c1.
    assert (Hreg : register c t = Ok c1).
    { rewrite cache_rule in H0. unfold is_cacheable in H0.
      rewrite Ht, !orb_true_r, andb_true_r in H0.
      by destruct (Nat.leb_spec 4 (length t)); [| lia]. }
    destruct (register_slots _ _ _ Hreg) as (Hi & Hs & _ & _).
    assert (Hg : grows c1 c').
    { destruct rest as [| payload more].
      - inv_bind H. injection H as _ <-.
        eapply decode_each_grows; [apply _decode_all_grow | done].
      - eapply decode_tagged_grows;
          [apply _decode_grows | apply _decode_all_grow | done]. }
    destruct Hg as [log Hlog].
    destruct (register_all_slots _ _ _ Hlog) as (Hi' & _ & Ho & _).
    split; [| lia]. rewrite Ho by lia. exact Hs.
  - intros Hlen. split; [by apply cache_short |].
    intros payload more ->. rewrite (_decode_list_header t _ c k Ht).
    by rewrite cache_short.
Qed.

Lemma tag_header_registration_witness :
  (4 ≤ 5 →
   ∀ r c', _decode (PList [str "~#set"; PList [PInt 1]]) new_Cache false = Ok (r, c') →
           slot c' 0 = Some (py "~#set") ∧ (0 < _idx c')%N)
  ∧ (5 < 4 →
     cache new_Cache (py "~#set") false = Ok new_Cache
     ∧ ∀ payload more, [PList [PInt 1]] = payload :: more →
         _decode (PList [str "~#set"; PList [PInt 1]]) new_Cache false
         = decode_tagged _decode (drop 2 (py "~#set")) payload new_Cache).
Proof.
  exact (tag_header_registration (py "~#set") [PList [PInt 1]] new_Cache false
           ltac:(vm_compute; reflexivity)).
Defined.

(** C4, as stated, fails for a short header: decoding [["~#a", 1]]
    leaves the cache without any slot. *)
Lemma short_header_not_registered :
  ¬ ∃ r c', _decode (PList [str "~#a"; PInt 1]) new_Cache false = Ok (r, c')
            ∧ ∃ ref, resolve c' ref = Some (py "~#a").
Proof.
  intros (r & c' & H & ref & Href).
  assert (E : _decode (PList [str "~#a"; PInt 1]) new_Cache false
              = Ok (PInt 1, new_Cache)) by (vm_compute; reflexivity).
  rewrite E in H. injection H as _ <-.
  unfold resolve in Href. simpl in Href. by rewrite lookup_empty in Href.
Qed.

(** ** The trailing element of a map *)

Lemma decode_pairs_trailing (dec : pyval → _Cache → bool → result (pyval * _Cache))
    (p : list pyval) (x : pyval) :
  Nat.even (length p) = true →
  ∀ c out, decode_pairs dec (p ++ [x]) c out = decode_pairs dec p c out.
Proof.
  induction p as [p IH] using (induction_ltof1 _ length). intros Hev c out.
  destruct p as [| a [| b p]]; [done | done |].
  simpl. destruct (dec a c true) as [[key c1] |]; [| done]. simpl.
  destruct (dec b c1 false) as [[val c2] |]; [| done]. simpl.
  destruct (dict_setitem out key val) as [out' |]; [| done]. simpl.
  apply IH; [unfold ltof; simpl; lia | done].
Qed.

Lemma decode_tagged_cmap (dec : pyval → _Cache → bool → result (pyval * _Cache))
    (items : list pyval) (c : _Cache) :
  decode_tagged dec (py "cmap") (PList items) c
  = '(out, c') ← decode_pairs dec items c []; Ok (PDict out, c').
Proof. reflexivity. Qed.

(** C9: in a compact map array [["^ ", e1, ..., en]] with [n] odd, and in
    a [cmap] payload of odd length (under a literal header, under a
    header given by reference, or in the verbose form), the last element
    has no partner and is dropped: the decode gives the value and the
    cache that it gives without that element, so the element is neither
    decoded nor cached. *)
Theorem unpaired_trailing_dropped (p : list pyval) (x : pyval) (c : _Cache)
    (k : bool) :
  Nat.even (length p) = true →
  _decode (PList (str "^ " :: p ++ [x])) c k = _decode (PList (str "^ " :: p)) c k
  ∧ (∀ more, _decode (PList (str "~#cmap" :: PList (p ++ [x]) :: more)) c k
             = _decode (PList (str "~#cmap" :: PList p :: more)) c k)
  ∧ (∀ ref more,
       is_cache_ref ref = true → ref ≠ py "^ " →
       resolve c ref = Some (py "~#cmap") →
       _decode (PList (PStr ref :: PList (p ++ [x]) :: more)) c k
       = _decode (PList (PStr ref :: PList p :: more)) c k)
  ∧ _decode (PDict [(str "~#cmap", PList (p ++ [x]))]) c k
    = _decode (PDict [(str "~#cmap", PList p)]) c k
  ∧ _decode_tagged_verbose _decode (py "cmap") (PList (p ++ [x])) c
    = _decode_tagged_verbose _decode (py "cmap") (PList p) c.
Proof.
  intros Hev. unfold str.
  assert (Htag : ∀ c1, decode_tagged _decode (py "cmap") (PList (p ++ [x])) c1
                       = decode_tagged _decode (py "cmap") (PList p) c1).
  { intros c1. rewrite !decode_tagged_cmap. by rewrite decode_pairs_trailing. }
  split; [| split; [| split; [| split]]].
  - rewrite !_decode_PList. unfold _decode_list.
    change (is_str (PStr (py "^ ")) (py "^ ")) with true. cbv iota.
    by rewrite decode_pairs_trailing.
  - intros more. rewrite !_decode_list_header by done.
    destruct (cache c (py "~#cmap") false) as [c1 |]; [| done]. apply Htag.
  - intros ref more Href Hne Hres. rewrite !_decode_PList. unfold _decode_list.
    assert (Hs : is_str (PStr ref) (py "^ ") = false)
      by (by apply bool_decide_eq_false_2).
    pose proof (ref_not_header ref Href) as Hh.
    rewrite Hs, Hh, Href, Hres.
    change (startswith (py "~#cmap") (py "~#")) with true. cbv iota. simpl.
    apply Htag.
  - rewrite !_decode_PDict. unfold decode_dict, _decode_tagged_verbose. simpl.
    change (startswith (py "~#cmap") (py "~#")) with true. cbv iota.
    destruct (cache c (py "~#cmap") false) as [c1 |]; [| done]. simpl.
    change (drop 2 (py "~#cmap")) with (py "cmap").
    change (str_eqb (py "cmap") (py "uri")) with false. cbv iota. apply Htag.
  - unfold _decode_tagged_verbose.
    change (str_eqb (py "cmap") (py "uri")) with false. cbv iota. apply Htag.
Qed.

Lemma unpaired_trailing_dropped_witness :
  _decode (PList (str "^ " :: [str "~:a"; PInt 1] ++ [str "~:alone"])) new_Cache false
  = _decode (PList (str "^ " :: [str "~:a"; PInt 1])) new_Cache false.
Proof.
  exact (proj1 (unpaired_trailing_dropped [str "~:a"; PInt 1] (str "~:alone")
                  new_Cache false ltac:(reflexivity))).
Defined.

(** ** Short strings *)

Lemma try_except_int (rest s : pystr) :
  ∃ v, try_except (n ← int_str rest; Ok (PInt n)) [ValueError] (Ok (PStr s)) = Ok v.
Proof. unfold int_str. destruct (py_int rest); simpl; eauto. Qed.

Lemma try_except_float (rest s : pystr) :
  ∃ v, try_except (f ← float_str rest; Ok (PFloat f)) [ValueError] (Ok (PStr s)) = Ok v.
Proof. unfold float_str. destruct (py_float rest); simpl; eauto. Qed.

Lemma without_underscores_single (x : N) :
  x ≠ ch "_" → without_underscores [x] = [x].
Proof.
  intros Hx. unfold without_underscores. cbn.
  by destruct (decide (x ≠ ch "_")).
Qed.

(** [int] of at most one character is a digit's value. *)
Lemma py_int_single (rest : pystr) (n : Z) :
  length rest ≤ 1 → py_int rest = Some n → (0 <= n <= 9)%Z.
Proof.
  destruct rest as [| x [| ? ?]]; simpl; [done | | lia]. intros _.
  unfold py_int, strip, lstrip. simpl.
  destruct (is_space x) eqn:Hsp; simpl; [by intros [=] |]. rewrite Hsp. simpl.
  change (reverse [x]) with [x].
  unfold split_sign. norm_lit.
  destruct (N.eqb_spec x 45) as [-> | Hm]; [by intros [=] |].
  destruct (N.eqb_spec x 43) as [-> | Hp]; [by intros [=] |].
  simpl. norm_lit.
  destruct (N.eqb_spec x 95) as [-> | Hu]; [by intros [=] |]. simpl.
  rewrite !without_underscores_single by exact Hu. simpl.
  destruct (is_digit x) eqn:Hd; simpl; [| by intros [=]].
  intros [= <-]. unfold is_digit in Hd.
  apply andb_true_iff in Hd as [H1 H2]. apply N.leb_le in H1, H2.
  unfold digits_value. simpl. lia.
Qed.

(** The instant of a few milliseconds after the epoch exists. *)
Lemma instant_of_digit (n : Z) :
  (0 <= n <= 9)%Z → ∃ iso, instant_isoformat n = Ok iso.
Proof.
  intros Hn.
  assert (n = 0 ∨ n = 1 ∨ n = 2 ∨ n = 3 ∨ n = 4 ∨ n = 5 ∨ n = 6 ∨ n = 7
          ∨ n = 8 ∨ n = 9)%Z as Hcases by lia.
  repeat destruct Hcases as [-> | Hcases]; try subst n; vm_compute; eauto.
Qed.

Lemma _parse_tagged_short (s : pystr) :
  length s < 4 → ∃ v, _parse_tagged s = Ok v.
Proof.
  intros Hlen. unfold _parse_tagged.
  destruct s as [| c0 [| tag rest]]; [eauto | eauto |].
  repeat match goal with
         | |- ∃ v, (if ?b then _ else _) = Ok v => destruct b; [by eauto |]
         | |- ∃ v, (if ?b then _ else _) = Ok v => destruct b
         | |- ∃ v, try_except (int_str _ ≫= λ n, Ok (PInt n)) _ _ = Ok v =>
             apply try_except_int
         | |- ∃ v, try_except (float_str _ ≫= _) _ _ = Ok v =>
             apply try_except_float
         end; eauto.
  unfold int_str. destruct (py_int rest) as [n |] eqn:Hn; simpl; [| eauto].
  destruct (instant_of_digit n) as [iso Hiso];
    [apply (py_int_single rest n); [simpl in Hlen; lia | done] |].
  rewrite Hiso. simpl. eauto.
Qed.

(** C5, as the code has it: decoding a string of fewer than four
    characters leaves the table and the counter of the cache as they
    were; when the string is not of the shape of a reference, every
    occurrence decodes to the same value, whatever the cache holds and
    whether it stands as a key or not. (An occurrence of the shape of a
    reference, such as ["^0"], gives what its slot holds at that
    point.) *)
Theorem short_string_leaves_cache (s : pystr) :
  length s < 4 →
  (∀ c k r c', _decode (PStr s) c k = Ok (r, c') → c' = c)
  ∧ (is_cache_ref s = false → ∃ v, ∀ c k, _decode (PStr s) c k = Ok (v, c)).
Proof.
  intros Hlen. split.
  - intros c k r c'. rewrite _decode_PStr. unfold _decode_str.
    rewrite cache_short by done. simpl.
    destruct (is_cache_ref s); [destruct (resolve c s) |];
      [| | destruct (_ && _)]; intros H; try inv_bind H; by injection H as _ <-.
  - intros Href. destruct (_parse_tagged_short s Hlen) as [v Hv].
    destruct ((2 <=? length s) && char_is s 0 (ch "~")) eqn:Ht.
    + exists v. intros c k. rewrite _decode_PStr. unfold _decode_str.
      rewrite Href, cache_short by done. by rewrite bind_ret_l, Ht, Hv.
    + exists (PStr s). intros c k. rewrite _decode_PStr. unfold _decode_str.
      rewrite Href, cache_short by done. by rewrite bind_ret_l, Ht.
Qed.

Lemma short_string_leaves_cache_witness :
  (∀ c k r c', _decode (str "~:a") c k = Ok (r, c') → c' = c)
  ∧ (is_cache_ref (py "~:a") = false →
     ∃ v, ∀ c k, _decode (str "~:a") c k = Ok (v, c)).
Proof. exact (short_string_leaves_cache (py "~:a") ltac:(vm_compute; lia)). Defined.

(** C5, as stated, fails twice. Its example ["~:ab"] has four characters:
    it is cacheable, and decoding it gives out index 0. And a short
    string of the shape of a reference does not decode to the same value
    at every occurrence: in [["^0", "~:aaaa", "^0"]] the first ["^0"]
    stays as it is and the second is the keyword. *)
Lemma short_string_counterexamples :
  (∃ c', _decode (str "~:ab") new_Cache false = Ok (str "ab", c')
         ∧ _idx c' = 1%N ∧ resolve c' (py "^0") = Some (py "~:ab")
         ∧ c' ≠ new_Cache)
  ∧ ¬ ∃ v, decode_transit (PList [str "^0"; str "~:aaaa"; str "^0"])
           = Ok (PList [v; str "aaaa"; v]).
Proof.
  split.
  - eexists. split; [vm_compute; reflexivity |]. by vm_compute.
  - intros [v H].
    assert (E : decode_transit (PList [str "^0"; str "~:aaaa"; str "^0"])
                = Ok (PList [str "^0"; str "aaaa"; str "aaaa"]))
      by (vm_compute; reflexivity).
    rewrite E in H. injection H as <- H. vm_compute in H. discriminate H.
Qed.

(** ** Inputs without references

    When the input holds no reference, the walk never reads the table of
    the cache: from two caches it gives the same value, or raises the
    same exception, as long as neither runs out of codes. *)

Lemma uniform_mono {A} (n n' : N) (m : _Cache → result (A * _Cache)) :
  (n <= n')%N → uniform n m → uniform n' m.
Proof.
  intros Hle Hm c1 c2 H1 H2 B1 B2.
  specialize (Hm c1 c2 H1 H2 ltac:(lia) ltac:(lia)).
  destruct (m c1) as [[a1 c1'] |], (m c2) as [[a2 c2'] |]; try done.
  destruct Hm as (-> & ? & ? & d & ? & ? & ?).
  repeat split; auto. exists d. repeat split; auto. lia.
Qed.

Lemma uniform_ret {A} (a : A) : uniform 0 (λ c, Ok (a, c)).
Proof.
  intros c1 c2 H1 H2 _ _. repeat split; auto. exists 0%N. repeat split; lia.
Qed.

Lemma uniform_bind {A B} (n1 n2 : N) (m : _Cache → result (A * _Cache))
    (g : A * _Cache → result (B * _Cache)) :
  uniform n1 m → (∀ a, uniform n2 (λ c, g (a, c))) →
  uniform (n1 + n2) (λ c, m c ≫= g).
Proof.
  intros Hm Hg c1 c2 H1 H2 B1 B2.
  specialize (Hm c1 c2 H1 H2 ltac:(lia) ltac:(lia)).
  destruct (m c1) as [[a1 c1'] |], (m c2) as [[a2 c2'] |]; try done.
  destruct Hm as (-> & H1' & H2' & d & Hd & E1 & E2). simpl.
  specialize (Hg a2 c1' c2' H1' H2' ltac:(lia) ltac:(lia)). simpl in Hg.
  destruct (g (a2, c1')) as [[b1 c1''] |], (g (a2, c2')) as [[b2 c2''] |]; try done.
  destruct Hg as (-> & ? & ? & d' & ? & ? & ?).
  repeat split; auto. exists (d + d')%N. repeat split; lia.
Qed.

Lemma uniform_pure_bind {A B} (n : N) (r : result A)
    (f : A → _Cache → result (B * _Cache)) :
  (∀ a, uniform n (f a)) → uniform n (λ c, r ≫= λ a, f a c).
Proof.
  intros Hf c1 c2 H1 H2 B1 B2. destruct r as [a | e]; simpl; [| done].
  by apply Hf.
Qed.

Lemma uniform_pure {A} (r : result A) : uniform 0 (λ c, r ≫= λ a, Ok (a, c)).
Proof. apply (uniform_pure_bind 0 r (λ a c, Ok (a, c))). intros a. apply uniform_ret. Qed.

Lemma register_Ok (c : _Cache) (s : pystr) :
  (_idx c < ref_limit)%N →
  ∃ c', register c s = Ok c' ∧ _idx c' = (_idx c + 1)%N ∧ (cache_ok c → cache_ok c').
Proof.
  intros Hlt. destruct (_ref_for_Ok (_idx c) Hlt) as [ref Hr].
  assert (H : register c s
              = Ok {| _map := <[ref := s]> (_map c); _idx := (_idx c + 1)%N |})
    by (unfold register; by rewrite Hr).
  eexists. split; [exact H |].
  destruct (register_slots _ _ _ H) as (? & _ & _ & ?). auto.
Qed.

Lemma uniform_cache_bind {B} (n : N) (s : pystr) (k : bool)
    (F : _Cache → result (B * _Cache)) :
  uniform n F → uniform (1 + n) (λ c, cache c s k ≫= F).
Proof.
  intros HF c1 c2 H1 H2 B1 B2. rewrite !cache_rule.
  destruct (is_cacheable s k).
  - destruct (register_Ok c1 s) as (c1' & -> & E1 & Hok1); [lia |].
    destruct (register_Ok c2 s) as (c2' & -> & E2 & Hok2); [lia |].
    simpl. specialize (HF _ _ (Hok1 H1) (Hok2 H2) ltac:(lia) ltac:(lia)).
    destruct (F c1') as [[b1 c1''] |], (F c2') as [[b2 c2''] |]; try done.
    destruct HF as (-> & ? & ? & d & ? & ? & ?).
    repeat split; auto. exists (1 + d)%N. repeat split; lia.
  - simpl. specialize (HF c1 c2 H1 H2 ltac:(lia) ltac:(lia)).
    destruct (F c1) as [[b1 c1'] |], (F c2) as [[b2 c2'] |]; try done.
    destruct HF as (-> & ? & ? & d & ? & ? & ?).
    repeat split; auto. exists d. repeat split; lia.
Qed.

Lemma _decode_str_uniform (s : pystr) (k : bool) :
  ref_free (PStr s) = true → uniform 1 (λ c, _decode_str s c k).
Proof.
  simpl. intros Hs. unfold _decode_str.
  destruct (is_cache_ref s) eqn:Href; simpl in Hs.
  - apply bool_decide_eq_true in Hs as ->.
    intros c1 c2 H1 H2 _ _. rewrite !resolve_sentinel by done.
    repeat split; auto. exists 0%N. repeat split; lia.
  - apply (uniform_cache_bind 0).
    destruct (_ && _); [| apply uniform_ret]. apply uniform_pure.
Qed.

Section WalkUniform.
Variable dec : pyval → _Cache → bool → result (pyval * _Cache).

Lemma decode_each_uniform (elems : list pyval) :
  Forall (uniform_at dec) elems → forallb ref_free elems = true →
  uniform (rooms elems) (decode_each dec elems).
Proof.
  induction 1 as [| e elems He _ IH]; simpl; intros Hfree.
  - apply uniform_ret.
  - apply andb_true_iff in Hfree as [Hfe Hfl].
    apply (uniform_bind (room e) (rooms elems) (λ c, dec e c false)); [by apply He |].
    intros v. simpl.
    eapply uniform_mono;
      [| apply (uniform_bind (rooms elems) 0 (decode_each dec elems)); [by apply IH |]].
    + lia.
    + intros vs. apply uniform_ret.
Qed.

Lemma decode_pairs_uniform (items : list pyval) :
  Forall (uniform_at dec) items → forallb ref_free items = true →
  ∀ out, uniform (rooms items) (λ c, decode_pairs dec items c out).
Proof.
  induction items as [items IH] using (induction_ltof1 _ length).
  intros Hall Hfree out.
  destruct items as [| k [| v items]]; simpl.
  - apply uniform_ret.
  - eapply uniform_mono; [| apply uniform_ret]. lia.
  - inversion Hall as [| ? ? Hk Hall']; subst.
    inversion Hall' as [| ? ? Hv Hall'']; subst.
    simpl in Hfree. apply andb_true_iff in Hfree as [Hfk Hfree].
    apply andb_true_iff in Hfree as [Hfv Hfree].
    apply (uniform_bind (room k) (room v + rooms items) (λ c, dec k c true));
      [by apply Hk |].
    intros key. simpl.
    apply (uniform_bind (room v) (rooms items) (λ c, dec v c false));
      [by apply Hv |].
    intros val. simpl.
    apply (uniform_pure_bind (rooms items) (dict_setitem out key val)
             (λ out' c, decode_pairs dec items c out')).
    intros out'. apply IH; [unfold ltof; simpl; lia | done | done].
Qed.

Lemma decode_elems_uniform (payload : pyval) :
  uniform_at dec payload → Forall (uniform_at dec) (elems_of payload) →
  ref_free payload = true →
  uniform (room payload) (decode_elems dec payload).
Proof.
  intros Hp He Hfree. unfold decode_elems.
  assert (Hone : uniform (room payload)
                   (λ c, dec payload c false ≫= λ '(v, c'), Ok (PList [v], c'))).
  { eapply uniform_mono;
      [| apply (uniform_bind (room payload) 0 (λ c, dec payload c false));
         [by apply Hp |]].
    - lia.
    - intros v. apply uniform_ret. }
  destruct payload; try exact Hone.
  simpl in *. eapply uniform_mono;
    [| apply (uniform_bind (rooms l) 0 (decode_each dec l));
       [by apply decode_each_uniform |]].
  - unfold rooms. lia.
  - intros vs. apply uniform_ret.
Qed.

Lemma decode_tagged_uniform (tag : pystr) (payload : pyval) :
  uniform_at dec payload → Forall (uniform_at dec) (elems_of payload) →
  ref_free payload = true →
  uniform (room payload) (decode_tagged dec tag payload).
Proof.
  intros Hp He Hfree. unfold decode_tagged.
  assert (Hrest : uniform (room payload)
            (λ c, if str_eqb tag (py "ordered-set")
                  then decode_elems dec payload c else dec payload c false)).
  { destruct (str_eqb tag (py "ordered-set"));
      [by apply decode_elems_uniform | by apply Hp]. }
  cbv zeta.
  destruct (str_eqb tag (py "set")); [by apply decode_elems_uniform |].
  destruct (str_eqb tag (py "list")); [by apply decode_elems_uniform |].
  destruct (str_eqb tag (py "cmap")); [| exact Hrest].
  destruct payload; try exact Hrest.
  simpl in *. eapply uniform_mono;
    [| apply (uniform_bind (rooms l) 0 (λ c, decode_pairs dec l c []));
       [by apply decode_pairs_uniform |]].
  - unfold rooms. lia.
  - intros vs. apply uniform_ret.
Qed.
Lemma _decode_list_uniform (lst : list pyval) :
  Forall (λ v, uniform_at dec v ∧ Forall (uniform_at dec) (elems_of v)) lst →
  forallb ref_free lst = true →
  uniform (1 + rooms lst) (_decode_list dec lst).
Proof.
  intros Hall Hfree.
  assert (Hflat : Forall (uniform_at dec) lst)
    by (eapply Forall_impl; [done | by intros ? [? ?]]).
  assert (Hplain : uniform (rooms lst)
            (λ c, decode_each dec lst c ≫= λ '(vs, c2), Ok (PList vs, c2))).
  { eapply uniform_mono;
      [| apply (uniform_bind (rooms lst) 0 (decode_each dec lst));
         [by apply decode_each_uniform |]].
    - lia.
    - intros vs. apply uniform_ret. }
  unfold _decode_list. destruct lst as [| first items].
  { eapply uniform_mono; [| apply uniform_ret]. lia. }
  simpl in Hfree. apply andb_true_iff in Hfree as [Hff Hfi].
  inversion Hflat as [| ? ? _ Hfitems]; subst.
  destruct (is_str first (py "^ ")) eqn:Hsent.
  { eapply uniform_mono;
      [| apply (uniform_bind (rooms items) 0 (λ c, decode_pairs dec items c []));
         [by apply decode_pairs_uniform |]].
    - simpl. lia.
    - intros out. apply uniform_ret. }
  apply (uniform_bind 1 (rooms (first :: items))
           (λ c, match first with
                 | PStr s =>
                     if startswith s (py "~#") then
                       c1 ← cache c s false; Ok (Some s, c1)
                     else if is_cache_ref s then
                       match resolve c s with
                       | Some resolved =>
                           if startswith resolved (py "~#") then Ok (Some resolved, c)
                           else Ok (None, c)
                       | None => Ok (None, c)
                       end
                     else Ok (None, c)
                 | _ => Ok (None, c)
                 end)).
  - assert (Hnone : uniform 1 (λ c, Ok (@None pystr, c)))
      by (eapply uniform_mono; [| apply uniform_ret]; lia).
    destruct first as [| | | | s | |]; try exact Hnone.
    destruct (startswith s (py "~#")).
    + apply (uniform_cache_bind 0 s false). apply uniform_ret.
    + simpl in Hff, Hsent. rewrite Hsent, orb_false_r in Hff.
      apply negb_true_iff in Hff. rewrite Hff. exact Hnone.
  - intros [t |]; simpl; [| exact Hplain].
    destruct items as [| payload more]; [exact Hplain |].
    inversion Hall as [| ? ? _ Hall']; subst.
    inversion Hall' as [| ? ? [Hp He] _]; subst.
    simpl in Hfi. apply andb_true_iff in Hfi as [Hfp _].
    eapply uniform_mono; [| by apply decode_tagged_uniform]. simpl. lia.
Qed.

Lemma _decode_tagged_verbose_uniform (tag : pystr) (payload : pyval) :
  uniform_at dec payload → Forall (uniform_at dec) (elems_of payload) →
  ref_free payload = true →
  uniform (room payload) (_decode_tagged_verbose dec tag payload).
Proof.
  intros Hp He Hfree. unfold _decode_tagged_verbose.
  destruct (str_eqb tag (py "uri")); [| by apply decode_tagged_uniform].
  destruct payload;
    (eapply uniform_mono;
     [| first [ apply uniform_ret
              | apply (uniform_pure_bind 0 _ (λ s c, Ok (PStr s, c)));
                intros; apply uniform_ret ]]); lia.
Qed.

Lemma decode_items_uniform (items : list (pyval * pyval)) :
  Forall (λ kv, uniform_at dec kv.2) items →
  forallb (λ kv, ref_free kv.1 && ref_free kv.2) items = true →
  ∀ out, uniform (rooms_items items) (λ c, decode_items dec items c out).
Proof.
  induction 1 as [| [k v] items Hv _ IH]; simpl; intros Hfree out.
  - apply uniform_ret.
  - apply andb_true_iff in Hfree as [Hkv Hfree].
    apply andb_true_iff in Hkv as [Hfk Hfv].
    eapply uniform_mono;
      [| apply (uniform_bind (room k) (room v + rooms_items items)
                  (λ c, match k with
                        | PStr s => _decode_str s c true
                        | _ => Ok (k, c)
                        end))]; [lia | |].
    { destruct k; try (eapply uniform_mono; [| apply uniform_ret]; lia).
      by apply _decode_str_uniform. }
    intros dk. simpl.
    apply (uniform_bind (room v) (rooms_items items) (λ c, dec v c false));
      [by apply Hv |].
    intros dv. simpl.
    apply (uniform_pure_bind (rooms_items items) (dict_setitem out dk dv)
             (λ out' c, decode_items dec items c out')).
    intros out'. by apply IH.
Qed.

Lemma decode_dict_uniform (items : list (pyval * pyval)) :
  Forall (λ kv, uniform_at dec kv.2 ∧ Forall (uniform_at dec) (elems_of kv.2)) items →
  forallb (λ kv, ref_free kv.1 && ref_free kv.2) items = true →
  uniform (1 + rooms_items items) (decode_dict dec items).
Proof.
  intros Hall Hfree. unfold decode_dict. cbv zeta.
  assert (Hgen : uniform (1 + rooms_items items)
            (λ c, decode_items dec items c [] ≫= λ '(out, c'), Ok (PDict out, c'))).
  { eapply uniform_mono;
      [| apply (uniform_bind (rooms_items items) 0 (λ c, decode_items dec items c []));
         [apply decode_items_uniform;
            [eapply Forall_impl; [done | by intros ? [? ?]] | done] |]].
    - lia.
    - intros out. apply uniform_ret. }
  destruct items as [| [k payload] [| ? ?]]; try exact Hgen;
    destruct k; try exact Hgen.
  destruct (startswith s (py "~#")); [| exact Hgen].
  inversion Hall as [| ? ? [Hp He] _]; subst. simpl in *.
  rewrite andb_true_r in Hfree. apply andb_true_iff in Hfree as [_ Hfp].
  apply (uniform_cache_bind (1 + room payload + 0) s false).
  eapply uniform_mono; [| by apply _decode_tagged_verbose_uniform]. lia.
Qed.
End WalkUniform.

Lemma _decode_uniform (v : pyval) : uniform_at _decode v.
Proof.
  induction v as [| | | | s | l IH | items IH] using pyval_walk_ind;
    intros Hfree k; try (apply uniform_ret).
  - by apply _decode_str_uniform.
  - change (uniform (1 + rooms l) (_decode_list _decode l)).
    by apply _decode_list_uniform.
  - change (uniform (1 + rooms_items items) (decode_dict _decode items)).
    by apply decode_dict_uniform.
Qed.

(** ** The two forms of a map *)

Lemma decode_transit_tree (data : pyval) :
  (∀ text, data ≠ PStr text) →
  decode_transit data = '(v, _) ← _decode data new_Cache false; Ok v.
Proof. intros Hne. destruct data; try done. by destruct (Hne s). Qed.

Lemma verbose_cmap_pairs (p : list pyval) (c : _Cache) (k : bool) :
  _decode (PDict [(str "~#cmap", PList p)]) c k =
    c1 ← cache c (py "~#cmap") false;
    '(out, c') ← decode_pairs _decode p c1 []; Ok (PDict out, c').
Proof. reflexivity. Qed.

Lemma compact_map_pairs (p : list pyval) (c : _Cache) (k : bool) :
  _decode (PList (str "^ " :: p)) c k =
    '(out, c') ← decode_pairs _decode p c []; Ok (PDict out, c').
Proof. reflexivity. Qed.

(** C8, as the code has it: the verbose form [{"~#cmap": [...]}] and the
    compact form [["^ ", ...]] of the payload ["~:a", 1, "~:b", 2] both
    decode to [{"a": 1, "b": 2}], keys in the order a, b; and for every
    flat payload that holds no cache reference (and leaves room in the
    code space) the two forms decode to the same mapping, or raise the
    same exception. *)
Theorem map_forms_agree :
  decode_transit (PDict [(str "~#cmap", PList [str "~:a"; PInt 1; str "~:b"; PInt 2])])
  = Ok (PDict [(str "a", PInt 1); (str "b", PInt 2)])
  ∧ decode_transit (PList [str "^ "; str "~:a"; PInt 1; str "~:b"; PInt 2])
    = Ok (PDict [(str "a", PInt 1); (str "b", PInt 2)])
  ∧ ∀ p : list pyval,
      forallb ref_free p = true →
      (rooms p + 1 <= ref_limit)%N →
      decode_transit (PDict [(str "~#cmap", PList p)])
      = decode_transit (PList (str "^ " :: p)).
Proof.
  split; [by vm_compute |]. split; [by vm_compute |].
  intros p Hfree Hroom.
  rewrite !decode_transit_tree by done.
  rewrite verbose_cmap_pairs, compact_map_pairs, cache_rule.
  change (is_cacheable (py "~#cmap") false) with true. cbv iota.
  destruct (register_Ok new_Cache (py "~#cmap")) as (c1 & -> & Hidx & Hok);
    [by vm_compute |].
  rewrite bind_ret_l.
  pose proof (decode_pairs_uniform _decode p
                ltac:(apply Forall_forall; intros v _; apply _decode_uniform)
                Hfree [] c1 new_Cache (Hok cache_ok_new) cache_ok_new) as Hu.
  simpl in Hu. specialize (Hu ltac:(simpl in Hidx; lia) ltac:(simpl; lia)).
  destruct (decode_pairs _decode p c1 []) as [[out1 c1'] |],
           (decode_pairs _decode p new_Cache []) as [[out2 c2'] |]; try done.
  - by destruct Hu as (-> & _).
  - by subst.
Qed.

Lemma map_forms_agree_witness :
  decode_transit
    (PDict [(str "~#cmap", PList [str "~:key1"; PList [str "~:aaaa"; str "~:aaaa"];
                                   PInt 7; str "~#tag"])])
  = decode_transit
      (PList [str "^ "; str "~:key1"; PList [str "~:aaaa"; str "~:aaaa"];
              PInt 7; str "~#tag"]).
Proof.
  exact (proj2 (proj2 map_forms_agree)
           [str "~:key1"; PList [str "~:aaaa"; str "~:aaaa"]; PInt 7; str "~#tag"]
           ltac:(vm_compute; reflexivity) ltac:(vm_compute; discriminate)).
Defined.

(** C8, as stated, fails for a payload that holds a reference: the
    verbose form registers its key ["~#cmap"] first, so ["^0"] is the
    keyword in the compact form and the tag in the verbose one. *)
Lemma map_forms_differ_on_reference :
  decode_transit
    (PDict [(str "~#cmap", PList [str "~:aaaa"; PInt 1; str "~:b"; str "^0"])])
  ≠ decode_transit (PList [str "^ "; str "~:aaaa"; PInt 1; str "~:b"; str "^0"]).
Proof. by vm_compute. Qed.

(** ** References, once given out *)

Lemma _decode_str_registers (s : pystr) (c c1 : _Cache) (k : bool) (v : pyval) :
  is_cache_ref s = false → is_cacheable s k = true →
  _decode_str s c k = Ok (v, c1) →
  register c s = Ok c1 ∧ _parse_tagged s = Ok v.
Proof.
  intros Href Hc. unfold _decode_str. rewrite Href, cache_rule, Hc.
  intros H. inv_bind H. rename a into c'.
  destruct ((2 <=? length s) && char_is s 0 (ch "~")) eqn:Ht.
  - inv_bind H. injection H as <- <-. done.
  - injection H as <- <-. split; [done |].
    unfold char_is in Ht. destruct s as [| c0 [| t rest]]; try done.
    simpl in Ht. unfold _parse_tagged. by rewrite Ht.
Qed.

(** X1: once a cacheable string has been decoded, from a cache whose
    keys are the codes given out so far, as every cache of a walk is,
    the reference code of the index it took decodes to the same value at
    every later point of the walk, in any role, and leaves the cache as
    it is. *)
Theorem reference_decodes_as_registered (s : pystr) (c c1 c2 : _Cache)
    (k k' : bool) (v : pyval) :
  cache_ok c →
  is_cache_ref s = false → is_cacheable s k = true →
  _decode_str s c k = Ok (v, c1) →
  grows c1 c2 →
  ∃ ref, _ref_for (_idx c) = Ok ref ∧ _decode (PStr ref) c2 k' = Ok (v, c2).
Proof.
  intros Hok Href Hc Hdec [log Hlog].
  destruct (_decode_str_registers s c c1 k v Href Hc Hdec) as [Hreg Hv].
  destruct (register_slots _ _ _ Hreg) as (Hi & Hs & _ & _).
  destruct (register_all_slots _ _ _ Hlog) as (_ & _ & Hkeep & _).
  assert (Hslot : slot c2 (_idx c) = Some s) by (rewrite Hkeep by lia; exact Hs).
  unfold slot in Hslot. destruct (_ref_for (_idx c)) as [ref |] eqn:Hr; [| done].
  exists ref. split; [done |]. rewrite _decode_PStr. unfold _decode_str.
  destruct (_ref_for_shape _ _ Hr) as (x & rest & -> & _).
  change (is_cache_ref (ch "^" :: x :: rest)) with true. cbv iota.
  by rewrite Hslot, Hv.
Qed.

Lemma reference_decodes_as_registered_witness :
  ∃ ref, _ref_for 0 = Ok ref
         ∧ _decode (PStr ref)
             {| _map := <[py "^1" := py "~:name"]> (<[py "^0" := py "~m86400000"]> ∅);
                _idx := 2 |} true
           = Ok (str "1970-01-02T00:00:00+00:00",
                 {| _map := <[py "^1" := py "~:name"]> (<[py "^0" := py "~m86400000"]> ∅);
                    _idx := 2 |}).
Proof.
  apply (reference_decodes_as_registered (py "~m86400000") new_Cache
           {| _map := <[py "^0" := py "~m86400000"]> ∅; _idx := 1 |} _ true true).
  - exact cache_ok_new.
  - vm_compute; reflexivity.
  - vm_compute; reflexivity.
  - vm_compute; reflexivity.
  - exists [py "~:name"]. vm_compute; reflexivity.
Defined.

(** ** References not given out *)

(** X2: a string of the shape of a reference that is the code of no
    index given out so far, a stale reference, comes out as it is and
    leaves the cache alone; so does, in particular, the code of any
    index from the counter on. *)
Theorem stale_reference_unchanged (s : pystr) (c : _Cache) (k : bool) :
  cache_ok c →
  is_cache_ref s = true →
  (∀ i, (i < _idx c)%N → _ref_for i ≠ Ok s) →
  _decode (PStr s) c k = Ok (PStr s, c).
Proof.
  intros Hok Href Hno. rewrite _decode_PStr. unfold _decode_str. rewrite Href.
  unfold resolve. destruct (_map c !! s) as [t |] eqn:E; [| done].
  destruct (Hok s) as (i & Hi & Hr); [by rewrite E |]. by destruct (Hno i Hi).
Qed.

Lemma stale_reference_unchanged_witness :
  _decode (str "^1") new_Cache false = Ok (str "^1", new_Cache).
Proof.
  apply stale_reference_unchanged.
  - exact cache_ok_new.
  - vm_compute; reflexivity.
  - intros i Hi. simpl in Hi. lia.
Defined.

(** ** Escaped strings *)

(** X3: a string that begins with a tilde or a caret, written with the
    tilde of the escape before it, decodes to the string itself; in the
    place of a value the cache is left alone, and in the place of a key
    the cache is the one that [cache.cache] returns for the written
    string. *)
Theorem escaped_string_restored (s : pystr) (c : _Cache) :
  char_is s 0 (ch "~") || char_is s 0 (ch "^") = true →
  _decode (PStr (ch "~" :: s)) c false = Ok (PStr s, c)
  ∧ ∀ c', cache c (ch "~" :: s) true = Ok c' →
          _decode (PStr (ch "~" :: s)) c true = Ok (PStr s, c').
Proof.
  intros Hs. destruct s as [| x rest]; [done |].
  unfold char_is in Hs. simpl in Hs.
  assert (Hp : _parse_tagged (ch "~" :: x :: rest) = Ok (PStr (x :: rest))).
  { unfold _parse_tagged. norm_lit. simpl.
    destruct (N.eqb_spec x 126) as [-> | Hne]; [done |].
    destruct (N.eqb_spec x 94) as [-> | Hne']; [done | done]. }
  assert (Hn : is_cacheable (ch "~" :: x :: rest) false = false).
  { unfold is_cacheable, startswith. norm_lit. simpl.
    destruct (N.eqb_spec x 126) as [-> | Hne]; [by rewrite andb_false_r |].
    destruct (N.eqb_spec x 94) as [-> | Hne']; [by rewrite andb_false_r | done]. }
  split.
  - rewrite _decode_PStr. unfold _decode_str.
    change (is_cache_ref (ch "~" :: x :: rest)) with false. cbv iota.
    rewrite cache_rule, Hn, bind_ret_l.
    change ((2 <=? length (ch "~" :: x :: rest)) && char_is (ch "~" :: x :: rest) 0 (ch "~"))
      with true. cbv iota. by rewrite Hp.
  - intros c' Hc. rewrite _decode_PStr. unfold _decode_str.
    change (is_cache_ref (ch "~" :: x :: rest)) with false. cbv iota.
    rewrite Hc, bind_ret_l.
    change ((2 <=? length (ch "~" :: x :: rest)) && char_is (ch "~" :: x :: rest) 0 (ch "~"))
      with true. cbv iota. by rewrite Hp.
Qed.

Lemma escaped_string_restored_witness :
  _decode (str "~^0") new_Cache false = Ok (str "^0", new_Cache)
  ∧ ∀ c', cache new_Cache (py "~^0") true = Ok c' →
          _decode (str "~^0") new_Cache true = Ok (str "^0", c').
Proof.
  exact (escaped_string_restored (py "^0") new_Cache ltac:(vm_compute; reflexivity)).
Defined.

(** ** Integers *)

Lemma digits_value_app (l : pystr) (d : N) :
  digits_value (l ++ [d]) = (digits_value l * 10 + (Z.of_N d - 48))%Z.
Proof. unfold digits_value. by rewrite fold_left_app. Qed.

Lemma decimal_digits_spec (fuel : nat) (a : Z) :
  (0 <= a < 2 ^ Z.of_nat fuel)%Z → 0 < fuel →
  forallb is_digit (decimal_digits fuel a) = true
  ∧ decimal_digits fuel a ≠ []
  ∧ digits_value (decimal_digits fuel a) = a.
Proof.
  revert a. induction fuel as [| f IH]; intros a Ha Hf; [lia |]. simpl.
  destruct (Z.ltb_spec a 10) as [Hlt | Hge].
  - unfold is_digit, digits_value. simpl.
    replace (Z.of_N (Z.to_N (48 + a))) with (48 + a)%Z by lia.
    split; [| split; [done | lia]].
    rewrite andb_true_r. apply andb_true_iff. split; apply N.leb_le; lia.
  - rewrite Nat2Z.inj_succ, Z.pow_succ_r in Ha by lia.
    assert (0 < f) by (destruct f; [simpl in Ha; lia | lia]).
    assert (Hq : (0 <= a / 10 < 2 ^ Z.of_nat f)%Z).
    { split; [apply Z.div_pos; lia |]. apply Z.div_lt_upper_bound; lia. }
    destruct (IH (a / 10)%Z Hq ltac:(done)) as (Hd & Hne & Hv).
    pose proof (Z.mod_pos_bound a 10 ltac:(lia)) as Hm.
    split; [| split].
    + rewrite forallb_app, Hd. simpl. unfold is_digit.
      rewrite andb_true_r. apply andb_true_iff. split; apply N.leb_le; lia.
    + by destruct (decimal_digits f (a / 10)).
    + rewrite digits_value_app, Hv.
      replace (Z.of_N (Z.to_N (48 + a mod 10))) with (48 + a mod 10)%Z by lia.
      pose proof (Z.div_mod a 10 ltac:(lia)). lia.
Qed.

Lemma is_digit_plain (c : N) :
  is_digit c = true →
  is_space c = false ∧ c ≠ ch "_" ∧ c ≠ ch "-" ∧ c ≠ ch "+".
Proof.
  unfold is_digit, is_space. norm_lit. intros H.
  apply andb_true_iff in H as [H1 H2]. apply N.leb_le in H1, H2.
  split; [| lia].
  rewrite bool_decide_eq_false_2
    by (rewrite !elem_of_cons, elem_of_nil; lia).
  repeat match goal with
         | |- context [(?x <=? ?y)%N] => destruct (N.leb_spec x y); try lia
         end; done.
Qed.

Lemma underscores_ok_digits (s : pystr) (prev : option N) :
  forallb is_digit s = true → underscores_ok prev s = true.
Proof.
  revert prev. induction s as [| c s IH]; intros prev; simpl; [done |].
  intros H. apply andb_true_iff in H as [Hc Hs].
  destruct (is_digit_plain c Hc) as (_ & Hu & _).
  rewrite (proj2 (N.eqb_neq c (ch "_")) Hu). by apply IH.
Qed.

Lemma without_underscores_digits (s : pystr) :
  forallb is_digit s = true → without_underscores s = s.
Proof.
  unfold without_underscores. induction s as [| c s IH]; [done |]. simpl.
  intros H. apply andb_true_iff in H as [Hc Hs].
  destruct (is_digit_plain c Hc) as (_ & Hu & _). cbn.
  destruct (decide (c ≠ ch "_")); [| done]. f_equal. by apply IH.
Qed.

Lemma lstrip_id (c : N) (s : pystr) : is_space c = false → lstrip (c :: s) = c :: s.
Proof. intros H. unfold lstrip. simpl. by rewrite H. Qed.

Lemma strip_id (s : pystr) : Forall (λ c, is_space c = false) s → strip s = s.
Proof.
  intros H. unfold strip.
  assert (Hl : ∀ t, Forall (λ c, is_space c = false) t → lstrip t = t).
  { intros [| c t] Ht; [done |]. apply lstrip_id. by inversion Ht. }
  rewrite (Hl s H), (Hl (reverse s)) by (by apply Forall_reverse).
  apply reverse_involutive.
Qed.

(** [int(str(n))] is [n]. *)
Lemma py_int_str_int (n : Z) : py_int (str_int n) = Some n.
Proof.
  unfold str_int.
  set (a := Z.abs n).
  set (fuel := S (Z.to_nat (Z.log2 a))).
  assert (Ha : (0 <= a < 2 ^ Z.of_nat fuel)%Z).
  { subst fuel. pose proof (Z.log2_nonneg a).
    rewrite Nat2Z.inj_succ, Z2Nat.id by done.
    destruct (Z.eq_dec a 0%Z) as [-> | Hne]; [done |].
    pose proof (Z.log2_spec a ltac:(lia)). lia. }
  destruct (decimal_digits_spec fuel a Ha ltac:(subst fuel; lia)) as (Hd & Hne & Hv).
  set (ds := decimal_digits fuel a) in *.
  assert (Hsp : Forall (λ c, is_space c = false) ds).
  { apply Forall_forall. intros c Hc. rewrite forallb_forall in Hd.
    by destruct (is_digit_plain c (Hd c ltac:(by apply list_elem_of_In))). }
  assert (Hsign : split_sign ds = (false, ds)).
  { destruct ds as [| c ds']; [done |].
    simpl in Hd. apply andb_true_iff in Hd as [Hc _].
    destruct (is_digit_plain c Hc) as (_ & _ & Hm & Hp). unfold split_sign.
    by rewrite (proj2 (N.eqb_neq c (ch "-")) Hm), (proj2 (N.eqb_neq c (ch "+")) Hp). }
  assert (Hgood : underscores_ok None ds && forallb is_digit (without_underscores ds)
                  && negb (bool_decide (without_underscores ds = [])) = true).
  { rewrite (without_underscores_digits _ Hd), (underscores_ok_digits _ None Hd), Hd.
    by rewrite bool_decide_eq_false_2. }
  unfold py_int. destruct (Z.ltb_spec n 0) as [Hneg | Hpos].
  - rewrite strip_id by (constructor; [by vm_compute | done]).
    change (split_sign (py "-" ++ ds)) with (true, ds). cbv beta iota zeta.
    rewrite Hgood, (without_underscores_digits _ Hd), Hv. f_equal. subst a. lia.
  - simpl. rewrite strip_id, Hsign by done. cbv beta iota zeta.
    rewrite Hgood, (without_underscores_digits _ Hd), Hv. f_equal. subst a. lia.
Qed.

(** X4: every integer, written as ["~i"] or ["~n"] followed by its
    decimal digits, with a minus before them when it is negative,
    decodes to itself, and in the place of a value the cache is left
    alone. (The limit of [int] on the length of a literal, 4300 digits
    unless configured otherwise, is not applied, as said of [py_int].) *)
Theorem integer_round_trips (n : Z) (c : _Cache) :
  _decode (PStr (py "~i" ++ str_int n)) c false = Ok (PInt n, c)
  ∧ _decode (PStr (py "~n" ++ str_int n)) c false = Ok (PInt n, c).
Proof.
  assert (Hi : int_str (str_int n) = Ok n) by (unfold int_str; by rewrite py_int_str_int).
  split; rewrite _decode_PStr; unfold _decode_str; norm_lit; simpl app.
  - change (is_cache_ref (126%N :: 105%N :: str_int n)) with false. cbv iota.
    rewrite cache_rule.
    assert (Hn : is_cacheable (126%N :: 105%N :: str_int n) false = false)
      by (unfold is_cacheable, startswith; norm_lit; simpl; by rewrite andb_false_r).
    rewrite Hn, bind_ret_l.
    change ((2 <=? length (126%N :: 105%N :: str_int n))
            && char_is (126%N :: 105%N :: str_int n) 0 (ch "~")) with true.
    cbv iota. unfold _parse_tagged. norm_lit. simpl. by rewrite Hi.
  - change (is_cache_ref (126%N :: 110%N :: str_int n)) with false. cbv iota.
    rewrite cache_rule.
    assert (Hn : is_cacheable (126%N :: 110%N :: str_int n) false = false)
      by (unfold is_cacheable, startswith; norm_lit; simpl; by rewrite andb_false_r).
    rewrite Hn, bind_ret_l.
    change ((2 <=? length (126%N :: 110%N :: str_int n))
            && char_is (126%N :: 110%N :: str_int n) 0 (ch "~")) with true.
    cbv iota. unfold _parse_tagged. norm_lit. simpl. by rewrite Hi.
Qed.

(** ** Text that is not JSON *)

Lemma json_loads_marker (x : N) (rest : pystr) :
  x = ch "~" ∨ x = ch "^" → json_loads (x :: rest) = Raise JSONDecodeError.
Proof.
  intros [-> | ->]; unfold json_loads; norm_lit; simpl length.
  - change (startswith (126%N :: rest) [65279%N]) with false. cbv iota.
    change (skip_ws (126%N :: rest)) with (126%N :: rest).
    rewrite Nat.add_comm. reflexivity.
  - change (startswith (94%N :: rest) [65279%N]) with false. cbv iota.
    change (skip_ws (94%N :: rest)) with (94%N :: rest).
    rewrite Nat.add_comm. reflexivity.
Qed.

(** X5: a [str] argument that begins with a tilde or a caret is not JSON
    text, and the entry point returns it as it came: a tagged scalar or
    a reference passed bare, without its double quotes, is not
    decoded. *)
Theorem bare_marker_text_unchanged (x : N) (rest : pystr) :
  x = ch "~" ∨ x = ch "^" →
  decode_transit (PStr (x :: rest)) = Ok (PStr (x :: rest)).
Proof.
  intros Hx. unfold decode_transit. by rewrite (json_loads_marker x rest Hx).
Qed.

Lemma bare_marker_text_unchanged_witness :
  decode_transit (str "~m0") = Ok (str "~m0").
Proof.
  exact (bare_marker_text_unchanged (ch "~") (py "m0") ltac:(left; reflexivity)).
Defined.

(** ** An object and its array form *)

Lemma decode_items_pairs (items : list (pyval * pyval)) :
  forallb (λ kv, hashable kv.1) items = true →
  ∀ c out,
    decode_items _decode items c out
    = decode_pairs _decode (flat_map (λ kv, [kv.1; kv.2]) items) c out.
Proof.
  induction items as [| [k v] items IH]; intros Hh c out; [done |].
  simpl in Hh. apply andb_true_iff in Hh as [Hk Hh]. simpl.
  assert (Hkey : match k with
                 | PStr s => _decode_str s c true
                 | _ => Ok (k, c)
                 end = _decode k c true) by (by destruct k).
  rewrite Hkey. destruct (_decode k c true) as [[dk c1] |]; [| done]. simpl.
  destruct (_decode v c1 false) as [[dv c2] |]; [| done]. simpl.
  destruct (dict_setitem out dk dv) as [out' |]; [| done]. simpl.
  by apply IH.
Qed.

(** X6: a JSON object that is not a verbose tagged value decodes as the
    array that holds the sentinel ["^ "] and then its keys and values in
    turn: the same mapping, the same registrations, the same exception,
    from any cache. *)
Theorem object_form_is_sentinel_form (items : list (pyval * pyval)) (c : _Cache)
    (k : bool) :
  forallb (λ kv, hashable kv.1) items = true →
  verbose_tagged items = false →
  _decode (PDict items) c k = _decode (sentinel_form items) c k.
Proof.
  intros Hh Hv. unfold sentinel_form. rewrite compact_map_pairs, _decode_PDict.
  rewrite <- decode_items_pairs by done.
  unfold decode_dict. cbv zeta. unfold verbose_tagged in Hv.
  destruct items as [| [key payload] [| ? ?]]; try done;
    destruct key; try done. by rewrite Hv.
Qed.

Lemma object_form_is_sentinel_form_witness :
  _decode (PDict [(str "~:name", str "~:rect"); (str "~:size", PList [PInt 1; str "^0"])])
    new_Cache false
  = _decode (PList [str "^ "; str "~:name"; str "~:rect";
                    str "~:size"; PList [PInt 1; str "^0"]]) new_Cache false.
Proof.
  exact (object_form_is_sentinel_form
           [(str "~:name", str "~:rect"); (str "~:size", PList [PInt 1; str "^0"])]
           new_Cache false ltac:(vm_compute; reflexivity) ltac:(vm_compute; reflexivity)).
Defined.

(** ** The two writings of a tagged value *)

(** X7: the object [{"~#tag": payload}] and the array
    [["~#tag", payload]] decode alike, to the same value with the same
    registrations or to the same exception, for every tag but ["uri"].
    For ["uri"] both register the tag and then part: the object gives the
    payload as it is when it is a string, and [str(payload)] with the
    exception of [str] otherwise, and walks nothing; the array decodes
    the payload as it decodes any value. *)
Theorem tagged_object_is_tagged_array (t : pystr) (payload : pyval) (c : _Cache)
    (k k' : bool) :
  startswith t (py "~#") = true →
  (drop 2 t ≠ py "uri" →
   _decode (PDict [(PStr t, payload)]) c k = _decode (PList [PStr t; payload]) c k')
  ∧ (drop 2 t = py "uri" →
     _decode (PDict [(PStr t, payload)]) c k
     = (c1 ← cache c t false;
        match payload with
        | PStr _ => Ok (payload, c1)
        | _ => s ← str_checked payload; Ok (PStr s, c1)
        end)
     ∧ _decode (PList [PStr t; payload]) c k'
       = (c1 ← cache c t false; _decode payload c1 false)).
Proof.
  intros Ht. split; intros Htag.
  - rewrite (_decode_list_header t _ c k' Ht), _decode_PDict.
    unfold decode_dict. cbv zeta. rewrite Ht.
    destruct (cache c t false) as [c1 |]; [| done]. rewrite !bind_ret_l.
    unfold _decode_tagged_verbose.
    by rewrite (bool_decide_eq_false_2 _ Htag : str_eqb (drop 2 t) (py "uri") = false).
  - split.
    + rewrite _decode_PDict. unfold decode_dict. cbv zeta. rewrite Ht.
      destruct (cache c t false) as [c1 |]; [| done]. rewrite !bind_ret_l.
      unfold _decode_tagged_verbose.
      by rewrite (bool_decide_eq_true_2 _ Htag : str_eqb (drop 2 t) (py "uri") = true).
    + rewrite (_decode_list_header t _ c k' Ht), Htag.
      destruct (cache c t false) as [c1 |]; [| done]. rewrite !bind_ret_l.
      unfold decode_tagged. by destruct payload.
Qed.

Lemma tagged_object_is_tagged_array_witness :
  _decode (PDict [(str "~#point", PList [PInt 1; str "~:unit"])]) new_Cache false
  = _decode (PList [str "~#point"; PList [PInt 1; str "~:unit"]]) new_Cache true
  ∧ _decode (PDict [(str "~#uri", str "~:page")]) new_Cache false
    = (c1 ← cache new_Cache (py "~#uri") false; Ok (str "~:page", c1))
  ∧ _decode (PList [str "~#uri"; str "~:page"]) new_Cache true
    = (c1 ← cache new_Cache (py "~#uri") false; _decode (str "~:page") c1 false).
Proof.
  split.
  - exact (proj1 (tagged_object_is_tagged_array (py "~#point")
                    (PList [PInt 1; str "~:unit"]) new_Cache false true
                    ltac:(vm_compute; reflexivity))
             ltac:(vm_compute; discriminate)).
  - exact (proj2 (tagged_object_is_tagged_array (py "~#uri")
                    (str "~:page") new_Cache false true
                    ltac:(vm_compute; reflexivity))
             ltac:(vm_compute; reflexivity)).
Defined.

(** ** What follows the payload *)

Lemma _decode_list_by_reference (ref t : pystr) (rest : list pyval) (c : _Cache)
    (k : bool) :
  cache_ok c → resolve c ref = Some t → startswith t (py "~#") = true →
  _decode (PList (PStr ref :: rest)) c k =
    match rest with
    | payload :: _ => decode_tagged _decode (drop 2 t) payload c
    | [] => '(vs, c2) ← decode_each _decode (PStr ref :: rest) c; Ok (PList vs, c2)
    end.
Proof.
  intros Hok Hres Ht. rewrite _decode_PList. unfold _decode_list.
  destruct (Hok ref) as (i & _ & Hi); [unfold resolve in Hres; by rewrite Hres |].
  destruct (_ref_for_shape _ _ Hi) as (x & tail & -> & Hx).
  assert (Hsent : is_str (PStr (ch "^" :: x :: tail)) (py "^ ") = false).
  { apply bool_decide_eq_false_2. norm_lit. intros [= -> _]. vm_compute in Hx.
    by destruct Hx. }
  rewrite Hsent.
  change (startswith (ch "^" :: x :: tail) (py "~#")) with false.
  change (is_cache_ref (ch "^" :: x :: tail)) with true. cbv iota.
  rewrite Hres, Ht, bind_ret_l. by destruct rest.
Qed.

(** X8: in an array whose head is a tag header, written out or given
    by a reference that resolves to one, only the element after the head
    is decoded: whatever follows it is dropped, neither decoded nor
    registered, and the result is that of the array of the head and the
    payload alone. *)
Theorem after_payload_ignored (payload : pyval) (more : list pyval) (c : _Cache)
    (k : bool) :
  (∀ t, startswith t (py "~#") = true →
        _decode (PList (PStr t :: payload :: more)) c k
        = _decode (PList [PStr t; payload]) c k)
  ∧ (∀ ref t,
       cache_ok c → resolve c ref = Some t → startswith t (py "~#") = true →
       _decode (PList (PStr ref :: payload :: more)) c k
       = _decode (PList [PStr ref; payload]) c k).
Proof.
  split.
  - intros t Ht. by rewrite !(_decode_list_header t _ c k Ht).
  - intros ref t Hok Hres Ht.
    by rewrite !(_decode_list_by_reference ref t _ c k Hok Hres Ht).
Qed.

Lemma after_payload_ignored_witness :
  _decode (PList [str "~#point"; PList [PInt 1; PInt 2]; str "~:dropped"; PInt 3])
    new_Cache false
  = _decode (PList [str "~#point"; PList [PInt 1; PInt 2]]) new_Cache false.
Proof.
  exact (proj1 (after_payload_ignored (PList [PInt 1; PInt 2]) [str "~:dropped"; PInt 3]
                  new_Cache false)
           (py "~#point") ltac:(vm_compute; reflexivity)).
Defined.

(** ** What the walk raises

    Three exceptions leave the walk and no other: the [TypeError] of a
    key that has no hash, the [OverflowError] of an instant, and a
    [ValueError], that of [chr] when the counter of the cache has passed
    the last code, or that of [str] on an [int] beyond the limit on
    digits, under the tag [uri]. *)

Lemma bounded_mono {A} (big : Prop) (n n' : N) (m : _Cache → result (A * _Cache)) :
  (n <= n')%N → bounded big n m → bounded big n' m.
Proof.
  intros Hle Hm c. specialize (Hm c). destruct (m c) as [[a c'] | e].
  - destruct Hm as (d & ? & ?). exists d. split; [lia | done].
  - destruct Hm as [? | [? [? | ?]]]; [by left | right; split; [done | left; lia] |].
    right. split; [done | by right].
Qed.

Lemma bounded_ret {A} (big : Prop) (a : A) : bounded big 0 (λ c, Ok (a, c)).
Proof. intros c. exists 0%N. split; lia. Qed.

Lemma bounded_bind {A B} (big : Prop) (n1 n2 : N) (m : _Cache → result (A * _Cache))
    (g : A * _Cache → result (B * _Cache)) :
  bounded big n1 m → (∀ a, bounded big n2 (λ c, g (a, c))) →
  bounded big (n1 + n2) (λ c, m c ≫= g).
Proof.
  intros Hm Hg c. specialize (Hm c). destruct (m c) as [[a c'] | e]; simpl.
  - destruct Hm as (d & Hd & E). specialize (Hg a c'). simpl in Hg.
    destruct (g (a, c')) as [[b c''] | e].
    + destruct Hg as (d' & ? & ?). exists (d + d')%N. split; lia.
    + destruct Hg as [? | [? [? | ?]]]; [by left | right; split; [done | left; lia] |].
      right. split; [done | by right].
  - destruct Hm as [? | [? [? | ?]]]; [by left | right; split; [done | left; lia] |].
    right. split; [done | by right].
Qed.

Lemma bounded_pure_bind {A B} (big : Prop) (n : N) (r : result A)
    (f : A → _Cache → result (B * _Cache)) :
  (∀ e, r = Raise e → escapes e) →
  (∀ a, bounded big n (f a)) → bounded big n (λ c, r ≫= λ a, f a c).
Proof.
  intros Hr Hf c. destruct r as [a | e]; simpl; [apply Hf | left; by apply Hr].
Qed.

(** [str(payload)]: the one exception is that of the limit. *)
Lemma bounded_str (big : Prop) (payload : pyval) :
  (over_limit payload → big) →
  bounded big 0 (λ c, str_checked payload ≫= λ s, Ok (PStr s, c)).
Proof.
  intros Hbig c. unfold str_checked.
  destruct (digits_within_limit payload) eqn:E; simpl.
  - exists 0%N. split; lia.
  - right. split; [done |]. right. by apply Hbig.
Qed.

Lemma register_Raise (c : _Cache) (s : pystr) (e : exn) :
  register c s = Raise e → e = ValueError ∧ (ref_limit <= _idx c)%N.
Proof.
  unfold register. rewrite _ref_for_value.
  destruct (N.ltb_spec (_idx c) 44); [done |].
  destruct (N.ltb_spec (_idx c) ref_limit); [done |]. simpl. by intros [= <-].
Qed.

Lemma bounded_cache_bind {B} (big : Prop) (n : N) (s : pystr) (k : bool)
    (F : _Cache → result (B * _Cache)) :
  bounded big n F → bounded big (1 + n) (λ c, cache c s k ≫= F).
Proof.
  intros HF c. rewrite cache_rule. destruct (is_cacheable s k).
  - destruct (register c s) as [c1 | e] eqn:Hreg; simpl.
    + destruct (register_slots _ _ _ Hreg) as (Hi & _).
      specialize (HF c1). destruct (F c1) as [[b c'] | e].
      * destruct HF as (d & ? & ?). exists (1 + d)%N. split; lia.
      * destruct HF as [? | [? [? | ?]]];
          [by left | right; split; [done | left; lia] |].
        right. split; [done | by right].
    + apply register_Raise in Hreg as [-> ?]. right. split; [done | left; lia].
  - simpl. specialize (HF c). destruct (F c) as [[b c'] | e].
    + destruct HF as (d & ? & ?). exists d. split; lia.
    + destruct HF as [? | [? [? | ?]]];
        [by left | right; split; [done | left; lia] |].
      right. split; [done | by right].
Qed.

(** An [int] beyond the limit in a part is one in the whole. *)
Lemma over_limit_head (x : pyval) (l : list pyval) :
  over_limit x → over_limit (PList (x :: l)).
Proof. unfold over_limit. simpl. by intros ->. Qed.

Lemma over_limit_tail (x : pyval) (l : list pyval) :
  over_limit (PList l) → over_limit (PList (x :: l)).
Proof. unfold over_limit. simpl. intros ->. apply andb_false_r. Qed.

Lemma over_limit_value (k v : pyval) (items : list (pyval * pyval)) :
  over_limit v → over_limit (PDict ((k, v) :: items)).
Proof. unfold over_limit. simpl. intros ->. by rewrite andb_false_r. Qed.

Lemma over_limit_items (kv : pyval * pyval) (items : list (pyval * pyval)) :
  over_limit (PDict items) → over_limit (PDict (kv :: items)).
Proof. unfold over_limit. simpl. intros ->. apply andb_false_r. Qed.

Lemma int_truediv_1000_raises (n : Z) (e : exn) :
  int_truediv_1000 n = Raise e → e = OverflowError.
Proof. unfold int_truediv_1000. destruct (f64_of_Z n); congruence. Qed.

Lemma fromtimestamp_utc_raises (x : spec_float) (e : exn) :
  fromtimestamp_utc x = Raise e → e = OverflowError ∨ e = OSError ∨ e = ValueError.
Proof.
  unfold fromtimestamp_utc. cbv zeta. intros H.
  repeat case_match; simplify_eq; auto.
Qed.

Lemma instant_isoformat_raises (n : Z) (e : exn) :
  instant_isoformat n = Raise e → e = OverflowError ∨ e = OSError ∨ e = ValueError.
Proof.
  unfold instant_isoformat. intros H.
  destruct (int_truediv_1000 n) as [x | e1] eqn:E1.
  - rewrite bind_ret_l in H.
    destruct (fromtimestamp_utc x) as [dt | e2] eqn:E2; [done |].
    apply fromtimestamp_utc_raises in E2. injection H as <-. exact E2.
  - apply int_truediv_1000_raises in E1. injection H as <-. auto.
Qed.

(** The tagged scalar parser lets one exception through: the
    [OverflowError] of an instant. *)
Lemma _parse_tagged_raises (s : pystr) (e : exn) :
  _parse_tagged s = Raise e → e = OverflowError.
Proof.
  unfold _parse_tagged. destruct s as [| c0 [| tag rest]]; [done | done |].
  assert (Hint : ∀ (A : Type) (f : Z → result A) h,
            (∀ n, f n ≠ Raise e) →
            try_except (int_str rest ≫= f) [ValueError] (Ok h) ≠ Raise e).
  { intros A f h Hf. unfold int_str. destruct (py_int rest) as [n |]; simpl; [| done].
    specialize (Hf n). destruct (f n) as [a | e0]; simpl; [done |].
    by destruct (issubclass e0 ValueError || false). }
  intros H. repeat case_match; try done.
  - unfold try_except, int_str in H. destruct (py_int rest) as [n |]; simpl in H; [| done].
    destruct (instant_isoformat n) as [iso | e1] eqn:E; simpl in H; [done |].
    apply instant_isoformat_raises in E as [-> | [-> | ->]]; simpl in H;
      by simplify_eq.
  - by apply Hint in H.
  - unfold try_except, float_str in H. by destruct (py_float rest).
  - by apply Hint in H.
Qed.

Lemma dict_setitem_raises (out : list (pyval * pyval)) (key val : pyval) (e : exn) :
  dict_setitem out key val = Raise e → e = TypeError.
Proof. unfold dict_setitem. destruct (hashable key); [done | by intros [= <-]]. Qed.

Lemma _parse_tagged_escapes (s : pystr) (e : exn) :
  _parse_tagged s = Raise e → escapes e.
Proof. intros H. right. by eapply _parse_tagged_raises. Qed.

Lemma dict_setitem_escapes (out : list (pyval * pyval)) (key val : pyval) (e : exn) :
  dict_setitem out key val = Raise e → escapes e.
Proof. intros H. left. by eapply dict_setitem_raises. Qed.

Lemma _decode_str_bounded (big : Prop) (s : pystr) (k : bool) :
  bounded big 1 (λ c, _decode_str s c k).
Proof.
  unfold _decode_str. destruct (is_cache_ref s).
  - intros c. destruct (resolve c s) as [resolved |].
    + destruct (_parse_tagged resolved) as [v | e] eqn:E; simpl.
      * exists 0%N. split; lia.
      * left. by eapply _parse_tagged_escapes.
    + exists 0%N. split; lia.
  - apply (bounded_cache_bind big 0).
    destruct (_ && _); [| apply bounded_ret].
    apply (bounded_pure_bind big 0 (_parse_tagged s) (λ v c, Ok (v, c)));
      [apply _parse_tagged_escapes | intros v; apply bounded_ret].
Qed.

Section WalkBounded.
Variable big : Prop.
Variable dec : pyval → _Cache → bool → result (pyval * _Cache).

Lemma decode_each_bounded (elems : list pyval) :
  Forall (bounded_at big dec) elems → (over_limit (PList elems) → big) →
  bounded big (rooms elems) (decode_each dec elems).
Proof.
  induction 1 as [| e elems He _ IH]; simpl; intros Hbig.
  - apply bounded_ret.
  - apply (bounded_bind big (room e) (rooms elems) (λ c, dec e c false)).
    { apply He. intros Hover. by apply Hbig, over_limit_head. }
    intros v. simpl.
    eapply bounded_mono;
      [| apply (bounded_bind big (rooms elems) 0 (decode_each dec elems));
         [apply IH; intros Hover; by apply Hbig, over_limit_tail |]].
    + lia.
    + intros vs. apply bounded_ret.
Qed.

Lemma decode_pairs_bounded (items : list pyval) :
  Forall (bounded_at big dec) items → (over_limit (PList items) → big) →
  ∀ out, bounded big (rooms items) (λ c, decode_pairs dec items c out).
Proof.
  induction items as [items IH] using (induction_ltof1 _ length).
  intros Hall Hbig out. destruct items as [| k [| v items]]; simpl.
  - apply bounded_ret.
  - eapply bounded_mono; [| apply bounded_ret]. lia.
  - inversion Hall as [| ? ? Hk Hall']; subst.
    inversion Hall' as [| ? ? Hv Hall'']; subst.
    apply (bounded_bind big (room k) (room v + rooms items) (λ c, dec k c true)).
    { apply Hk. intros Hover. by apply Hbig, over_limit_head. }
    intros key. simpl.
    apply (bounded_bind big (room v) (rooms items) (λ c, dec v c false)).
    { apply Hv. intros Hover. by apply Hbig, over_limit_tail, over_limit_head. }
    intros val. simpl.
    apply (bounded_pure_bind big (rooms items) (dict_setitem out key val)
             (λ out' c, decode_pairs dec items c out'));
      [apply dict_setitem_escapes |].
    intros out'. apply IH; [unfold ltof; simpl; lia | done |].
    intros Hover. by apply Hbig, over_limit_tail, over_limit_tail.
Qed.

Lemma decode_elems_bounded (payload : pyval) :
  bounded_at big dec payload → Forall (bounded_at big dec) (elems_of payload) →
  (over_limit payload → big) →
  bounded big (room payload) (decode_elems dec payload).
Proof.
  intros Hp He Hbig. unfold decode_elems.
  assert (Hone : bounded big (room payload)
                   (λ c, dec payload c false ≫= λ '(v, c'), Ok (PList [v], c'))).
  { eapply bounded_mono;
      [| apply (bounded_bind big (room payload) 0 (λ c, dec payload c false));
         [by apply Hp |]].
    - lia.
    - intros v. apply bounded_ret. }
  destruct payload; try exact Hone.
  simpl in *. eapply bounded_mono;
    [| apply (bounded_bind big (rooms l) 0 (decode_each dec l));
       [by apply decode_each_bounded |]].
  - unfold rooms. lia.
  - intros vs. apply bounded_ret.
Qed.

Lemma decode_tagged_bounded (tag : pystr) (payload : pyval) :
  bounded_at big dec payload → Forall (bounded_at big dec) (elems_of payload) →
  (over_limit payload → big) →
  bounded big (room payload) (decode_tagged dec tag payload).
Proof.
  intros Hp He Hbig. unfold decode_tagged.
  assert (Hrest : bounded big (room payload)
            (λ c, if str_eqb tag (py "ordered-set")
                  then decode_elems dec payload c else dec payload c false)).
  { destruct (str_eqb tag (py "ordered-set"));
      [by apply decode_elems_bounded | by apply Hp]. }
  cbv zeta.
  destruct (str_eqb tag (py "set")); [by apply decode_elems_bounded |].
  destruct (str_eqb tag (py "list")); [by apply decode_elems_bounded |].
  destruct (str_eqb tag (py "cmap")); [| exact Hrest].
  destruct payload; try exact Hrest.
  simpl in *. eapply bounded_mono;
    [| apply (bounded_bind big (rooms l) 0 (λ c, decode_pairs dec l c []));
       [by apply decode_pairs_bounded |]].
  - unfold rooms. lia.
  - intros vs. apply bounded_ret.
Qed.

Lemma _decode_list_bounded (lst : list pyval) :
  Forall (λ v, bounded_at big dec v ∧ Forall (bounded_at big dec) (elems_of v)) lst →
  (over_limit (PList lst) → big) →
  bounded big (1 + rooms lst) (_decode_list dec lst).
Proof.
  intros Hall Hbig.
  assert (Hflat : Forall (bounded_at big dec) lst)
    by (eapply Forall_impl; [done | by intros ? [? ?]]).
  assert (Hplain : bounded big (rooms lst)
            (λ c, decode_each dec lst c ≫= λ '(vs, c2), Ok (PList vs, c2))).
  { eapply bounded_mono;
      [| apply (bounded_bind big (rooms lst) 0 (decode_each dec lst));
         [by apply decode_each_bounded |]].
    - lia.
    - intros vs. apply bounded_ret. }
  unfold _decode_list. destruct lst as [| first items].
  { eapply bounded_mono; [| apply bounded_ret]. lia. }
  inversion Hflat as [| ? ? _ Hfitems]; subst.
  destruct (is_str first (py "^ ")).
  { eapply bounded_mono;
      [| apply (bounded_bind big (rooms items) 0 (λ c, decode_pairs dec items c []));
         [apply decode_pairs_bounded;
            [done | intros Hover; by apply Hbig, over_limit_tail] |]].
    - simpl. lia.
    - intros out. apply bounded_ret. }
  apply (bounded_bind big 1 (rooms (first :: items))
           (λ c, match first with
                 | PStr s =>
                     if startswith s (py "~#") then
                       c1 ← cache c s false; Ok (Some s, c1)
                     else if is_cache_ref s then
                       match resolve c s with
                       | Some resolved =>
                           if startswith resolved (py "~#") then Ok (Some resolved, c)
                           else Ok (None, c)
                       | None => Ok (None, c)
                       end
                     else Ok (None, c)
                 | _ => Ok (None, c)
                 end)).
  - assert (Hnone : bounded big 1 (λ c, Ok (@None pystr, c)))
      by (eapply bounded_mono; [| apply bounded_ret]; lia).
    destruct first as [| | | | s | |]; try exact Hnone.
    destruct (startswith s (py "~#")).
    + apply (bounded_cache_bind big 0 s false). apply bounded_ret.
    + destruct (is_cache_ref s); [| exact Hnone].
      intros c. destruct (resolve c s) as [resolved |]; [| apply Hnone].
      destruct (startswith resolved (py "~#")); exists 0%N; split; lia.
  - intros [t |]; simpl; [| exact Hplain].
    destruct items as [| payload more]; [exact Hplain |].
    inversion Hall as [| ? ? _ Hall']; subst.
    inversion Hall' as [| ? ? [Hp He] _]; subst.
    eapply bounded_mono; [| apply decode_tagged_bounded; [done | done |]].
    + simpl. lia.
    + intros Hover. by apply Hbig, over_limit_tail, over_limit_head.
Qed.

Lemma _decode_tagged_verbose_bounded (tag : pystr) (payload : pyval) :
  bounded_at big dec payload → Forall (bounded_at big dec) (elems_of payload) →
  (over_limit payload → big) →
  bounded big (room payload) (_decode_tagged_verbose dec tag payload).
Proof.
  intros Hp He Hbig. unfold _decode_tagged_verbose.
  destruct (str_eqb tag (py "uri")); [| by apply decode_tagged_bounded].
  destruct payload;
    (eapply bounded_mono;
     [| first [apply bounded_ret | by apply bounded_str]]); lia.
Qed.

Lemma decode_items_bounded (items : list (pyval * pyval)) :
  Forall (λ kv, bounded_at big dec kv.2) items → (over_limit (PDict items) → big) →
  ∀ out, bounded big (rooms_items items) (λ c, decode_items dec items c out).
Proof.
  induction 1 as [| [k v] items Hv _ IH]; simpl; intros Hbig out.
  - apply bounded_ret.
  - eapply bounded_mono;
      [| apply (bounded_bind big (room k) (room v + rooms_items items)
                  (λ c, match k with
                        | PStr s => _decode_str s c true
                        | _ => Ok (k, c)
                        end))]; [lia | |].
    { destruct k; try (eapply bounded_mono; [| apply bounded_ret]; lia).
      by apply _decode_str_bounded. }
    intros dk. simpl.
    apply (bounded_bind big (room v) (rooms_items items) (λ c, dec v c false)).
    { apply Hv. intros Hover. by apply Hbig, over_limit_value. }
    intros dv. simpl.
    apply (bounded_pure_bind big (rooms_items items) (dict_setitem out dk dv)
             (λ out' c, decode_items dec items c out'));
      [apply dict_setitem_escapes |].
    intros out'. apply IH. intros Hover. by apply Hbig, over_limit_items.
Qed.

Lemma decode_dict_bounded (items : list (pyval * pyval)) :
  Forall (λ kv, bounded_at big dec kv.2 ∧ Forall (bounded_at big dec) (elems_of kv.2))
         items →
  (over_limit (PDict items) → big) →
  bounded big (1 + rooms_items items) (decode_dict dec items).
Proof.
  intros Hall Hbig. unfold decode_dict. cbv zeta.
  assert (Hgen : bounded big (1 + rooms_items items)
            (λ c, decode_items dec items c [] ≫= λ '(out, c'), Ok (PDict out, c'))).
  { eapply bounded_mono;
      [| apply (bounded_bind big (rooms_items items) 0
                  (λ c, decode_items dec items c []));
         [apply decode_items_bounded;
            [eapply Forall_impl; [done | by intros ? [? ?]] | done] |]].
    - lia.
    - intros out. apply bounded_ret. }
  destruct items as [| [k payload] [| ? ?]]; try exact Hgen;
    destruct k; try exact Hgen.
  destruct (startswith s (py "~#")); [| exact Hgen].
  inversion Hall as [| ? ? [Hp He] _]; subst. simpl in *.
  apply (bounded_cache_bind big (1 + room payload + 0) s false).
  eapply bounded_mono; [| apply _decode_tagged_verbose_bounded; [done | done |]].
  - lia.
  - intros Hover. by apply Hbig, over_limit_value.
Qed.
End WalkBounded.

Lemma _decode_bounded (big : Prop) (v : pyval) : bounded_at big _decode v.
Proof.
  induction v as [| | | | s | l IH | items IH] using pyval_walk_ind;
    intros Hbig k; try (apply bounded_ret).
  - by apply _decode_str_bounded.
  - change (bounded big (1 + rooms l) (_decode_list _decode l)).
    by apply _decode_list_bounded.
  - change (bounded big (1 + rooms_items items) (decode_dict _decode items)).
    by apply decode_dict_bounded.
Qed.

(** X9: whatever the value, the cache and the role, the walk registers
    no more strings than [room] counts (one for a string, one more for
    an array or an object), and the exceptions that can leave it are the
    [TypeError] of a key without a hash, the [OverflowError] of an
    instant, and a [ValueError] in two cases only: of [chr], when the
    counter would pass the last code, 49018816, and of [str], when the
    value holds an [int] of more than 4300 digits, which the payload of
    a [uri] may be: [{"~#uri": 10 ** 4300}] raises it, where
    [{"~#uri": 12}] gives ["12"]. (The limit on
    digits is taken at its default; the recursion limit of the
    interpreter is not modelled.) *)
Theorem walk_registers_and_raises :
  (∀ v c k,
     match _decode v c k with
     | Ok (_, c') => (_idx c <= _idx c' <= _idx c + room v)%N
     | Raise e =>
         e = TypeError ∨ e = OverflowError
         ∨ (e = ValueError
            ∧ ((ref_limit < _idx c + room v)%N ∨ digits_within_limit v = false))
     end)
  ∧ _decode (PDict [(str "~#uri", PInt (10 ^ 4300))]) new_Cache false
    = Raise ValueError
  ∧ (∃ c, _decode (PDict [(str "~#uri", PInt 12)]) new_Cache false
          = Ok (str "12", c)).
Proof.
  split; [| split; [vm_compute; reflexivity | eexists; vm_compute; reflexivity]].
  intros v c k.
  pose proof (_decode_bounded (over_limit v) v (λ H, H) k c) as H. simpl in H.
  destruct (_decode v c k) as [[r c'] | e].
  - destruct H as (d & ? & ?). lia.
  - destruct H as [[? | ?] | ?]; auto.
Qed.

(** ** What the entry point raises on a text *)

Lemma rooms_app (l1 l2 : list pyval) : rooms (l1 ++ l2) = (rooms l1 + rooms l2)%N.
Proof. induction l1 as [| x l1 IH]; simpl; [done |]. rewrite IH. lia. Qed.

Lemma rooms_items_dict_store (out : list (pyval * pyval)) (k v : pyval) :
  (rooms_items (dict_store out k v) <= rooms_items out + room k + room v)%N.
Proof.
  induction out as [| [k0 v0] out IH]; simpl; [lia |].
  destruct (py_eq k0 k); simpl; lia.
Qed.

Lemma take_while_forallb (f : N → bool) (s : pystr) :
  forallb f (take_while f s) = true.
Proof.
  induction s as [| c s IH]; simpl; [done |].
  destruct (f c) eqn:E; simpl; [by rewrite E | done].
Qed.

Lemma filter_forallb (f : N → bool) (s : pystr) :
  forallb f s = true → List.filter f s = s.
Proof.
  induction s as [| c s IH]; simpl; [done |].
  intros H. apply andb_true_iff in H as [-> Hs]. by rewrite IH.
Qed.

(** A run of digits writes a number below the power of ten of its
    length. *)
Lemma digits_value_bound (ds : pystr) :
  forallb is_digit ds = true →
  (0 <= digits_value ds < 10 ^ Z.of_nat (length ds))%Z.
Proof.
  induction ds as [| d ds IH] using rev_ind; [by intros _ |].
  rewrite forallb_app. intros H. apply andb_true_iff in H as [Hds Hd].
  simpl in Hd. rewrite andb_true_r in Hd. unfold is_digit in Hd.
  apply andb_true_iff in Hd as [H1 H2]. apply N.leb_le in H1, H2.
  specialize (IH Hds). rewrite digits_value_app, length_app. simpl.
  rewrite Nat2Z.inj_add, Z.pow_add_r by lia.
  change (10 ^ Z.of_nat 1)%Z with 10%Z. lia.
Qed.

(** [int] on a run of digits, with a minus before it or not. *)
Lemma py_int_digits (neg : bool) (ds : pystr) :
  forallb is_digit ds = true → ds ≠ [] →
  py_int ((if neg then py "-" else []) ++ ds)
  = Some (if neg then - digits_value ds else digits_value ds)%Z.
Proof.
  intros Hd Hne.
  assert (Hsp : Forall (λ c, is_space c = false) ds).
  { apply Forall_forall. intros c Hc. rewrite forallb_forall in Hd.
    by destruct (is_digit_plain c (Hd c ltac:(by apply list_elem_of_In))). }
  assert (Hsign : split_sign ds = (false, ds)).
  { destruct ds as [| c ds']; [done |].
    simpl in Hd. apply andb_true_iff in Hd as [Hc _].
    destruct (is_digit_plain c Hc) as (_ & _ & Hm & Hp). unfold split_sign.
    by rewrite (proj2 (N.eqb_neq c (ch "-")) Hm), (proj2 (N.eqb_neq c (ch "+")) Hp). }
  assert (Hgood : underscores_ok None ds && forallb is_digit (without_underscores ds)
                  && negb (bool_decide (without_underscores ds = [])) = true).
  { rewrite (without_underscores_digits _ Hd), (underscores_ok_digits _ None Hd), Hd.
    by rewrite bool_decide_eq_false_2. }
  unfold py_int. destruct neg.
  - rewrite strip_id by (constructor; [by vm_compute | done]).
    change (split_sign (py "-" ++ ds)) with (true, ds). cbv beta iota zeta.
    by rewrite Hgood, (without_underscores_digits _ Hd).
  - simpl. rewrite strip_id, Hsign by done. cbv beta iota zeta.
    by rewrite Hgood, (without_underscores_digits _ Hd).
Qed.

(** A number of a JSON text: an integer within the limit or a float,
    with room for no registration; the exception, if any, is that of
    the limit, on a text of more characters than the limit. *)
Lemma match_number_value (s rest : pystr) (number : result pyval) :
  match_number s = Some (number, rest) →
  match number with
  | Ok v => room v = 0%N ∧ digits_within_limit v = true
            ∧ match v with PInt _ | PFloat _ => True | _ => False end
  | Raise e => e = ValueError ∧ (int_max_str_digits < Z.of_nat (length s))%Z
  end.
Proof.
  unfold match_number.
  set (nb := match s with
             | c :: r => if (c =? ch "-")%N then (true, r) else (false, s)
             | [] => (false, s)
             end).
  assert (Hbody : length nb.2 ≤ length s).
  { subst nb. destruct s as [| c r]; simpl; [done |].
    destruct (c =? ch "-")%N; simpl; lia. }
  destruct nb as [neg body]. simpl in Hbody.
  set (ip := match body with
             | c :: r => if (c =? 48)%N then [c] else take_while is_digit body
             | [] => []
             end).
  assert (Hip : length ip ≤ length body).
  { subst ip. destruct body as [| c r]; [done |].
    destruct (c =? 48)%N; [simpl; lia | apply take_while_length]. }
  assert (Hdigits : forallb is_digit ip = true).
  { subst ip. destruct body as [| c r]; [done |].
    destruct (N.eqb_spec c 48) as [-> | _]; [done | apply take_while_forallb]. }
  case_bool_decide as Hne; [done |]. cbv zeta. intros Hm.
  case_bool_decide; [| destruct (py_float _); simpl in Hm; [| done]];
    injection Hm as <- _; [| done].
  unfold int_checked, int_str. rewrite (py_int_digits neg ip Hdigits Hne).
  assert (Hcount : List.filter is_digit ((if neg then py "-" else []) ++ ip) = ip).
  { rewrite List.filter_app, (filter_forallb _ _ Hdigits). by destruct neg. }
  rewrite Hcount. destruct (Z.ltb_spec int_max_str_digits (Z.of_nat (length ip))); simpl.
  - split; [done | lia].
  - split; [done |]. split; [| done]. apply Z.ltb_lt.
    pose proof (digits_value_bound ip Hdigits) as Hv.
    assert (10 ^ Z.of_nat (length ip) <= 10 ^ int_max_str_digits)%Z
      by (apply Z.pow_le_mono_r; lia).
    destruct neg; lia.
Qed.

Lemma scan_once_parses (fuel : nat) :
  (∀ s, 2 * length s + 1 ≤ fuel → parses 0 (length s) (scan_once fuel s))
  ∧ (∀ s acc, 2 * length s + 2 ≤ fuel →
              parses (rooms acc) (length s) (array_loop fuel s acc))
  ∧ (∀ s out, 2 * length s + 2 ≤ fuel →
              parses (rooms_items out) (length s) (object_loop fuel s out)).
Proof.
  assert (Hraise : ∀ e (n n' : nat),
            e = JSONDecodeError
            ∨ e = ValueError ∧ (int_max_str_digits < Z.of_nat n)%Z →
            n ≤ n' →
            e = JSONDecodeError
            ∨ e = ValueError ∧ (int_max_str_digits < Z.of_nat n')%Z).
  { intros e n n' [-> | [-> ?]] Hle; [by left | right; split; [done | lia]]. }
  induction fuel as [| f (IHs & IHa & IHo)].
  { repeat split; intros; simpl in *; lia. }
  repeat split.
  - intros s Hf. simpl. destruct s as [| c r]; [by left |]. simpl in Hf.
    destruct (c =? 34)%N.
    { pose proof (scanstring_consumes (length r) r []) as Hs.
      destruct (scanstring (length r) r []) as [[str rest] |]; simpl in *;
        [lia | by left]. }
    destruct (c =? ch "{")%N.
    { destruct (skip_ws r) as [| x rest] eqn:Hsk; [by left |].
      apply skip_ws_cons in Hsk as Hlen.
      destruct (x =? ch "}")%N; [simpl; lia |].
      specialize (IHo (x :: rest) [] ltac:(simpl; lia)).
      destruct (object_loop f (x :: rest) []) as [[? ?] |]; simpl in *;
        [lia | eapply Hraise; [done | lia]]. }
    destruct (c =? ch "[")%N.
    { destruct (skip_ws r) as [| x rest] eqn:Hsk; [by left |].
      apply skip_ws_cons in Hsk as Hlen.
      destruct (x =? ch "]")%N; [simpl; lia |].
      specialize (IHa (x :: rest) [] ltac:(simpl; lia)).
      destruct (array_loop f (x :: rest) []) as [[? ?] |]; simpl in *;
        [lia | eapply Hraise; [done | lia]]. }
    repeat case_match; simplify_eq; simpl; try (by left);
      try (rewrite length_drop; simpl; lia).
    match goal with
    | H : match_number _ = Some (?number, _) |- _ =>
        pose proof (match_number_value _ _ _ H) as Hv;
        apply match_number_consumes in H as [Hlen _]; simpl in Hlen;
        destruct number as [v | e]; simpl;
        [destruct Hv as (Hroom & _); lia | by right]
    end.
  - intros s acc Hf. simpl.
    specialize (IHs s ltac:(lia)).
    destruct (scan_once f s) as [[v s1] |]; simpl in *; [| done].
    destruct (skip_ws s1) as [| x rest] eqn:Hsk; [by left |].
    apply skip_ws_cons in Hsk as Hlen.
    destruct (x =? ch "]")%N.
    { simpl. fold (rooms (acc ++ [v])). rewrite rooms_app. simpl. lia. }
    destruct (x =? ch ",")%N; [| by left].
    pose proof (skip_ws_length rest) as Hl.
    specialize (IHa (skip_ws rest) (acc ++ [v]) ltac:(lia)).
    rewrite rooms_app in IHa. simpl in IHa.
    destruct (array_loop f (skip_ws rest) (acc ++ [v])) as [[? ?] |]; simpl in *;
      [lia | eapply Hraise; [done | lia]].
  - intros s out Hf. simpl. destruct s as [| q r]; [by left |]. simpl in Hf.
    destruct (q =? 34)%N; simpl; [| by left].
    pose proof (scanstring_consumes (length r) r []) as Hs.
    destruct (scanstring (length r) r []) as [[key s1] |]; simpl in *; [| by left].
    destruct (skip_ws s1) as [| x r2] eqn:Hsk; [by left |].
    apply skip_ws_cons in Hsk as Hlen.
    destruct (x =? ch ":")%N; simpl; [| by left].
    pose proof (skip_ws_length r2) as Hl2.
    specialize (IHs (skip_ws r2) ltac:(lia)).
    destruct (scan_once f (skip_ws r2)) as [[v s3] |]; simpl in *;
      [| eapply Hraise; [done | lia]].
    destruct (skip_ws s3) as [| y rest] eqn:Hsk3; [by left |].
    apply skip_ws_cons in Hsk3 as Hlen3.
    pose proof (rooms_items_dict_store out (PStr key) v) as Hst. simpl in Hst.
    destruct (y =? ch "}")%N.
    { simpl. fold (rooms_items (dict_store out (PStr key) v)). lia. }
    destruct (y =? ch ",")%N; [| by left].
    pose proof (skip_ws_length rest) as Hl.
    specialize (IHo (skip_ws rest) (dict_store out (PStr key) v) ltac:(lia)).
    destruct (object_loop f (skip_ws rest) _) as [[? ?] |]; simpl in *;
      [lia | eapply Hraise; [done | lia]].
Qed.

(** [json.loads] fails by [JSONDecodeError], or by the [ValueError] of
    [int] on a text of more characters than the limit; a tree it yields
    has room for no more registrations than the text has characters. *)
Lemma json_loads_parses (text : pystr) :
  match json_loads text with
  | Ok v => (room v <= N.of_nat (length text))%N
  | Raise e =>
      e = JSONDecodeError
      ∨ (e = ValueError ∧ (int_max_str_digits < Z.of_nat (length text))%Z)
  end.
Proof.
  unfold json_loads. destruct (startswith text [0xFEFF%N]); [by left |].
  pose proof (skip_ws_length text) as Hl.
  destruct (scan_once_parses (2 * length text + 2)) as (Hs & _ & _).
  specialize (Hs (skip_ws text) ltac:(lia)).
  destruct (scan_once _ _) as [[v rest] |]; simpl in *.
  - case_bool_decide; [lia | by left].
  - destruct Hs as [-> | [-> ?]]; [by left | right; split; [done | lia]].
Qed.

Lemma digits_within_dict_store (out : list (pyval * pyval)) (k v : pyval) :
  digits_within_limit (PDict out) = true →
  digits_within_limit k = true → digits_within_limit v = true →
  digits_within_limit (PDict (dict_store out k v)) = true.
Proof.
  simpl. intros Hout Hk Hv.
  induction out as [| [k0 v0] out IH]; simpl in *; [by rewrite Hk, Hv |].
  apply andb_true_iff in Hout as [H0 Hout].
  apply andb_true_iff in H0 as [Hk0 Hv0].
  destruct (py_eq k0 k); simpl.
  - by rewrite Hk0, Hv, Hout.
  - by rewrite Hk0, Hv0, IH.
Qed.

Lemma scan_once_digits (fuel : nat) :
  (∀ s v rest, scan_once fuel s = Ok (v, rest) → digits_within_limit v = true)
  ∧ (∀ s acc v rest, array_loop fuel s acc = Ok (v, rest) →
                     digits_within_limit (PList acc) = true →
                     digits_within_limit v = true)
  ∧ (∀ s out v rest, object_loop fuel s out = Ok (v, rest) →
                     digits_within_limit (PDict out) = true →
                     digits_within_limit v = true).
Proof.
  induction fuel as [| f (IHs & IHa & IHo)]; [by repeat split |].
  repeat split.
  - intros s v rest H. simpl in H. destruct s as [| c r]; [done |].
    destruct (c =? 34)%N.
    { inv_bind H. by injection H as <- _. }
    destruct (c =? ch "{")%N.
    { destruct (skip_ws r) as [| x rest']; [done |].
      destruct (x =? ch "}")%N; [by injection H as <- _ |].
      by eapply IHo. }
    destruct (c =? ch "[")%N.
    { destruct (skip_ws r) as [| x rest']; [done |].
      destruct (x =? ch "]")%N; [by injection H as <- _ |].
      by eapply IHa. }
    repeat case_match; simplify_eq; try done.
    match goal with
    | Hm : match_number _ = Some (?number, _) |- _ =>
        apply match_number_value in Hm; destruct number as [x | e];
        simpl in H; [| done]; injection H as <- _; by destruct Hm as (_ & ? & _)
    end.
  - intros s acc v rest H Hacc. simpl in H.
    destruct (scan_once f s) as [[x s1] |] eqn:Hscan; [| done]. simpl in H.
    assert (Hx : digits_within_limit x = true) by (by eapply IHs).
    assert (Hacc' : digits_within_limit (PList (acc ++ [x])) = true).
    { simpl in *. by rewrite forallb_app, Hacc; simpl; rewrite Hx. }
    destruct (skip_ws s1) as [| y rest']; [done |].
    destruct (y =? ch "]")%N; [by injection H as <- _ |].
    destruct (y =? ch ",")%N; [| done]. by eapply IHa.
  - intros s out v rest H Hout. simpl in H. destruct s as [| q r]; [done |].
    destruct (q =? 34)%N; simpl in H; [| done].
    destruct (scanstring (length r) r []) as [[key s1] |]; [| done]. simpl in H.
    destruct (skip_ws s1) as [| x r2]; [done |].
    destruct (x =? ch ":")%N; simpl in H; [| done].
    destruct (scan_once f (skip_ws r2)) as [[val s3] |] eqn:Hscan; [| done].
    simpl in H.
    assert (Hval : digits_within_limit val = true) by (by eapply IHs).
    pose proof (digits_within_dict_store out (PStr key) val Hout eq_refl Hval) as Hout'.
    destruct (skip_ws s3) as [| y rest']; [done |].
    destruct (y =? ch "}")%N; [by injection H as <- _ |].
    destruct (y =? ch ",")%N; [| done]. by eapply IHo.
Qed.

(** No [int] of a tree that [json.loads] yields is beyond the limit. *)
Lemma json_loads_digits (text : pystr) (v : pyval) :
  json_loads text = Ok v → digits_within_limit v = true.
Proof.
  unfold json_loads. destruct (startswith text [0xFEFF%N]); [done |].
  intros H. inv_bind H. case_bool_decide; [| done]. injection H as <-.
  by eapply (proj1 (scan_once_digits _)).
Qed.

(** The walk of a tree from a fresh cache, as the entry point runs it. *)
Lemma _decode_fresh (v : pyval) :
  match _decode v new_Cache false with
  | Ok _ => True
  | Raise e =>
      e = TypeError ∨ e = OverflowError
      ∨ (e = ValueError ∧ ((ref_limit < room v)%N ∨ digits_within_limit v = false))
  end.
Proof.
  pose proof (_decode_bounded (over_limit v) v (λ H, H) false new_Cache) as H.
  simpl in H. destruct (_decode v new_Cache false) as [[r c'] | e]; [done |].
  destruct H as [[? | ?] | [? [? | ?]]]; auto.
Qed.

(** X10: on a text the entry point raises nothing but the [TypeError] of
    a key without a hash, the [OverflowError] of an instant, and a
    [ValueError] in two cases: that of the JSON parser on an integer of
    more than 4300 digits, which is no [JSONDecodeError] and passes the
    handler, as on the text of 4301 digits; and, for a text of more than
    49018816 characters, that of a cache out of codes. The
    [JSONDecodeError] of the parser is never raised, the text is returned
    instead. (The limit on digits is taken at its default; the recursion
    limit of the interpreter is not modelled.) *)
Theorem text_entry_raises :
  (∀ text e,
     decode_transit (PStr text) = Raise e →
     e = TypeError ∨ e = OverflowError
     ∨ (e = ValueError
        ∧ ((json_loads text = Raise ValueError
            ∧ (int_max_str_digits < Z.of_nat (length text))%Z)
           ∨ (ref_limit < N.of_nat (length text))%N)))
  ∧ decode_transit (PStr (replicate (Z.to_nat (int_max_str_digits + 1)) (ch "1")))
    = Raise ValueError
  ∧ decode_transit (PStr (replicate (Z.to_nat int_max_str_digits) (ch "1")))
    = Ok (PInt ((10 ^ int_max_str_digits - 1) / 9)).
Proof.
  split; [| split; by vm_compute].
  intros text e. unfold decode_transit.
  pose proof (json_loads_parses text) as Hj.
  destruct (json_loads text) as [tree | e1] eqn:Hload.
  - pose proof (_decode_fresh tree) as Hw.
    pose proof (json_loads_digits text tree Hload) as Hd.
    destruct (_decode tree new_Cache false) as [[r c'] | e2]; simpl; [done |].
    intros [= <-]. destruct Hw as [? | [? | [? [? | ?]]]]; auto; [| congruence].
    right. right. split; [done |]. right. lia.
  - destruct Hj as [-> | [-> Hlen]]; [done |]. simpl. intros [= <-].
    right. right. split; [done |]. by left.
Qed.

Lemma text_entry_raises_witness :
  TypeError = TypeError ∨ TypeError = OverflowError
  ∨ (TypeError = ValueError
     ∧ ((json_loads (py "[" ++ [34; 94; 32; 34]%N ++ py ", [1], 2]") = Raise ValueError
         ∧ (int_max_str_digits
            < Z.of_nat (length (py "[" ++ [34; 94; 32; 34]%N ++ py ", [1], 2]")))%Z)
        ∨ (ref_limit
           < N.of_nat (length (py "[" ++ [34; 94; 32; 34]%N ++ py ", [1], 2]")))%N)).
Proof.
  exact (proj1 text_entry_raises
           (py "[" ++ [34; 94; 32; 34]%N ++ py ", [1], 2]") TypeError
           ltac:(vm_compute; reflexivity)).
Defined.

(** ** Documents that decode without an exception *)










Section WalkQuiet.
Variable dec : pyval → _Cache → bool → result (pyval * _Cache).
Hypothesis dec_hashable :
  ∀ v r c c' k, hashable v = true → dec v c k = Ok (r, c') → hashable r = true.









End WalkQuiet.





(** ** Plain JSON *)

Lemma passes_ret {A} (a : A) : passes a 0 (λ c, Ok (a, c)).
Proof. intros c. split; [done |]. exists 0%N. split; lia. Qed.

Lemma passes_mono {A} (a : A) (n n' : N) (m : _Cache → result (A * _Cache)) :
  (n <= n')%N → passes a n m → passes a n' m.
Proof.
  intros Hle Hm c. specialize (Hm c). destruct (m c) as [[r c'] | e].
  - destruct Hm as (-> & d & ? & ?). split; [done |]. exists d. split; [lia | done].
  - destruct Hm as [-> ?]. split; [done | lia].
Qed.

Lemma passes_bind {A B} (a : A) (b : B) (n1 n2 : N)
    (m : _Cache → result (A * _Cache)) (g : A * _Cache → result (B * _Cache)) :
  passes a n1 m → passes b n2 (λ c, g (a, c)) → passes b (n1 + n2) (λ c, m c ≫= g).
Proof.
  intros Hm Hg c. specialize (Hm c). destruct (m c) as [[r c1] | e]; simpl.
  - destruct Hm as (-> & d & Hd & E). specialize (Hg c1). simpl in Hg.
    destruct (g (a, c1)) as [[r c2] | e].
    + destruct Hg as (-> & d' & ? & ?). split; [done |].
      exists (d + d')%N. split; lia.
    + destruct Hg as [-> ?]. split; [done | lia].
  - destruct Hm as [-> ?]. split; [done | lia].
Qed.

Lemma passes_cache_bind {B} (b : B) (n : N) (s : pystr) (k : bool)
    (F : _Cache → result (B * _Cache)) :
  passes b n F → passes b (1 + n) (λ c, cache c s k ≫= F).
Proof.
  intros HF c. rewrite cache_rule. destruct (is_cacheable s k).
  - destruct (register c s) as [c1 | e] eqn:Hreg; simpl.
    + destruct (register_slots _ _ _ Hreg) as (Hi & _).
      specialize (HF c1). destruct (F c1) as [[r c'] | e].
      * destruct HF as (-> & d & ? & ?). split; [done |].
        exists (1 + d)%N. split; lia.
      * destruct HF as [-> ?]. split; [done | lia].
    + apply register_Raise in Hreg as [-> ?]. split; [done | lia].
  - simpl. specialize (HF c). destruct (F c) as [[r c'] | e].
    + destruct HF as (-> & d & ? & ?). split; [done |]. exists d. split; lia.
    + destruct HF as [-> ?]. split; [done | lia].
Qed.

Lemma plain_str_shape (s : pystr) :
  plain_str s = true →
  is_cache_ref s = false
  ∧ (2 <=? length s) && char_is s 0 (ch "~") = false
  ∧ startswith s (py "~#") = false
  ∧ str_eqb s (py "^ ") = false.
Proof.
  unfold plain_str, is_cache_ref, char_is, startswith, str_eqb. norm_lit.
  destruct s as [| c0 [| c1 rest]]; simpl; try done.
  - intros _. rewrite andb_false_r. repeat split; try done.
    by apply bool_decide_eq_false_2.
  - destruct (N.eqb_spec c0 126) as [-> | H1]; [done |].
    destruct (N.eqb_spec c0 94) as [-> | H2]; [done |].
    intros _. repeat split; try done. apply bool_decide_eq_false_2. congruence.
Qed.

Lemma _decode_str_passes (s : pystr) (k : bool) :
  plain_str s = true → passes (PStr s) 1 (λ c, _decode_str s c k).
Proof.
  intros Hs. destruct (plain_str_shape s Hs) as (Href & Ht & _).
  unfold _decode_str. rewrite Href, Ht.
  apply (passes_cache_bind (PStr s) 0), passes_ret.
Qed.

Lemma decode_each_passes (elems : list pyval) :
  Forall (λ v, ∀ k, passes v (room v) (λ c, _decode v c k)) elems →
  passes elems (rooms elems) (decode_each _decode elems).
Proof.
  induction 1 as [| e elems He _ IH]; simpl; [apply passes_ret |].
  apply (passes_bind e _ (room e) (rooms elems) (λ c, _decode e c false));
    [apply He |]. simpl.
  eapply passes_mono;
    [| apply (passes_bind elems _ (rooms elems) 0 (decode_each _decode elems));
       [exact IH | apply passes_ret]].
  lia.
Qed.

Lemma dict_store_fresh (out rest : list (pyval * pyval)) (k v : pyval) :
  fresh_keys (out ++ (k, v) :: rest) = true → dict_store out k v = out ++ [(k, v)].
Proof.
  induction out as [| [k0 v0] out IH]; simpl; [done |].
  intros H. apply andb_true_iff in H as [Hall Hf].
  rewrite forallb_app in Hall. apply andb_true_iff in Hall as [_ Hall].
  simpl in Hall. apply andb_true_iff in Hall as [Hk _].
  apply negb_true_iff in Hk. rewrite Hk. by rewrite IH.
Qed.

Lemma decode_items_passes (items : list (pyval * pyval)) :
  Forall (λ kv, plain kv.1 = true ∧ hashable kv.1 = true
                ∧ ∀ k, passes kv.2 (room kv.2) (λ c, _decode kv.2 c k)) items →
  ∀ out, fresh_keys (out ++ items) = true →
         passes (out ++ items) (rooms_items items)
           (λ c, decode_items _decode items c out).
Proof.
  induction 1 as [| [k v] items (Hpk & Hhk & Hv) _ IH]; simpl in *; intros out Hf.
  - rewrite app_nil_r. apply passes_ret.
  - eapply passes_mono;
      [| apply (passes_bind k _ (room k) (room v + rooms_items items)
                  (λ c, match k with
                        | PStr s => _decode_str s c true
                        | _ => Ok (k, c)
                        end))]; [lia | |].
    { destruct k; try (eapply passes_mono; [| apply passes_ret]; lia).
      by apply _decode_str_passes. }
    simpl.
    apply (passes_bind v _ (room v) (rooms_items items) (λ c, _decode v c false));
      [apply Hv |]. simpl.
    unfold dict_setitem. rewrite Hhk, (dict_store_fresh out items k v Hf). simpl.
    replace (out ++ (k, v) :: items) with ((out ++ [(k, v)]) ++ items)
      by (by rewrite <- app_assoc).
    apply IH. by rewrite <- app_assoc.
Qed.

Lemma _decode_passes (v : pyval) :
  plain v = true → ∀ k, passes v (room v) (λ c, _decode v c k).
Proof.
  induction v as [| | | | s | l IH | items IH] using pyval_nested_ind;
    intros Hp k; try apply passes_ret.
  - by apply _decode_str_passes.
  - simpl in Hp.
    assert (Hall : Forall (λ v, ∀ k, passes v (room v) (λ c, _decode v c k)) l).
    { apply Forall_forall. intros x Hx. rewrite Forall_forall in IH.
      apply IH; [done |]. rewrite forallb_forall in Hp. apply Hp.
      by apply list_elem_of_In. }
    assert (Heach : passes (PList l) (room (PList l))
              (λ c, decode_each _decode l c ≫= λ '(vs, c2), Ok (PList vs, c2))).
    { eapply passes_mono;
        [| apply (passes_bind l _ (rooms l) 0 (decode_each _decode l));
           [by apply decode_each_passes | apply passes_ret]].
      simpl. unfold rooms. lia. }
    intros c. rewrite _decode_PList. unfold _decode_list.
    destruct l as [| first rest]; [split; [done | exists 0%N; split; simpl; lia] |].
    simpl in Hp. apply andb_true_iff in Hp as [Hfirst _].
    destruct first as [| | | | s | |]; try apply Heach.
    simpl in Hfirst. destruct (plain_str_shape s Hfirst) as (Href & _ & Htag & Hsent).
    simpl is_str. cbv iota. rewrite Hsent, Htag, Href, bind_ret_l. apply Heach.
  - simpl in Hp. apply andb_true_iff in Hp as [Hp Hfresh].
    assert (Hall : Forall (λ kv, plain kv.1 = true ∧ hashable kv.1 = true
                                 ∧ ∀ k, passes kv.2 (room kv.2)
                                          (λ c, _decode kv.2 c k)) items).
    { apply Forall_forall. intros [x y] Hx. rewrite Forall_forall in IH.
      rewrite forallb_forall in Hp. specialize (Hp (x, y) ltac:(by apply list_elem_of_In)).
      simpl in Hp. apply andb_true_iff in Hp as [Hp Hy].
      apply andb_true_iff in Hp as [Hh Hpx]. simpl.
      repeat split; try done. by apply (IH (x, y)). }
    assert (Hgen : passes (PDict items) (room (PDict items))
              (λ c, decode_items _decode items c [] ≫= λ '(out, c'), Ok (PDict out, c'))).
    { eapply passes_mono;
        [| apply (passes_bind items _ (rooms_items items) 0
                    (λ c, decode_items _decode items c []));
           [by apply (decode_items_passes items Hall []) | apply passes_ret]].
      simpl. unfold rooms_items. lia. }
    intros c. rewrite _decode_PDict. unfold decode_dict. cbv zeta.
    destruct items as [| [key payload] [| ? ?]]; try apply Hgen;
      destruct key as [| | | | s | |]; try apply Hgen.
    inversion Hall as [| ? ? (Hpk & _) _]; subst. simpl in Hpk.
    destruct (plain_str_shape s Hpk) as (_ & _ & -> & _). apply Hgen.
Qed.

(** ** Plain JSON, unchanged *)

Lemma _decode_plain (v : pyval) (c : _Cache) (k : bool) :
  plain v = true → (_idx c + room v <= ref_limit)%N →
  ∃ c', _decode v c k = Ok (v, c').
Proof.
  intros Hp Hroom. pose proof (_decode_passes v Hp k c) as H1. simpl in H1.
  destruct (_decode v c k) as [[r c'] | e].
  - destruct H1 as [-> _]. by exists c'.
  - destruct H1 as [_ ?]. lia.
Qed.

(** X12: a tree with no Transit in it (no string of two characters or
    more that begins with a tilde or a caret, dictionary keys hashable
    and distinct) comes out of the decoder as it went in: from any cache
    with codes left for it, and through the entry point. *)
Theorem plain_tree_unchanged (v : pyval) :
  plain v = true →
  (∀ c k, (_idx c + room v <= ref_limit)%N → ∃ c', _decode v c k = Ok (v, c'))
  ∧ ((room v <= ref_limit)%N → (∀ text, v ≠ PStr text) → decode_transit v = Ok v).
Proof.
  intros Hp. split.
  - intros c k. by apply _decode_plain.
  - intros Hroom Hne. rewrite decode_transit_tree by done.
    destruct (_decode_plain v new_Cache false Hp) as [c' ->]; [simpl; lia | done].
Qed.

Lemma plain_tree_unchanged_witness :
  decode_transit
    (PDict [(str "name", PList [PInt 1; PNone; PBool true; str "a~b"]);
            (PInt 2, str "")])
  = Ok (PDict [(str "name", PList [PInt 1; PNone; PBool true; str "a~b"]);
               (PInt 2, str "")]).
Proof.
  apply (plain_tree_unchanged
           (PDict [(str "name", PList [PInt 1; PNone; PBool true; str "a~b"]);
                   (PInt 2, str "")])).
  - vm_compute; reflexivity.
  - vm_compute; discriminate.
  - intros text. discriminate.
Defined.

(** ** JSON without Transit *)

Lemma forallb_keys_dict_store (P : pyval → bool) (out : list (pyval * pyval))
    (k v : pyval) :
  forallb (λ kv, P kv.1) out = true → P k = true →
  forallb (λ kv, P kv.1) (dict_store out k v) = true.
Proof.
  intros Hout Hk. induction out as [| [k0 v0] out IH]; simpl in *; [by rewrite Hk |].
  apply andb_true_iff in Hout as [H0 Hout].
  destruct (py_eq k0 k); simpl; rewrite H0; [done | by apply IH].
Qed.

Lemma fresh_keys_dict_store (out : list (pyval * pyval)) (k v : pyval) :
  fresh_keys out = true → fresh_keys (dict_store out k v) = true.
Proof.
  induction out as [| [k0 v0] out IH]; simpl; [done |].
  intros H. apply andb_true_iff in H as [Hall Hf].
  destruct (py_eq k0 k) eqn:E; simpl.
  - by rewrite Hall, Hf.
  - rewrite IH by done. rewrite andb_true_r.
    apply (forallb_keys_dict_store (λ x, negb (py_eq k0 x))); [done | by rewrite E].
Qed.

(** The items of a dictionary that [json.loads] may have built. *)
Lemma json_items_dict_store (out : list (pyval * pyval)) (key : pystr) (v : pyval) :
  json_keys (PDict out) = true → json_keys v = true →
  json_keys (PDict (dict_store out (PStr key) v)) = true.
Proof.
  simpl. intros H Hv. apply andb_true_iff in H as [Hall Hf].
  rewrite fresh_keys_dict_store by done. rewrite andb_true_r. clear Hf.
  induction out as [| [k0 v0] out IH]; simpl in *; [by rewrite Hv |].
  apply andb_true_iff in Hall as [H0 Hall].
  destruct (py_eq k0 (PStr key)) eqn:E; simpl.
  - apply andb_true_iff in H0 as [Hk0 _]. by rewrite Hk0, Hv, Hall.
  - by rewrite H0, IH.
Qed.

Lemma scan_once_keys (fuel : nat) :
  (∀ s v rest, scan_once fuel s = Ok (v, rest) → json_keys v = true)
  ∧ (∀ s acc v rest, array_loop fuel s acc = Ok (v, rest) →
                     json_keys (PList acc) = true → json_keys v = true)
  ∧ (∀ s out v rest, object_loop fuel s out = Ok (v, rest) →
                     json_keys (PDict out) = true → json_keys v = true).
Proof.
  induction fuel as [| f (IHs & IHa & IHo)]; [by repeat split |].
  repeat split.
  - intros s v rest H. simpl in H. destruct s as [| c r]; [done |].
    destruct (c =? 34)%N.
    { inv_bind H. by injection H as <- _. }
    destruct (c =? ch "{")%N.
    { destruct (skip_ws r) as [| x rest']; [done |].
      destruct (x =? ch "}")%N; [by injection H as <- _ |].
      by eapply IHo. }
    destruct (c =? ch "[")%N.
    { destruct (skip_ws r) as [| x rest']; [done |].
      destruct (x =? ch "]")%N; [by injection H as <- _ |].
      by eapply IHa. }
    repeat case_match; simplify_eq; try done.
    match goal with
    | Hm : match_number _ = Some (?number, _) |- _ =>
        apply match_number_value in Hm; destruct number as [x | e];
        simpl in H; [| done]; injection H as <- _;
        destruct Hm as (_ & _ & Hx); by destruct x
    end.
  - intros s acc v rest H Hacc. simpl in H.
    destruct (scan_once f s) as [[x s1] |] eqn:Hscan; [| done]. simpl in H.
    assert (Hx : json_keys x = true) by (by eapply IHs).
    assert (Hacc' : json_keys (PList (acc ++ [x])) = true).
    { simpl in *. by rewrite forallb_app, Hacc; simpl; rewrite Hx. }
    destruct (skip_ws s1) as [| y rest']; [done |].
    destruct (y =? ch "]")%N; [by injection H as <- _ |].
    destruct (y =? ch ",")%N; [| done]. by eapply IHa.
  - intros s out v rest H Hout. simpl in H. destruct s as [| q r]; [done |].
    destruct (q =? 34)%N; simpl in H; [| done].
    destruct (scanstring (length r) r []) as [[key s1] |]; [| done]. simpl in H.
    destruct (skip_ws s1) as [| x r2]; [done |].
    destruct (x =? ch ":")%N; simpl in H; [| done].
    destruct (scan_once f (skip_ws r2)) as [[val s3] |] eqn:Hscan; [| done].
    simpl in H.
    assert (Hval : json_keys val = true) by (by eapply IHs).
    pose proof (json_items_dict_store out key val Hout Hval) as Hout'.
    destruct (skip_ws s3) as [| y rest']; [done |].
    destruct (y =? ch "}")%N; [by injection H as <- _ |].
    destruct (y =? ch ",")%N; [| done]. by eapply IHo.
Qed.

Lemma json_loads_keys (text : pystr) (v : pyval) :
  json_loads text = Ok v → json_keys v = true.
Proof.
  unfold json_loads. destruct (startswith text [0xFEFF%N]); [done |].
  intros H. inv_bind H. case_bool_decide; [| done]. injection H as <-.
  by eapply (proj1 (scan_once_keys _)).
Qed.

Lemma marker_free_plain (v : pyval) :
  marker_free v = true → json_keys v = true → plain v = true.
Proof.
  induction v as [| | | | s | l IH | items IH] using pyval_nested_ind;
    simpl; try done.
  - intros Hm Hk. apply forallb_forall. intros x Hx.
    rewrite forallb_forall in Hm, Hk. rewrite Forall_forall in IH.
    apply IH; [by apply list_elem_of_In | by apply Hm | by apply Hk].
  - intros Hm Hk. apply andb_true_iff in Hk as [Hk ->]. rewrite andb_true_r.
    apply forallb_forall. intros [x y] Hx.
    rewrite forallb_forall in Hm, Hk. rewrite Forall_forall in IH.
    specialize (Hm _ Hx). specialize (Hk _ Hx).
    specialize (IH (x, y) ltac:(by apply list_elem_of_In)). simpl in *.
    apply andb_true_iff in Hm as [Hmx Hmy]. apply andb_true_iff in Hk as [Hkx Hky].
    destruct IH as [_ IHy]. rewrite IHy by done.
    destruct x; try done. simpl in *. by rewrite Hmx.
Qed.

(** X13: on a text of JSON in which no string, key or value, of two
    characters or more begins with a tilde or a caret, the entry point
    is [json.loads]: it returns the parsed tree as it is (for a text of
    49018816 characters at most). *)
Theorem json_without_markers_unchanged (text : pystr) (v : pyval) :
  json_loads text = Ok v →
  marker_free v = true →
  (N.of_nat (length text) <= ref_limit)%N →
  decode_transit (PStr text) = Ok v.
Proof.
  intros Hj Hm Hlen.
  assert (Hp : plain v = true)
    by (apply marker_free_plain; [done | by eapply json_loads_keys]).
  unfold decode_transit. pose proof (json_loads_parses text) as Hroom.
  rewrite Hj in Hroom |- *.
  destruct (_decode_plain v new_Cache false Hp) as [c' ->]; [simpl; lia | done].
Qed.

Lemma json_without_markers_unchanged_witness :
  decode_transit
    (PStr (py "{" ++ [34; 110; 97; 109; 101; 34]%N ++ py ": [1, 2.5, null, true]}"))
  = Ok (PDict [(str "name",
                PList [PInt 1; PFloat (S754_finite false 5629499534213120 (-51));
                       PNone; PBool true])]).
Proof.
  apply json_without_markers_unchanged.
  - vm_compute; reflexivity.
  - vm_compute; reflexivity.
  - vm_compute; discriminate.
Defined.

(** ** A value without references, wherever it stands *)

Lemma _decode_role (v : pyval) (c : _Cache) (k1 k2 : bool) :
  (_idx c + room v <= ref_limit)%N →
  fst <$> _decode v c k1 = fst <$> _decode v c k2.
Proof.
  intros Hroom. destruct v as [| | | | s | l | items]; try reflexivity.
  rewrite !_decode_PStr. unfold _decode_str.
  destruct (is_cache_ref s); [done |]. rewrite !cache_rule.
  assert (Hreg : ∃ c', register c s = Ok c').
  { destruct (register_Ok c s) as (c' & ? & _); [simpl in Hroom; lia | by exists c']. }
  destruct Hreg as [c' Hreg].
  destruct (is_cacheable s k1), (is_cacheable s k2); rewrite ?Hreg, ?bind_ret_l;
    destruct (_ && _); try done; by destruct (_parse_tagged s).
Qed.

(** X14: a value that holds no reference decodes to the same result
    wherever it stands: from any two caches that the walk can have
    reached and that have codes left for it, and in either role, the
    decoded value is the same, or the exception is. *)
Theorem reference_free_decodes_alike (v : pyval) (c1 c2 : _Cache) (k1 k2 : bool) :
  ref_free v = true →
  cache_ok c1 → cache_ok c2 →
  (_idx c1 + room v <= ref_limit)%N → (_idx c2 + room v <= ref_limit)%N →
  fst <$> _decode v c1 k1 = fst <$> _decode v c2 k2.
Proof.
  intros Hfree Hok1 Hok2 Hr1 Hr2.
  rewrite (_decode_role v c2 k2 k1 Hr2).
  pose proof (_decode_uniform v Hfree k1 c1 c2 Hok1 Hok2 Hr1 Hr2) as Hu.
  simpl in Hu.
  destruct (_decode v c1 k1) as [[r1 c1'] |], (_decode v c2 k1) as [[r2 c2'] |];
    try done; simpl.
  - by destruct Hu as (-> & _).
  - by subst.
Qed.

Lemma reference_free_decodes_alike_witness :
  fst <$> _decode (PList [str "~#set"; PList [str "~:left"; str "~m0"]])
            {| _map := <[py "^0" := py "~:name"]> ∅; _idx := 1 |} true
  = fst <$> _decode (PList [str "~#set"; PList [str "~:left"; str "~m0"]])
              new_Cache false.
Proof.
  apply reference_free_decodes_alike.
  - vm_compute; reflexivity.
  - destruct (register_Ok new_Cache (py "~:name")) as (c' & Hreg & _ & Hok);
      [vm_compute; reflexivity |].
    assert (E : register new_Cache (py "~:name")
                = Ok {| _map := <[py "^0" := py "~:name"]> ∅; _idx := 1 |})
      by (vm_compute; reflexivity).
    rewrite E in Hreg. injection Hreg as <-. exact (Hok cache_ok_new).
  - exact cache_ok_new.
  - vm_compute; discriminate.
  - vm_compute; discriminate.
Defined.

(** ** Shapes and their ids *)

Lemma _decode_shape_obj_dict (obj r : pyval) :
  _decode_shape_obj obj = Ok r → ∃ items, r = PDict items.
Proof.
  unfold _decode_shape_obj. intros H.
  destruct obj as [| | | | text | l | items].
  1-4: injection H as <-; by eexists.
  - inv_bind H. repeat case_match; injection H as <-; by eexists.
  - repeat case_match; injection H as <-; by eexists.
  - injection H as <-. by eexists.
Qed.

Lemma _decode_shape_obj_tree (obj : pyval) :
  (∀ text, obj ≠ PStr text) → ∃ items, _decode_shape_obj obj = Ok (PDict items).
Proof.
  intros Hne. destruct obj as [| | | | text | l | items]; simpl; try by eexists.
  - by destruct (Hne text).
  - repeat case_match; by eexists.
Qed.

(** X15: on an object that is no string, [_decode_shape_obj] never
    raises and returns a dictionary, the object itself when it is one,
    and [_safe_get] reads that same dictionary: [_safe_get(obj, key)] is
    [_decode_shape_obj(obj).get(key)] for every key; on a string,
    whatever [_decode_shape_obj] returns is a dictionary. *)
Theorem shape_obj_is_dict :
  (∀ obj r, _decode_shape_obj obj = Ok r → ∃ items, r = PDict items)
  ∧ (∀ items, _decode_shape_obj (PDict items) = Ok (PDict items))
  ∧ (∀ obj key,
       (∀ text, obj ≠ PStr text) →
       ∃ items, _decode_shape_obj obj = Ok (PDict items)
                ∧ _safe_get obj key = default PNone (dict_get items key)).
Proof.
  split; [exact _decode_shape_obj_dict |]. split; [done |].
  intros obj key Hne. destruct obj as [| | | | text | l | items]; simpl;
    try (by exists []); [by destruct (Hne text) | | by exists items].
  destruct l as [| tag [| [] []]]; try (by exists []). by eexists.
Qed.

Lemma shape_obj_is_dict_witness :
  ∃ items,
    _decode_shape_obj (PList [str "^1"; PDict [(str "name", str "Board")]])
    = Ok (PDict items)
    ∧ _safe_get (PList [str "^1"; PDict [(str "name", str "Board")]]) (py "name")
      = default PNone (dict_get items (py "name")).
Proof.
  apply (proj2 (proj2 shape_obj_is_dict)). intros text. discriminate.
Defined.

Lemma dict_get_store (items : list (pyval * pyval)) (key : pystr) (v : pyval) :
  dict_get (dict_store items (PStr key) v) key = Some v.
Proof.
  assert (Hself : str_eqb key key = true) by (by apply bool_decide_eq_true_2).
  induction items as [| [k0 v0] items IH]; simpl; [by rewrite Hself |].
  assert (Hk : py_eq k0 (PStr key) = is_str k0 key) by (by destruct k0).
  rewrite Hk. destruct (is_str k0 key) eqn:E; simpl; by rewrite E.
Qed.

Lemma dict_store_Forall (P : pyval * pyval → Prop) (out : list (pyval * pyval))
    (k v : pyval) :
  Forall P out → (∀ k0, k0 = k ∨ py_eq k0 k = true → P (k0, v)) →
  Forall P (dict_store out k v).
Proof.
  intros Hout Hnew. induction Hout as [| [k0 v0] out H0 Hout IH]; simpl.
  - constructor; [apply Hnew; by left | constructor].
  - destruct (py_eq k0 k) eqn:E; constructor; auto.
Qed.

Lemma page_objects_loop_ids (raw : list (pyval * pyval)) :
  ∀ decoded out,
    Forall (λ '(k, shape),
              ∃ items id, shape = PDict items
                          ∧ dict_get items (py "id") = Some id
                          ∧ (id = k ∨ py_eq k id = true)) decoded →
    page_objects_loop raw decoded = Ok out →
    Forall (λ '(k, shape),
              ∃ items id, shape = PDict items
                          ∧ dict_get items (py "id") = Some id
                          ∧ (id = k ∨ py_eq k id = true)) out.
Proof.
  induction raw as [| [obj_id obj] raw IH]; intros decoded out Hdec H; simpl in H.
  { by injection H as <-. }
  inv_bind H. rename a into shape.
  apply _decode_shape_obj_dict in H0 as [items ->].
  simpl in H. unfold dict_setitem in H.
  destruct (hashable obj_id); [| done]. simpl in H.
  eapply IH; [| exact H].
  apply dict_store_Forall; [exact Hdec |].
  intros k0 Hk0. eexists _, obj_id. split; [done |].
  split; [apply dict_get_store |]. destruct Hk0 as [-> | ?]; auto.
Qed.

(** X16: in what [_get_page_objects] returns, every value is a
    dictionary whose ["id"] is the key it stands under, the very key or
    one equal to it. *)
Theorem page_objects_keyed_by_id (file_data : pyval) (page_id : pystr) (r : pyval) :
  _get_page_objects file_data page_id = Returns r →
  ∃ decoded,
    r = PDict decoded
    ∧ Forall (λ '(k, shape),
                ∃ items id, shape = PDict items
                            ∧ dict_get items (py "id") = Some id
                            ∧ (id = k ∨ py_eq k id = true)) decoded.
Proof.
  unfold _get_page_objects. intros H.
  destruct (get_or_empty file_data (py "data")) as [data | |]; try done. simpl in H.
  destruct (get_or_empty data (py "pages-index")) as [pages | |]; try done. simpl in H.
  destruct (get_or_empty pages page_id) as [page | |]; try done. simpl in H.
  destruct (get_or_empty page (py "objects")) as [raw_objects | |]; try done.
  simpl in H. destruct raw_objects as [| | | | | | raw]; try done.
  destruct (page_objects_loop raw []) as [decoded |] eqn:Hloop; [| done].
  simpl in H. injection H as <-. exists decoded. split; [done |].
  eapply page_objects_loop_ids; [| exact Hloop]. constructor.
Qed.

Lemma page_objects_keyed_by_id_witness :
  ∃ decoded,
    PDict [(str "s1", PDict [(str "name", str "Board"); (str "id", str "s1")]);
           (str "s2", PDict [(str "id", str "s2")])]
    = PDict decoded
    ∧ Forall (λ '(k, shape),
                ∃ items id, shape = PDict items
                            ∧ dict_get items (py "id") = Some id
                            ∧ (id = k ∨ py_eq k id = true)) decoded.
Proof.
  apply (page_objects_keyed_by_id
           (PDict
              [(str "data",
                PDict
                  [(str "pages-index",
                    PDict
                      [(str "p1",
                        PDict
                          [(str "objects",
                            PDict
                              [(str "s1", PList [str "^1"; PDict [(str "name", str "Board")]]);
                               (str "s2", PDict [(str "id", str "stale")])])])])])])
           (py "p1")).
  vm_compute. reflexivity.
Defined.

(** ** The depth of a shape tree *)

Lemma outcome_bind_Returns {A B} (r : outcome A) (f : A → outcome B) (b : B) :
  r ≫= f = Returns b → ∃ a, r = Returns a ∧ f a = Returns b.
Proof. destruct r as [a | e |]; [eauto | discriminate | discriminate]. Qed.

Lemma collect_children_height (build : pyval → outcome (option pyval)) (n : nat)
    (ids children : list pyval) :
  (∀ cid c, build cid = Returns (Some c) → tree_height c ≤ n) →
  collect_children build ids = Returns children →
  foldr (λ kid m, tree_height kid `max` m) 0 children ≤ n.
Proof.
  intros Hb. revert children. induction ids as [| cid ids IH]; intros children H.
  - injection H as <-. simpl. lia.
  - simpl in H. apply outcome_bind_Returns in H as (child & Hc & H).
    apply outcome_bind_Returns in H as (rest & Hr & H). injection H as <-.
    specialize (IH rest Hr). destruct child as [c |]; [| done].
    simpl. specialize (Hb cid c Hc). lia.
Qed.

Lemma _serialize_shape_brief_height (shape node : pyval) :
  _serialize_shape_brief shape = Returns node →
  tree_height node = 0
  ∧ (∀ v, ∃ node', setitem node (py "children_count") v = Ok node'
                   ∧ tree_height node' = 0)
  ∧ (∀ kids, ∃ node', setitem node (py "children") (PList kids) = Ok node'
                      ∧ tree_height node'
                        = S (foldr (λ kid m, tree_height kid `max` m) 0 kids)).
Proof.
  destruct shape; try done. intros [= <-].
  split; [reflexivity |]. split; intros x; eexists; split; reflexivity.
Qed.

Lemma build_tree_height (objects : list (pyval * pyval)) (levels : nat) :
  ∀ shape_id node,
    build_tree objects levels shape_id = Returns (Some node) →
    tree_height node ≤ levels.
Proof.
  induction levels as [| levels IH]; intros shape_id node H.
  - simpl in H. apply outcome_bind_Returns in H as (found & _ & H).
    destruct found as [shape |]; [| done].
    destruct (negb (truthy shape)); [done |].
    apply outcome_bind_Returns in H as (brief & Hb & H).
    apply outcome_bind_Returns in H as (children_ids & _ & H).
    destruct (_serialize_shape_brief_height _ _ Hb) as (H0 & Hcount & _).
    destruct (truthy children_ids); [| injection H as <-; lia].
    apply outcome_bind_Returns in H as (count & _ & H).
    destruct (Hcount (PInt count)) as (node' & Hset & Hh). rewrite Hset in H.
    simpl in H. injection H as <-. lia.
  - simpl in H. apply outcome_bind_Returns in H as (found & _ & H).
    destruct found as [shape |]; [| done].
    destruct (negb (truthy shape)); [done |].
    apply outcome_bind_Returns in H as (brief & Hb & H).
    apply outcome_bind_Returns in H as (children_ids & _ & H).
    destruct (_serialize_shape_brief_height _ _ Hb) as (H0 & _ & Hkids).
    destruct (truthy children_ids); [| injection H as <-; lia].
    apply outcome_bind_Returns in H as (ids & _ & H).
    apply outcome_bind_Returns in H as (children & Hc & H).
    destruct (Hkids children) as (node' & Hset & Hh). rewrite Hset in H.
    simpl in H. injection H as <-. rewrite Hh.
    pose proof (collect_children_height _ levels ids children (IH) Hc). lia.
Qed.

(** X17: the tree that [get_shape_tree] returns never has more than
    [depth] levels of ["children"] below its root, whatever the page
    holds, shapes that list one another included; with a [depth] of zero
    or less the root has no ["children"] at all. *)
Theorem shape_tree_depth (file_data : pyval) (page_id : pystr) (root_id : pyval)
    (depth : Z) (r : pyval) :
  get_shape_tree file_data page_id root_id depth = Returns r →
  tree_height r ≤ Z.to_nat depth.
Proof.
  unfold get_shape_tree. intros H.
  apply outcome_bind_Returns in H as (objects & _ & H).
  destruct objects as [| | | | | | objs]; try done.
  apply outcome_bind_Returns in H as (tree & Ht & H).
  destruct tree as [node |]; [| injection H as <-; simpl; lia].
  destruct (truthy node); injection H as <-; [| simpl; lia].
  by eapply build_tree_height.
Qed.

Lemma shape_tree_depth_witness :
  match
    get_shape_tree
      (PDict
         [(str "data",
           PDict
             [(str "pages-index",
               PDict
                 [(str "p1",
                   PDict
                     [(str "objects",
                       PDict
                         [(str "root",
                           PDict [(str "name", str "Board");
                                  (str "shapes", PList [str "a"])]);
                          (str "a",
                           PDict [(str "name", str "Group");
                                  (str "shapes", PList [str "root"])])])])])])])
      (py "p1") (str "root") 2
  with
  | Returns r => tree_height r ≤ Z.to_nat 2
  | _ => False
  end.
Proof.
  match goal with
  | |- match ?call with _ => _ end => destruct call as [r | e |] eqn:E
  end.
  - exact (shape_tree_depth _ _ _ _ r E).
  - vm_compute in E. discriminate E.
  - vm_compute in E. discriminate E.
Defined.

(** ** The content of a text shape *)

(** X18: the text that [build_text_content] puts in the content of a text
    shape is the text that [_extract_text_content] reads back from it,
    whatever the font, the fill and the other arguments; and a [text]
    that is no string makes the reader raise [TypeError]. (The limit of
    [str] on the digits of an [int], which a [letter_spacing] of more
    than 4300 digits reaches, is not applied, as said of [py_str].) *)
Theorem text_content_round_trip
    (font_family font_size font_weight font_style fill_color fill_opacity
     text_align line_height letter_spacing text_decoration : pyval) :
  (∀ text : pystr,
     _extract_text_content
       (build_text_content (PStr text) font_family font_size font_weight font_style
          fill_color fill_opacity text_align line_height letter_spacing text_decoration)
     = Ok text)
  ∧ (∀ text : pyval,
       (∀ s, text ≠ PStr s) →
       _extract_text_content
         (build_text_content text font_family font_size font_weight font_style
            fill_color fill_opacity text_align line_height letter_spacing
            text_decoration)
       = Raise TypeError).
Proof.
  split.
  - intros text. reflexivity.
  - intros text Hne. destruct text; try reflexivity. by destruct (Hne s).
Qed.

Lemma text_content_round_trip_witness :
  _extract_text_content
    (build_text_content (PInt 7) (str "sourcesanspro") (str "16") (str "400")
       (str "normal") (str "#000000") (PFloat (f64_of_Z 1)) (str "left")
       (PFloat (f64_of_Z 1)) (PInt 0) (str "none"))
  = Raise TypeError.
Proof.
  apply (proj2 (text_content_round_trip (str "sourcesanspro") (str "16") (str "400")
                  (str "normal") (str "#000000") (PFloat (f64_of_Z 1)) (str "left")
                  (PFloat (f64_of_Z 1)) (PInt 0) (str "none"))).
  intros s. discriminate.
Defined.

(** ** Escaping for SVG *)

(** The three replacements, one after the other, come to one pass that
    writes every character by [xml_entity]. *)
Lemma _escape_xml_entities (text : pystr) :
  _escape_xml text = flat_map xml_entity text.
Proof.
  unfold _escape_xml, replace_char.
  induction text as [| c text IH]; [done |].
  simpl. rewrite !flat_map_app, IH. f_equal.
  unfold xml_entity. norm_lit.
  destruct (N.eqb_spec c 38) as [-> | H1]; [done |]. simpl.
  destruct (N.eqb_spec c 60) as [-> | H2]; [done |]. simpl.
  by destruct (N.eqb_spec c 62) as [-> | H3].
Qed.

Lemma xml_entity_cases (c : N) :
  (c = ch "&" ∧ xml_entity c = py "&amp;")
  ∨ (c = ch "<" ∧ xml_entity c = py "&lt;")
  ∨ (c = ch ">" ∧ xml_entity c = py "&gt;")
  ∨ (c ≠ ch "&" ∧ c ≠ ch "<" ∧ c ≠ ch ">" ∧ xml_entity c = [c]).
Proof.
  unfold xml_entity. norm_lit.
  destruct (N.eqb_spec c 38) as [-> | H1]; [left; done |].
  destruct (N.eqb_spec c 60) as [-> | H2]; [right; left; done |].
  destruct (N.eqb_spec c 62) as [-> | H3]; [right; right; left; done |].
  right; right; right; done.
Qed.

Lemma xml_entity_no_bracket (c x : N) :
  x = ch "<" ∨ x = ch ">" → x ∉ xml_entity c.
Proof.
  intros Hx Hin.
  destruct (xml_entity_cases c) as [[_ E] | [[_ E] | [[_ E] | (_ & H2 & H3 & E)]]];
    rewrite E in Hin; clear E; revert Hin; norm_lit; rewrite ?elem_of_cons, elem_of_nil;
    destruct Hx as [-> | ->]; norm_lit; intros Hin;
    repeat (destruct Hin as [Hin | Hin]; [done |]); done.
Qed.

(** X19: the text that [_escape_xml] returns holds no angle bracket, and
    two texts are never escaped to the same one, so that the escaping
    loses nothing; a text without ampersand and angle bracket is
    returned as it is. *)
Theorem escape_xml_faithful :
  (∀ text, (ch "<" ∉ _escape_xml text) ∧ (ch ">" ∉ _escape_xml text))
  ∧ (∀ a b, _escape_xml a = _escape_xml b → a = b)
  ∧ (∀ text, ch "&" ∉ text → ch "<" ∉ text → ch ">" ∉ text →
             _escape_xml text = text).
Proof.
  split; [| split].
  - intros text. rewrite _escape_xml_entities.
    induction text as [| c text [IH1 IH2]]; simpl.
    { split; apply not_elem_of_nil. }
    rewrite !elem_of_app. split; intros [Hin | Hin]; try done;
      revert Hin; apply xml_entity_no_bracket; auto.
  - intros a b. rewrite !_escape_xml_entities. revert b.
    induction a as [| c a IH]; intros [| c' b]; simpl.
    + done.
    + destruct (xml_entity_cases c') as [[_ ->] | [[_ ->] | [[_ ->] | (_ & _ & _ & ->)]]];
        by norm_lit.
    + destruct (xml_entity_cases c) as [[_ ->] | [[_ ->] | [[_ ->] | (_ & _ & _ & ->)]]];
        by norm_lit.
    + destruct (xml_entity_cases c) as [[-> ->] | [[-> ->] | [[-> ->] | (? & ? & ? & ->)]]],
               (xml_entity_cases c') as [[-> ->] | [[-> ->] | [[-> ->] | (? & ? & ? & ->)]]];
        norm_lit; simpl; intros Heq; simplify_eq; try done;
        by (f_equal; apply IH).
  - intros text. rewrite _escape_xml_entities.
    induction text as [| c text IH]; [done |].
    rewrite !not_elem_of_cons. intros [H1 ?] [H2 ?] [H3 ?]. simpl.
    destruct (xml_entity_cases c) as [[-> _] | [[-> _] | [[-> _] | (_ & _ & _ & ->)]]];
      try done. simpl. f_equal. by apply IH.
Qed.

Lemma escape_xml_faithful_witness : _escape_xml (py "Title 1") = py "Title 1".
Proof.
  apply (proj2 (proj2 escape_xml_faithful) (py "Title 1"));
    norm_lit; rewrite !not_elem_of_cons; repeat split; try done;
    apply not_elem_of_nil.
Defined.

(** ** Operation names in a binary *)

Lemma at_front_spec (sub data : bytes) :
  at_front sub data = true ↔ ∃ after, data = sub ++ after.
Proof.
  revert data. induction sub as [| x sub IH]; intros data; simpl.
  - split; [intros _; by exists data | done].
  - destruct data as [| y data]; [split; [done | by intros [? ?]] |].
    rewrite andb_true_iff, IH. split.
    + intros [Hxy [after ->]]. apply Byte.byte_dec_bl in Hxy as ->. by exists after.
    + intros [after [= -> ->]]. split; [by apply Byte.byte_dec_lb | by exists after].
Qed.

Lemma count_from_occurs (sub : bytes) (data : bytes) (skip : nat) :
  0 < count_from sub skip data → occurs sub data.
Proof.
  revert skip. induction data as [| y data IH]; intros skip; simpl; [lia |].
  assert (Hrest : ∀ k, 0 < count_from sub k data → occurs sub (y :: data)).
  { intros k Hk. destruct (IH k Hk) as (before & after & ->).
    by exists (y :: before), after. }
  destruct skip as [| k]; [| apply Hrest].
  destruct (at_front sub (y :: data)) eqn:Hf; [| apply Hrest].
  intros _. apply at_front_spec in Hf as [after ->]. by exists [], after.
Qed.

Lemma occurs_count_from (sub : bytes) (data : bytes) :
  sub ≠ [] → occurs sub data → 0 < count_from sub 0 data.
Proof.
  intros Hne (before & after & ->).
  induction before as [| y before IH]; simpl.
  - destruct sub as [| x sub]; [done |]. simpl.
    assert (Hf : at_front (x :: sub) (x :: sub ++ after) = true)
      by (apply at_front_spec; by exists after).
    simpl in Hf. rewrite Hf. lia.
  - destruct (at_front sub (y :: before ++ sub ++ after)); [lia | exact IH].
Qed.

Lemma bytes_count_occurs (sub data : bytes) :
  sub ≠ [] → (0 < bytes_count data sub ↔ occurs sub data).
Proof.
  intros Hne. unfold bytes_count. destruct sub as [| x sub]; [done |].
  split; [apply count_from_occurs | by apply occurs_count_from].
Qed.

Lemma op_types_fold (data : bytes) (ops : list string) (found : list pystr)
    (name : pystr) :
  name ∈ fold_left
           (λ found op,
              let count := bytes_count data (bytes_of op) in
              if 0 <? count then found ++ replicate count (py op) else found)
           ops found
  ↔ name ∈ found
    ∨ ∃ op, op ∈ ops ∧ name = py op ∧ 0 < bytes_count data (bytes_of op).
Proof.
  revert found. induction ops as [| op ops IH]; intros found; simpl.
  - split; [by left |]. intros [? | (op & Hop & _)]; [done |]. by apply elem_of_nil in Hop.
  - rewrite IH. cbv zeta.
    destruct (Nat.ltb_spec 0 (bytes_count data (bytes_of op))) as [Hpos | Hzero].
    + rewrite elem_of_app, elem_of_replicate. split.
      * intros [[? | [-> _]] | (op' & Hin & ? & ?)]; [by left | |].
        -- right. exists op. split; [by left | done].
        -- right. exists op'. split; [by right | done].
      * intros [? | (op' & Hin & -> & Hc)]; [by left; left |].
        apply elem_of_cons in Hin as [-> | Hin].
        -- left. right. split; [done | lia].
        -- right. by exists op'.
    + split.
      * intros [? | (op' & Hin & ? & ?)]; [by left |].
        right. exists op'. split; [by right | done].
      * intros [? | (op' & Hin & -> & Hc)]; [by left |].
        apply elem_of_cons in Hin as [-> | Hin]; [lia |].
        right. by exists op'.
Qed.

(** X20: the names that [_extract_op_types_from_fressian] reports are
    exactly the constants of [_KNOWN_OPS] that occur in the data: it
    misses none and invents none. *)
Theorem op_types_are_occurrences (data : bytes) (name : pystr) :
  name ∈ _extract_op_types_from_fressian data
  ↔ ∃ op, op ∈ _KNOWN_OPS ∧ name = py op ∧ occurs (bytes_of op) data.
Proof.
  unfold _extract_op_types_from_fressian. rewrite op_types_fold.
  assert (Hne : Forall (λ op, bytes_of op ≠ []) _KNOWN_OPS)
    by (unfold _KNOWN_OPS; repeat constructor; done).
  rewrite Forall_forall in Hne. split.
  - intros [Hin | (op & Hop & -> & Hc)]; [by apply elem_of_nil in Hin |].
    exists op. split; [done |]. split; [done |].
    by apply bytes_count_occurs; [apply Hne |].
  - intros (op & Hop & -> & Hocc). right. exists op. split; [done |].
    split; [done |]. by apply bytes_count_occurs; [apply Hne |].
Qed.
